(** * Verification of the text-similarity engine of plagiarism_utils.py

    A shallow embedding of [src/3123004445/plagiarism_utils.py] and of
    [main.py], together with the properties its specification states about
    it and further properties of the code.

    Conventions of the embedding:
    - a Python [str] is the list of its code points ([pystr]); a token list is
      a [list pystr];
    - a Python [int] is a [Z]; a Python [float] is a binary64 number, the
      kernel's primitive [float], whose operations are specified by the
      [SpecFloat] functions;
    - a call that may raise returns a [pyres]: [Ret v] or [Raise e];
    - the error of a rounding is measured on the real numbers;
    - a [defaultdict(int)] is a [gmap pystr Z] read with default [0]; a [set]
      of strings is a [gset pystr]; a list of lists indexed in place is a
      [list (list Z)] whose reads and writes check their bounds;
    - the file system is an abstract state, read and changed through the
      functions of [os] and [open] that the program calls. *)

From Stdlib Require Import ZArith Lia List Bool Floats.
From Stdlib Require Import Rbase Rfunctions Lra Psatz.
From stdpp Require Import base option list gmap gmultiset sets.

Local Open Scope Z_scope.

(** ** Python values and exceptions *)

Inductive exn : Type :=
| ValueError
| TypeError
| IndexError
| ZeroDivisionError
| OverflowError
| UnicodeDecodeError
| PlainException
| WrappedException (cause : exn).

Inductive pyres (A : Type) : Type :=
| Ret (a : A)
| Raise (e : exn).
Arguments Ret {A} a.
Arguments Raise {A} e.

#[export] Instance pyres_ret : MRet pyres := @Ret.
#[export] Instance pyres_bind : MBind pyres := fun A B k r =>
  match r with
  | Ret a => k a
  | Raise e => Raise e
  end.

(** A Python string: the sequence of its code points. *)
Abbreviation pystr := (list Z).

(** [not l] for a sequence. *)
Definition is_empty {A : Type} (l : list A) : bool :=
  match l with
  | [] => true
  | _ :: _ => false
  end.

(** [for x in xs: body], threading the loop state. *)
Fixpoint for_each {S : Type} (xs : list nat) (body : nat -> S -> pyres S)
    (s : S) : pyres S :=
  match xs with
  | [] => Ret s
  | x :: xs' => s' ← body x s; for_each xs' body s'
  end.

(** [range(a, b)]. *)
Definition range (a b : nat) : list nat := seq a (b - a).

(** [sum(...)] over ints: accumulation from [0], left to right. *)
Definition Zsum (l : list Z) : Z := foldl Z.add 0 l.

(** ** Binary64 arithmetic as Python performs it *)

Module PyFloat.

(** [float(n)] for an [int]: the nearest binary64 number (ties to even);
    CPython raises [OverflowError] when that would be infinite. *)
Definition of_int (n : Z) : pyres float :=
  match binary_normalize prec emax n 0 false with
  | S754_infinity _ => Raise OverflowError
  | r => Ret (SF2Prim r)
  end.

(** [a / b] for two [int]s ([long_true_divide]): the correctly rounded
    quotient of the exact integers; [ZeroDivisionError] when [b = 0],
    [OverflowError] when the quotient is too large. *)
Definition int_truediv (a b : Z) : pyres float :=
  if b =? 0 then Raise ZeroDivisionError
  else
    let neg := xorb (a <? 0) (b <? 0) in
    if a =? 0 then Ret (SF2Prim (S754_zero neg))
    else
      let '(q, e, l) := SFdiv_core_binary prec emax (Z.abs a) 0 (Z.abs b) 0 in
      match binary_round_aux prec emax neg q e l with
      | S754_infinity _ => Raise OverflowError
      | r => Ret (SF2Prim r)
      end.

(** [x / y] for two [float]s: IEEE division, except that a zero divisor
    raises. *)
Definition truediv (x y : float) : pyres float :=
  if PrimFloat.eqb y 0%float then Raise ZeroDivisionError
  else Ret (PrimFloat.div x y).

(** [math.sqrt(n)] for an [int]. *)
Definition sqrt_int (n : Z) : pyres float :=
  x ← of_int n;
  if PrimFloat.ltb x 0%float then Raise ValueError
  else Ret (PrimFloat.sqrt x).

(** [0 <= x <= 1]. *)
Definition in_unit_interval (x : float) : Prop :=
  PrimFloat.leb 0%float x = true /\ PrimFloat.leb x 1%float = true.

End PyFloat.

(** ** Character classes *)

(** [is_chinese_char]: a one-character string in U+4E00..U+9FFF. *)
Definition is_chinese_char (char : pystr) : bool :=
  match char with
  | [c] => (0x4e00 <=? c) && (c <=? 0x9fff)
  | _ => false
  end.

(** [string.punctuation]. *)
Definition string_punctuation : pystr :=
  [33; 34; 35; 36; 37; 38; 39; 40; 41; 42; 43; 44; 45; 46; 47;
   58; 59; 60; 61; 62; 63; 64; 91; 92; 93; 94; 95; 96; 123; 124; 125; 126].

(** The full-width marks appended to it in [preprocess_text]. *)
Definition cjk_punctuation : pystr :=
  [0xff01; 0xff1f; 0x3002; 0xff0c; 0x3001; 0xff1b; 0xff1a;
   0x201c; 0x201d; 0x2018; 0x2019; 0xff08; 0xff09;
   0x3010; 0x3011; 0x300a; 0x300b].

Definition punctuation : pystr := string_punctuation ++ cjk_punctuation.

(** The code points that [str.isspace], [str.strip] and the pattern [\s]
    of [re] treat as whitespace. *)
Definition unicode_whitespace : pystr :=
  [0x9; 0xa; 0xb; 0xc; 0xd; 0x1c; 0x1d; 0x1e; 0x1f; 0x20; 0x85; 0xa0;
   0x1680; 0x2000; 0x2001; 0x2002; 0x2003; 0x2004; 0x2005; 0x2006; 0x2007;
   0x2008; 0x2009; 0x200a; 0x2028; 0x2029; 0x202f; 0x205f; 0x3000].

(** [s.translate(str.maketrans('', '', chars))]: delete the characters of
    [chars]. *)
Definition translate_delete (chars s : pystr) : pystr :=
  filter (fun c => c ∉ chars) s.

(** [re.sub(r'\s+', '', s)]: delete every run of whitespace. *)
Definition remove_whitespace (s : pystr) : pystr :=
  filter (fun c => c ∉ unicode_whitespace) s.

(** [s.replace(c, '')] for a one-character [c]. *)
Definition remove_char (c : Z) (s : pystr) : pystr :=
  filter (fun x => x ≠ c) s.

Fixpoint lstrip (s : pystr) : pystr :=
  match s with
  | [] => []
  | c :: s' => if decide (c ∈ unicode_whitespace) then lstrip s' else s
  end.

(** [s.strip()]. *)
Definition strip (s : pystr) : pystr :=
  reverse (lstrip (reverse (lstrip s))).

(** ** preprocess_text *)

Section Preprocess.

(** The services of the Python runtime and of [jieba] that the tokenizer
    calls: [str.isalnum] and [str.lower] on one character ([lower] may give
    several), and [jieba.cut(s, cut_all=False)]. *)
Variable isalnum : Z -> bool.
Variable lower : Z -> pystr.
Variable jieba_cut : pystr -> list pystr.

(** The string for the edit distance (lines 145-152). *)
Definition edit_string (text : pystr) : pystr :=
  remove_whitespace (translate_delete punctuation text).

(** One iteration of the first loop, on [(tokens, temp_english)]. *)
Definition split_step (st : list pystr * list pystr) (char : Z)
    : list pystr * list pystr :=
  let '(tokens, temp_english) := st in
  if isalnum char && negb (is_chinese_char [char]) then
    (tokens, temp_english ++ [lower char])
  else
    let tokens1 :=
      if is_empty temp_english then tokens
      else tokens ++ [concat temp_english] in
    let tokens2 :=
      if is_chinese_char [char] then tokens1 ++ [[char]] else tokens1 in
    (tokens2, []).

Definition split_scripts (text : pystr) : list pystr :=
  let '(tokens, temp_english) := foldl split_step ([], []) text in
  if is_empty temp_english then tokens else tokens ++ [concat temp_english].

(** One iteration of the second loop, on [(chinese_tokens, temp_chinese)]. *)
Definition segment_step (st : list pystr * list pystr) (current_token : pystr)
    : list pystr * list pystr :=
  let '(chinese_tokens, temp_chinese) := st in
  if existsb (fun c => is_chinese_char [c]) current_token then
    (chinese_tokens, temp_chinese ++ [current_token])
  else
    let chinese_tokens1 :=
      if is_empty temp_chinese then chinese_tokens
      else chinese_tokens ++ jieba_cut (concat temp_chinese) in
    (chinese_tokens1 ++ [current_token], []).

Definition segment_chinese (tokens : list pystr) : list pystr :=
  let '(chinese_tokens, temp_chinese) := foldl segment_step ([], []) tokens in
  if is_empty temp_chinese then chinese_tokens
  else chinese_tokens ++ jieba_cut (concat temp_chinese).

Definition preprocess_text (text : pystr) : list pystr * pystr :=
  if is_empty text then ([], [])
  else
    let edit_str := edit_string text in
    let tokens := split_scripts text in
    let chinese_tokens := segment_chinese tokens in
    let final_tokens :=
      filter (fun token => strip token ≠ []) chinese_tokens in
    (final_tokens, edit_str).

End Preprocess.

(** ** word_frequency_match *)

(** [d[k]] on a [defaultdict(int)]: a missing key is inserted with [0]. *)
Definition dd_get (d : gmap pystr Z) (k : pystr) : Z * gmap pystr Z :=
  match d !! k with
  | Some v => (v, d)
  | None => (0, <[k := 0]> d)
  end.

(** [d[k] += n]. *)
Definition dd_add (d : gmap pystr Z) (k : pystr) (n : Z) : gmap pystr Z :=
  let '(v, d') := dd_get d k in <[k := v + n]> d'.

(** The first loop: count every word of the original. *)
Definition count_words (original : list pystr) : gmap pystr Z :=
  foldl (fun d word => dd_add d word 1) ∅ original.

(** One iteration of the second loop, on
    [(original_counts, matched_count)]. *)
Definition match_step (st : gmap pystr Z * Z) (word : pystr)
    : gmap pystr Z * Z :=
  let '(original_counts, matched_count) := st in
  let '(v, counts') := dd_get original_counts word in
  if 0 <? v then (dd_add counts' word (-1), matched_count + 1)
  else (counts', matched_count).

Definition matched_count (original plagiarized : list pystr) : Z :=
  snd (foldl match_step (count_words original, 0) plagiarized).

Definition word_frequency_match (original plagiarized : list pystr)
    : pyres float :=
  if is_empty original || is_empty plagiarized then Ret 0%float
  else
    PyFloat.int_truediv (matched_count original plagiarized)
                        (Z.of_nat (length plagiarized)).

(** The same scorer in the words of the specification: the original as a
    multiset, consumed greedily by the candidate from left to right. *)
Fixpoint greedy_match (remaining : gmultiset pystr) (candidate : list pystr)
    : Z :=
  match candidate with
  | [] => 0
  | w :: rest =>
      if decide (0 < multiplicity w remaining)%nat
      then 1 + greedy_match (remaining ∖ {[+ w +]}) rest
      else greedy_match remaining rest
  end.

Definition frequency_match_spec (original candidate : list pystr)
    : pyres float :=
  if is_empty original || is_empty candidate then Ret 0%float
  else
    PyFloat.int_truediv (greedy_match (list_to_set_disj original) candidate)
                        (Z.of_nat (length candidate)).

(** ** cosine_similarity_score *)

Section Cosine.

(** [synonym_database.get_synonyms], in the order in which its result is
    iterated. *)
Variable get_synonyms : pystr -> list pystr.

Definition build_vocab (tokens : list pystr) : gset pystr :=
  foldl (fun vocab_set outer_token =>
           vocab_set ∪ list_to_set (get_synonyms outer_token)) ∅ tokens.

(** The [word_counts] of [get_vector]. *)
Definition synonym_counts (tokens : list pystr) : gmap pystr Z :=
  foldl (fun word_counts token =>
           foldl (fun wc synonym => dd_add wc synonym 1)
                 word_counts (get_synonyms token)) ∅ tokens.

Definition get_vector (vocab : list pystr) (tokens : list pystr) : list Z :=
  let word_counts := synonym_counts tokens in
  map (fun word => default 0 (word_counts !! word)) vocab.

Definition dot_product (u v : list Z) : Z :=
  Zsum (zip_with Z.mul u v).

Definition sum_squares (v : list Z) : Z :=
  Zsum (map (fun x => x ^ 2) v).

(** The three integers the score is computed from, for the vocabulary
    listed in the order [vocab]. *)
Definition cosine_parts_on (vocab : list pystr)
    (original plagiarized : list pystr) : Z * Z * Z :=
  let original_vector := get_vector vocab original in
  let plagiarized_vector := get_vector vocab plagiarized in
  (dot_product original_vector plagiarized_vector,
   sum_squares original_vector,
   sum_squares plagiarized_vector).

(** [vocab = list(vocab_set)]: the set listed in some order. The three sums
    are the same for every order ([cosine_parts_on_permutation] below), so
    the order of [elements] stands for Python's. *)
Definition cosine_parts (original plagiarized : list pystr) : Z * Z * Z :=
  cosine_parts_on (elements (build_vocab (original ++ plagiarized)))
                  original plagiarized.

(** Lines 295-303: the floating-point end of the computation. *)
Definition cosine_finish (parts : Z * Z * Z) : pyres float :=
  let '(dot, sq_original, sq_plagiarized) := parts in
  norm_original ← PyFloat.sqrt_int sq_original;
  norm_plagiarized ← PyFloat.sqrt_int sq_plagiarized;
  if PrimFloat.eqb norm_original 0%float
     || PrimFloat.eqb norm_plagiarized 0%float
  then Ret 0%float
  else
    d ← PyFloat.of_int dot;
    PyFloat.truediv d (PrimFloat.mul norm_original norm_plagiarized).

Definition cosine_similarity_score (original plagiarized : list pystr)
    : pyres float :=
  if is_empty original || is_empty plagiarized then Ret 0%float
  else cosine_finish (cosine_parts original plagiarized).

End Cosine.

(** ** edit_distance_similarity *)

(** [s[i]] for [0 <= i]. *)
Definition str_get (s : pystr) (i : nat) : pyres Z :=
  match s !! i with
  | Some c => Ret c
  | None => Raise IndexError
  end.

(** [dp[i][j]]. *)
Definition dp_get (dp : list (list Z)) (i j : nat) : pyres Z :=
  match dp !! i with
  | Some row =>
      match row !! j with
      | Some v => Ret v
      | None => Raise IndexError
      end
  | None => Raise IndexError
  end.

(** [dp[i][j] = v]. *)
Definition dp_set (dp : list (list Z)) (i j : nat) (v : Z)
    : pyres (list (list Z)) :=
  match dp !! i with
  | Some row =>
      if decide (j < length row)%nat
      then Ret (<[i := <[j := v]> row]> dp)
      else Raise IndexError
  | None => Raise IndexError
  end.

(** The body of the inner loop (lines 339-348). *)
Definition fill_cell (original plagiarized : pystr) (i j : nat)
    (dp : list (list Z)) : pyres (list (list Z)) :=
  a ← str_get original (i - 1);
  b ← str_get plagiarized (j - 1);
  if a =? b then
    v ← dp_get dp (i - 1) (j - 1);
    dp_set dp i j v
  else
    x ← dp_get dp (i - 1) j;
    y ← dp_get dp i (j - 1);
    z ← dp_get dp (i - 1) (j - 1);
    dp_set dp i j (1 + Z.min (Z.min x y) z).

(** Lines 328-348: the table, allocated (one fresh row per index, none
    shared), initialised and filled. *)
Definition edit_distance_table (original plagiarized : pystr)
    : pyres (list (list Z)) :=
  let len_original := length original in
  let len_plagiarized := length plagiarized in
  let dp0 := replicate (len_original + 1) (replicate (len_plagiarized + 1) 0) in
  dp1 ← for_each (range 0 (len_original + 1))
                 (fun i dp => dp_set dp i 0 (Z.of_nat i)) dp0;
  dp2 ← for_each (range 0 (len_plagiarized + 1))
                 (fun j dp => dp_set dp 0 j (Z.of_nat j)) dp1;
  for_each (range 1 (len_original + 1))
    (fun i dp =>
       for_each (range 1 (len_plagiarized + 1))
                (fun j dp => fill_cell original plagiarized i j dp) dp)
    dp2.

Definition edit_distance (original plagiarized : pystr) : pyres Z :=
  dp ← edit_distance_table original plagiarized;
  dp_get dp (length original) (length plagiarized).

Definition edit_distance_similarity (original plagiarized : pystr)
    : pyres float :=
  if is_empty original || is_empty plagiarized then Ret 0%float
  else
    distance ← edit_distance original plagiarized;
    let max_length :=
      Z.max (Z.of_nat (length original)) (Z.of_nat (length plagiarized)) in
    q ← PyFloat.int_truediv distance max_length;
    Ret (PrimFloat.sub 1%float q).

(** The Levenshtein distance in the words of the specification: the least
    number of insertions, deletions and substitutions of one character, each
    of cost 1 and at any position, that turn [a] into [b]. *)
Inductive edit_step : pystr -> pystr -> Prop :=
| step_insert pre c post : edit_step (pre ++ post) (pre ++ c :: post)
| step_delete pre c post : edit_step (pre ++ c :: post) (pre ++ post)
| step_substitute pre c c' post :
    edit_step (pre ++ c :: post) (pre ++ c' :: post).

Inductive edit_steps : pystr -> pystr -> Z -> Prop :=
| steps_done a : edit_steps a a 0
| steps_next a b c n :
    edit_step a b -> edit_steps b c n -> edit_steps a c (n + 1).

Definition is_levenshtein (a b : pystr) (d : Z) : Prop :=
  edit_steps a b d /\ forall n, edit_steps a b n -> d <= n.

(** Alignments: the edits listed from left to right, each character of [a]
    kept, substituted or deleted, and characters of [b] inserted between
    them. [edits a b n]: some alignment of [a] with [b] costs [n]. *)
Inductive edits : pystr -> pystr -> Z -> Prop :=
| edits_nil : edits [] [] 0
| edits_keep x a b n : edits a b n -> edits (x :: a) (x :: b) n
| edits_substitute x y a b n : edits a b n -> edits (x :: a) (y :: b) (n + 1)
| edits_delete x a b n : edits a b n -> edits (x :: a) b (n + 1)
| edits_insert y a b n : edits a b n -> edits a (y :: b) (n + 1).

Definition least_alignment (a b : pystr) (d : Z) : Prop :=
  edits a b d /\ forall n, edits a b n -> d <= n.

(** The recurrence of the table as a function of the two strings read from
    their heads. *)
Fixpoint lev (a : pystr) : pystr -> Z :=
  match a with
  | [] => fun b => Z.of_nat (length b)
  | x :: a' =>
      fix lev_row (b : pystr) : Z :=
        match b with
        | [] => Z.of_nat (length a)
        | y :: b' =>
            if x =? y then lev a' b'
            else 1 + Z.min (Z.min (lev a' b) (lev_row b')) (lev a' b')
        end
  end.

(** ** calculate_similarity and its caller *)

(** [calculate_similarity] (lines 357-375) consists of its signature and
    docstring: the call evaluates no statement and returns [None]. *)
Definition calculate_similarity (original_tokens plagiarized_tokens : list pystr)
    (original_str plagiarized_str : pystr) : pyres (option float) :=
  Ret None.

(** The validity check of [main] (lines 61-64), for one document. *)
Definition check_preprocessed (tokens : list pystr) (s : pystr) : pyres unit :=
  if is_empty tokens || is_empty s then Raise ValueError else Ret tt.

(** Lines 57-70 of [main], from the preprocessed documents to the product
    [similarity * 100] (the rounding of that product to two decimals is left
    out). *)
Definition main_similarity
    (original_tokens plagiarized_tokens : list pystr)
    (original_str plagiarized_str : pystr) : pyres float :=
  _ ← check_preprocessed original_tokens original_str;
  _ ← check_preprocessed plagiarized_tokens plagiarized_str;
  similarity ← calculate_similarity original_tokens plagiarized_tokens
                                    original_str plagiarized_str;
  match similarity with
  | Some x => Ret (PrimFloat.mul x 100%float)
  | None => Raise TypeError
  end.

(** ** read_file *)

Inductive encoding : Type :=
| utf_8 | utf_8_sig | gbk | gb2312 | iso_8859_1 | latin_1.

Definition encodings : list encoding :=
  [utf_8; utf_8_sig; gbk; gb2312; iso_8859_1; latin_1].

Section ReadFile.

(** [open(path, 'r', encoding=enc, errors='replace').read()] on a file
    whose bytes are [data]: the decoded text, or the exception raised. *)
Variable decode : encoding -> list Z -> pyres pystr.

(** Lines 105-111, once the text is decoded. *)
Definition check_content (text : pystr) : pyres pystr :=
  let content := strip text in
  if is_empty (remove_char 32 (remove_char 10 (remove_char 13 content)))
  then Raise ValueError
  else Ret content.

Fixpoint try_encodings (encs : list encoding) (data : list Z) : pyres pystr :=
  match encs with
  | [] => Raise PlainException
  | enc :: rest =>
      match decode enc data with
      | Ret text => check_content text
      | Raise UnicodeDecodeError => try_encodings rest data
      | Raise e => Raise e
      end
  end.

Definition read_file (data : list Z) : pyres pystr :=
  match try_encodings encodings data with
  | Ret content => Ret content
  | Raise e => Raise (WrappedException e)
  end.

End ReadFile.

(** ** validate_file_path and main *)

(** What [validate_file_path] and [main] can raise: the exceptions of the
    text engine above, and those of the file checks ([IOError] is Python 3's
    alias of [OSError]). The messages are left out. *)
Inductive exception : Type :=
| EngineError (e : exn)
| FileNotFoundError
| IsADirectoryError
| PermissionError
| IOError.

Inductive outcome (A : Type) : Type :=
| Returned (a : A)
| Raised (e : exception).
Arguments Returned {A} a.
Arguments Raised {A} e.

#[export] Instance outcome_ret : MRet outcome := @Returned.
#[export] Instance outcome_bind : MBind outcome := fun A B k r =>
  match r with
  | Returned a => k a
  | Raised e => Raised e
  end.

(** The mode argument of [os.access]. *)
Inductive access_mode : Type := R_OK | W_OK.

(** The functions of [os], of [os.path] and of [open] that the program
    calls, on a file system of type [filesystem]. The queries read it;
    [makedirs] and [write_text] change it, also when they raise.
    - [makedirs dir]: [os.makedirs(dir, exist_ok=True)];
    - [open_read fs enc path]:
      [open(path, 'r', encoding=enc, errors='replace').read()];
    - [write_text path text]:
      [with open(path, 'w', encoding='utf-8') as f: f.write(text)]. *)
Record os_module (filesystem : Type) : Type := {
  expanduser : pystr -> pystr;
  expandvars : pystr -> pystr;
  dirname : pystr -> pystr;
  path_exists : filesystem -> pystr -> bool;
  isfile : filesystem -> pystr -> bool;
  access : filesystem -> pystr -> access_mode -> bool;
  getsize : filesystem -> pystr -> outcome Z;
  makedirs : pystr -> filesystem -> filesystem * outcome unit;
  open_read : filesystem -> encoding -> pystr -> pyres pystr;
  write_text : pystr -> pystr -> filesystem -> filesystem * outcome unit
}.
Arguments expanduser {filesystem} _ _.
Arguments expandvars {filesystem} _ _.
Arguments dirname {filesystem} _ _.
Arguments path_exists {filesystem} _ _ _.
Arguments isfile {filesystem} _ _ _.
Arguments access {filesystem} _ _ _ _.
Arguments getsize {filesystem} _ _ _.
Arguments makedirs {filesystem} _ _ _.
Arguments open_read {filesystem} _ _ _ _.
Arguments write_text {filesystem} _ _ _ _.

(** [validate_file_path] (lines 25-74); [file_type] only words the
    messages. *)
Definition validate_file_path {filesystem : Type} (os : os_module filesystem)
    (fs : filesystem) (file_path file_type : pystr) : outcome pystr :=
  if is_empty file_path then Raised (EngineError ValueError)
  else
    let file_path := expanduser os file_path in
    let file_path := expandvars os file_path in
    if negb (path_exists os fs file_path) then Raised FileNotFoundError
    else if negb (isfile os fs file_path) then Raised IsADirectoryError
    else if negb (access os fs file_path R_OK) then Raised PermissionError
    else
      file_size ← getsize os fs file_path;
      if file_size =? 0 then Raised (EngineError ValueError)
      else if 100 * 1024 * 1024 <? file_size then Raised IOError
      else Returned file_path.

(** A step of [main]: from the file system to the file system it leaves and
    what it returned or raised. *)
Definition io (filesystem A : Type) : Type :=
  filesystem -> filesystem * outcome A.

#[export] Instance io_ret {filesystem} : MRet (io filesystem) :=
  fun A a fs => (fs, Returned a).
#[export] Instance io_bind {filesystem} : MBind (io filesystem) :=
  fun A B k m fs =>
    match m fs with
    | (fs', Returned a) => k a fs'
    | (fs', Raised e) => (fs', Raised e)
    end.

(** [raise e]. *)
Definition raise {filesystem A} (e : exception) : io filesystem A :=
  fun fs => (fs, Raised e).

(** A call that reads the file system. *)
Definition query {filesystem A} (q : filesystem -> outcome A)
    : io filesystem A :=
  fun fs => (fs, q fs).

(** A call of the text engine. *)
Definition engine {filesystem A} (r : pyres A) : io filesystem A :=
  fun fs => (fs, match r with
                 | Ret a => Returned a
                 | Raise e => Raised (EngineError e)
                 end).

(** [try: m] followed by [except Exception: raise e]. *)
Definition reraise {filesystem A} (e : exception) (m : io filesystem A)
    : io filesystem A :=
  fun fs =>
    match m fs with
    | (fs', Returned a) => (fs', Returned a)
    | (fs', Raised _) => (fs', Raised e)
    end.

(** What [main] prints: the line of a finished run, with the formatted
    result and the path it was saved to, or the line that reports the
    exception caught. *)
Inductive console_line : Type :=
| Completed (result result_path : pystr)
| Failed (e : exception).

(** The two labels that [main] passes to [validate_file_path]. *)
Definition original_label : pystr := [0x539f; 0x6587].
Definition plagiarized_label : pystr :=
  [0x6284; 0x88ad; 0x7248; 0x8bba; 0x6587].

Section Main.

Variable filesystem : Type.
Variable os : os_module filesystem.

(** The services of the Python runtime and of [jieba]: those of
    [preprocess_text], then [round(x, 2)] and the format [.2f]. *)
Variable isalnum : Z -> bool.
Variable lower : Z -> pystr.
Variable jieba_cut : pystr -> list pystr.
Variable round_2 : float -> float.
Variable format_2f : float -> pystr.

(** The body of the [try] of [main] (lines 23-78), for [sys.argv = argv].
    [read_file] is applied to the path, and its decoder opens the file at
    that path; lines 61-70 are [main_similarity]. The value is the line that
    the last [print] of the body writes. *)
Definition main_try (argv : list pystr) : io filesystem console_line :=
  match argv with
  | [_; original_path; plagiarized_path; result_path] =>
      original_path ←
        query (fun fs => validate_file_path os fs original_path original_label);
      plagiarized_path ←
        query (fun fs =>
                 validate_file_path os fs plagiarized_path plagiarized_label);
      let output_dir := dirname os result_path in
      missing ← query (fun fs =>
        Returned (negb (is_empty output_dir)
                  && negb (path_exists os fs output_dir)));
      _ ← (if missing : bool then reraise IOError (makedirs os output_dir)
           else mret tt);
      locked ← query (fun fs =>
        Returned (path_exists os fs result_path
                  && negb (access os fs result_path W_OK)));
      _ ← (if locked : bool then raise PermissionError else mret tt);
      original_text ←
        (fun fs => engine (read_file (open_read os fs) original_path) fs);
      plagiarized_text ←
        (fun fs => engine (read_file (open_read os fs) plagiarized_path) fs);
      let '(original_tokens, original_str) :=
        preprocess_text isalnum lower jieba_cut original_text in
      let '(plagiarized_tokens, plagiarized_str) :=
        preprocess_text isalnum lower jieba_cut plagiarized_text in
      product ← engine (main_similarity original_tokens plagiarized_tokens
                                        original_str plagiarized_str);
      let result := round_2 product in
      reraise IOError
        (_ ← write_text os result_path (format_2f result);
         mret (Completed (format_2f result) result_path))
  | _ => raise (EngineError ValueError)
  end.

(** [main] (lines 11-83): the file system it leaves, what it printed, and
    the status given to [sys.exit] when that was called. *)
Definition main (argv : list pystr) (fs : filesystem)
    : filesystem * list console_line * option Z :=
  match main_try argv fs with
  | (fs', Returned line) => (fs', [line], None)
  | (fs', Raised e) => (fs', [Failed e], Some 1)
  end.

End Main.

(** * Auxiliary definitions

    Notions that only the proofs below use, and the inputs of the examples. *)

(** A count table stands for a multiset when its entries, read with default
    [0], are the multiplicities. *)
Definition represents (d : gmap pystr Z) (R : gmultiset pystr) : Prop :=
  forall w, default 0 (d !! w) = Z.of_nat (multiplicity w R).

(** The four ways in which one character more at the head of either string
    moves [lev] by at most one. *)
Definition lev_steps_ok (a b : pystr) : Prop :=
  (forall x, lev (x :: a) b <= 1 + lev a b) /\
  (forall y, lev a (y :: b) <= 1 + lev a b) /\
  (forall x, lev a b <= 1 + lev (x :: a) b) /\
  (forall y, lev a b <= 1 + lev a (y :: b)).

(** [lev_close u u']: replacing [u'] by [u] costs at most one more. *)
Definition lev_close (u u' : pystr) : Prop :=
  forall b, lev u b <= 1 + lev u' b.

(** [dp[i][j]] when both indices are in range. *)
Definition cell (dp : list (list Z)) (i j : nat) : option Z :=
  match dp !! i with
  | Some row => row !! j
  | None => None
  end.

(** [n + 1] rows of [m + 1] cells. *)
Definition shaped (n m : nat) (dp : list (list Z)) : Prop :=
  length dp = S n /\ forall i row, dp !! i = Some row -> length row = S m.

(** What cell [(i, j)] of the table must hold: the value of the recurrence
    on the first [i] and [j] characters, read from their ends. *)
Definition target (original plagiarized : pystr) (i j : nat) : Z :=
  lev (reverse (take i original)) (reverse (take j plagiarized)).

(** The state of the table when the outer loop is at row [i] and the inner
    loop at column [j]. *)
Definition filled (original plagiarized : pystr) (i j : nat)
    (dp : list (list Z)) : Prop :=
  shaped (length original) (length plagiarized) dp /\
  forall i' j', (i' <= length original)%nat -> (j' <= length plagiarized)%nat ->
    (i' = 0 \/ j' = 0 \/ i' < i \/ (i' = i /\ j' < j))%nat ->
    cell dp i' j' = Some (target original plagiarized i' j').

(** How often [w] is met while the synonyms of every token are iterated. *)
Fixpoint synonym_occurrences (get_synonyms : pystr -> list pystr)
    (tokens : list pystr) (w : pystr) : Z :=
  match tokens with
  | [] => 0
  | t :: rest =>
      Z.of_nat (length (filter (fun s => s = w) (get_synonyms t)))
      + synonym_occurrences get_synonyms rest w
  end.

(** ** Auxiliary notions for the rounding to binary64 *)

Module Binary64.

Abbreviation fexp64 := (fexp prec emax).
Abbreviation bra64 := (binary_round_aux prec emax).

(** [inexact l]: the location says that digits were lost. *)
Definition inexact (l : location) : bool :=
  match l with
  | loc_Exact => false
  | loc_Inexact _ => true
  end.

(** [tracks M b k mrs]: [mrs] is what is left of the mantissa [M] (with
    lost digits before iff [b]) after [k] bits were shifted out. *)
Definition tracks (M : Z) (b : bool) (k : Z) (mrs : shr_record) : Prop :=
  shr_m mrs = M / 2 ^ k /\
  (b = false -> M mod 2 ^ k = 0 -> shr_r mrs = false /\ shr_s mrs = false).

(** What [binary_round_aux] builds from the final mantissa and exponent. *)
Definition bra_result (s : bool) (m3 e3 : Z) : spec_float :=
  match m3 with
  | 0 => S754_zero s
  | Zpos p => if e3 <=? 971 then S754_finite s p e3 else S754_infinity s
  | Zneg _ => S754_nan
  end.

(** The binary64 number one. *)
Definition sf_one : spec_float := S754_finite false 4503599627370496 (-52).

(** [0 <= r]: a zero, or a positive number or infinity. *)
Definition nonneg (r : spec_float) : Prop :=
  SFleb (S754_zero false) r = true.

(** [0 < r]. *)
Definition positive_sf (r : spec_float) : Prop :=
  match r with
  | S754_finite false _ _ | S754_infinity false => True
  | _ => False
  end.

(** Neither infinite nor a NaN. *)
Definition finite_sf (r : spec_float) : Prop :=
  match r with
  | S754_zero _ | S754_finite _ _ _ => True
  | _ => False
  end.

End Binary64.

(** ** Example inputs *)

Definition zhe : pystr := [0x8fd9].
Definition shi : pystr := [0x662f].
Definition yi : pystr := [0x4e00].
Definition ge : pystr := [0x4e2a].
Definition yige : pystr := [0x4e00; 0x4e2a].
Definition ceshi : pystr := [0x6d4b; 0x8bd5].
Definition di_yi_ge : pystr := [0x7b2c; 0x4e00; 0x4e2a].
Definition di_er_ge : pystr := [0x7b2c; 0x4e8c; 0x4e2a].
Definition wenben : pystr := [0x6587; 0x672c].
Definition nihao_shijie : pystr := [0x4f60; 0x597d; 0x4e16; 0x754c].
Definition nihao_zhongguo : pystr := [0x4f60; 0x597d; 0x4e2d; 0x56fd].
Definition abcde : pystr := [97; 98; 99; 100; 101].
Definition abcxe : pystr := [97; 98; 99; 120; 101].
Definition abc : pystr := [97; 98; 99].
Definition def : pystr := [100; 101; 102].
Definition zheshi_yige_ceshi_wenben : pystr :=
  [0x8fd9; 0x662f; 0x4e00; 0x4e2a; 0x6d4b; 0x8bd5; 0x6587; 0x672c].

(** A thesaurus without entries: every token is its own only synonym. *)
Definition no_synonyms (token : pystr) : list pystr := [token].

(** ** What [open(path, 'r', encoding=enc, errors='replace').read()] returns

    The decoders of the Python runtime with the error handler [replace]:
    bytes that the codec cannot decode become one U+FFFD, and the decoding
    goes on behind them. No input makes these decoders raise. *)

Definition replacement_character : Z := 0xfffd.

Definition is_continuation (b : Z) : bool := (0x80 <=? b) && (b <=? 0xbf).

(** The codec [utf-8]: an invalid start byte is replaced alone; a sequence
    that breaks off is replaced up to the byte that does not continue it, or
    up to the end of the data. *)
Fixpoint utf_8_replace (s : list Z) : pystr :=
  match s with
  | [] => []
  | ch :: s1 =>
      if ch <? 0x80 then ch :: utf_8_replace s1
      else if ch <? 0xc2 then replacement_character :: utf_8_replace s1
      else if ch <? 0xe0 then
        match s1 with
        | [] => [replacement_character]
        | ch2 :: s2 =>
            if is_continuation ch2
            then Z.lor (Z.shiftl (Z.land ch 0x1f) 6) (Z.land ch2 0x3f)
                 :: utf_8_replace s2
            else replacement_character :: utf_8_replace s1
        end
      else if ch <? 0xf0 then
        match s1 with
        | [] => [replacement_character]
        | ch2 :: s2 =>
            if negb (is_continuation ch2)
               || (if ch2 <? 0xa0 then ch =? 0xe0 else ch =? 0xed)
            then replacement_character :: utf_8_replace s1
            else
              match s2 with
              | [] => [replacement_character]
              | ch3 :: s3 =>
                  if is_continuation ch3
                  then Z.lor (Z.shiftl (Z.land ch 0x0f) 12)
                         (Z.lor (Z.shiftl (Z.land ch2 0x3f) 6)
                                (Z.land ch3 0x3f))
                       :: utf_8_replace s3
                  else replacement_character :: utf_8_replace s2
              end
        end
      else if ch <? 0xf5 then
        match s1 with
        | [] => [replacement_character]
        | ch2 :: s2 =>
            if negb (is_continuation ch2)
               || (if ch2 <? 0x90 then ch =? 0xf0 else ch =? 0xf4)
            then replacement_character :: utf_8_replace s1
            else
              match s2 with
              | [] => [replacement_character]
              | ch3 :: s3 =>
                  if negb (is_continuation ch3)
                  then replacement_character :: utf_8_replace s2
                  else
                    match s3 with
                    | [] => [replacement_character]
                    | ch4 :: s4 =>
                        if is_continuation ch4
                        then Z.lor (Z.shiftl (Z.land ch 0x07) 18)
                               (Z.lor (Z.shiftl (Z.land ch2 0x3f) 12)
                                  (Z.lor (Z.shiftl (Z.land ch3 0x3f) 6)
                                         (Z.land ch4 0x3f)))
                             :: utf_8_replace s4
                        else replacement_character :: utf_8_replace s3
                    end
              end
        end
      else replacement_character :: utf_8_replace s1
  end.

(** The codec [utf-8-sig] on the bytes of a file: a leading byte order mark
    is skipped, and a file that is only the beginning of one reads as
    empty. *)
Definition utf_8_sig_replace (s : list Z) : pystr :=
  match s with
  | [] => []
  | [b1] => if b1 =? 0xef then [] else utf_8_replace s
  | [b1; b2] =>
      if (b1 =? 0xef) && (b2 =? 0xbb) then [] else utf_8_replace s
  | b1 :: b2 :: b3 :: s' =>
      if (b1 =? 0xef) && (b2 =? 0xbb) && (b3 =? 0xbf) then utf_8_replace s'
      else utf_8_replace s
  end.

(** The codecs [gbk] and [gb2312]: a byte below 0x80 stands for itself; any
    other byte is looked up with the byte after it in the table of the
    codec, and is replaced alone when the pair has no entry. *)
Fixpoint dbcs_replace (table : Z -> Z -> option Z) (s : list Z) : pystr :=
  match s with
  | [] => []
  | c :: s1 =>
      if c <? 0x80 then c :: dbcs_replace table s1
      else
        match s1 with
        | [] => [replacement_character]
        | c2 :: s2 =>
            match table c c2 with
            | Some decoded => decoded :: dbcs_replace table s2
            | None => replacement_character :: dbcs_replace table s1
            end
        end
  end.

(** The two-byte tables of the two codecs. *)
Record dbcs_tables : Type := {
  gbk_table : Z -> Z -> option Z;
  gb2312_table : Z -> Z -> option Z
}.

Definition decode_replace (tables : dbcs_tables) (enc : encoding)
    (data : list Z) : pystr :=
  match enc with
  | utf_8 => utf_8_replace data
  | utf_8_sig => utf_8_sig_replace data
  | gbk => dbcs_replace (gbk_table tables) data
  | gb2312 => dbcs_replace (gb2312_table tables) data
  | iso_8859_1 | latin_1 => data
  end.

(** The mode ['r'] translates the line ends '\r\n' and '\r' to '\n'. *)
Fixpoint universal_newlines (s : pystr) : pystr :=
  match s with
  | [] => []
  | c :: s1 =>
      if c =? 13 then
        match s1 with
        | [] => [10]
        | c2 :: s2 =>
            if c2 =? 10 then 10 :: universal_newlines s2
            else 10 :: universal_newlines s1
        end
      else c :: universal_newlines s1
  end.

(** The text read from a file whose bytes are [data]. *)
Definition text_mode_read (tables : dbcs_tables) (enc : encoding)
    (data : list Z) : pyres pystr :=
  Ret (universal_newlines (decode_replace tables enc data)).

(** [open] on a file system in which every path names a file with the bytes
    [data]: a path with a NUL character is refused with [ValueError]
    (embedded null byte), whatever the encoding. *)
Definition open_file (tables : dbcs_tables) (data : list Z) (enc : encoding)
    (file_path : pystr) : pyres pystr :=
  if bool_decide (0 ∈ file_path) then Raise ValueError
  else text_mode_read tables enc data.

(** The entries of the two tables that the examples use, those of the two
    characters of [nihao]; and [nihao] encoded in GBK. *)
Definition nihao : pystr := [0x4f60; 0x597d].

Definition nihao_table (c c2 : Z) : option Z :=
  if (c =? 0xc4) && (c2 =? 0xe3) then Some 0x4f60
  else if (c =? 0xba) && (c2 =? 0xc3) then Some 0x597d
  else None.

Definition sample_tables : dbcs_tables :=
  {| gbk_table := nihao_table; gb2312_table := nihao_table |}.

Definition gbk_nihao : list Z := [0xc4; 0xe3; 0xba; 0xc3].

(** ** Auxiliary notions for the further properties *)

(** A character that [str.strip] removes. *)
Definition is_whitespace (c : Z) : Prop := c ∈ unicode_whitespace.

(** What the first loop of [preprocess_text] keeps of one character: the
    lowercase form of a letter or digit that is not Chinese, a Chinese
    character itself, and nothing of any other character. *)
Definition kept_characters (isalnum : Z -> bool) (lower : Z -> pystr) (c : Z)
    : pystr :=
  if isalnum c && negb (is_chinese_char [c]) then lower c
  else if is_chinese_char [c] then [c] else [].

(** A token without a Chinese character, as the second loop tests it. *)
Definition latin (t : pystr) : Prop :=
  existsb (fun c => is_chinese_char [c]) t = false.

(** [word_runs isalnum text runs]: [runs] are the maximal runs of letters
    and digits of [text], from left to right. The text is a stretch of other
    characters, then the first run, which is not empty and which the end of
    the text or a character of another kind follows, then the rest, with the
    runs of the rest. *)
Inductive word_runs (isalnum : Z -> bool) : pystr -> list pystr -> Prop :=
| word_runs_none gap :
    Forall (fun c => isalnum c = false) gap -> word_runs isalnum gap []
| word_runs_next gap run rest runs :
    Forall (fun c => isalnum c = false) gap ->
    run <> [] -> Forall (fun c => isalnum c = true) run ->
    (forall c, head rest = Some c -> isalnum c = false) ->
    word_runs isalnum rest runs ->
    word_runs isalnum (gap ++ run ++ rest) (run :: runs).

(** [1 <= m * 2 ^ e], for a mantissa and an exponent. *)
Definition at_least_one (m e : Z) : Prop :=
  0 < m /\ (0 <= e \/ 2 ^ (- e) <= m).

(** [2 ^ k <= m * 2 ^ e]. *)
Definition above_pow2 (k m e : Z) : Prop :=
  0 < m /\ (k <= e \/ 2 ^ (k - e) <= m).

(** [1 <= r] for a binary64 number, the infinity included. *)
Definition ge_one (r : spec_float) : Prop :=
  match r with
  | S754_finite false m e => at_least_one (Zpos m) e
  | S754_infinity false => True
  | _ => False
  end.

(** [2 ^ -53 <= r] for a finite binary64 number. *)
Definition ge_ulp (r : spec_float) : Prop :=
  match r with
  | S754_finite false m e => above_pow2 (-53) (Zpos m) e
  | _ => False
  end.

(** The real number [m * 2 ^ e]. *)
Definition F2R (m e : Z) : R := (IZR m * powerRZ 2 e)%R.

(** [near v r]: each of the two positive numbers is at most the other
    enlarged by the factor 1 + 2 ^ -52, as a value and a binary64 number
    next to it are. *)
Definition near (v r : R) : Prop :=
  (v * 4503599627370496 <= r * 4503599627370497)%R /\
  (r * 4503599627370496 <= v * 4503599627370497)%R.

(** [1 - 2 ^ -50 <= x <= 1 + 2 ^ -50]. *)
Definition near_one (x : float) : Prop :=
  PrimFloat.leb 0x1.ffffffffffff8p-1%float x = true /\
  PrimFloat.leb x 0x1.0000000000004p+0%float = true.

(** Services for the examples: [str.isalnum] and [str.lower] on the ASCII
    letters and digits and on the Chinese characters, and a segmenter that
    cuts after every character. *)
Definition sample_isalnum (c : Z) : bool :=
  ((48 <=? c) && (c <=? 57)) || ((65 <=? c) && (c <=? 90))
  || ((97 <=? c) && (c <=? 122)) || is_chinese_char [c].

Definition sample_lower (c : Z) : pystr :=
  [if (65 <=? c) && (c <=? 90) then c + 32 else c].

Definition sample_cut (s : pystr) : list pystr := map (fun c => [c]) s.

(** The texts of the examples: "Hi, you", "Hi," followed by two Chinese
    characters, and two Chinese words with a full-width comma between. *)
Definition hi_you : pystr := [72; 105; 44; 32; 121; 111; 117].
Definition hi_nihao : pystr := [72; 105; 44; 0x4f60; 0x597d].
Definition nihao_comma_shijie : pystr :=
  [0x4f60; 0x597d; 0xff0c; 0x4e16; 0x754c].


(** * Properties *)

(** ** The frequency scorer against the multiset reading *)

Lemma dd_get_fst d k : fst (dd_get d k) = default 0 (d !! k).
Proof. unfold dd_get. by destruct (d !! k). Qed.

Lemma dd_get_snd d k w :
  default 0 (snd (dd_get d k) !! w) = default 0 (d !! w).
Proof.
  unfold dd_get. destruct (d !! k) eqn:E; simpl; [done|].
  destruct (decide (k = w)) as [->|Hne].
  - by rewrite lookup_insert_eq, E.
  - by rewrite lookup_insert_ne.
Qed.

Lemma dd_add_lookup d k n w :
  default 0 (dd_add d k n !! w)
  = if decide (w = k) then default 0 (d !! k) + n else default 0 (d !! w).
Proof.
  unfold dd_add.
  pose proof (dd_get_fst d k) as Hf. pose proof (dd_get_snd d k w) as Hs.
  destruct (dd_get d k) as [v d']. simpl in *. subst v.
  destruct (decide (w = k)) as [->|Hne].
  - by rewrite lookup_insert_eq.
  - rewrite lookup_insert_ne by done. exact Hs.
Qed.

Lemma represents_empty : represents ∅ ∅.
Proof. intros w. by rewrite lookup_empty, multiplicity_empty. Qed.

Lemma represents_incr d R w :
  represents d R -> represents (dd_add d w 1) ({[+ w +]} ⊎ R).
Proof.
  intros H u. rewrite dd_add_lookup, multiplicity_disj_union.
  destruct (decide (u = w)) as [->|Hne].
  - rewrite multiplicity_singleton_eq, H. lia.
  - rewrite multiplicity_singleton_ne, H by done. lia.
Qed.

Lemma represents_dd_get d R w :
  represents d R -> represents (snd (dd_get d w)) R.
Proof. intros H u. rewrite dd_get_snd. apply H. Qed.

Lemma represents_decr d R w :
  (0 < multiplicity w R)%nat ->
  represents d R -> represents (dd_add d w (-1)) (R ∖ {[+ w +]}).
Proof.
  intros Hpos H u. rewrite dd_add_lookup, multiplicity_difference.
  destruct (decide (u = w)) as [->|Hne].
  - rewrite multiplicity_singleton_eq, H. lia.
  - rewrite multiplicity_singleton_ne, H by done. lia.
Qed.

Lemma count_loop_represents original : forall d R,
  represents d R ->
  represents (foldl (fun d word => dd_add d word 1) d original)
             (list_to_set_disj original ⊎ R).
Proof.
  induction original as [|w o IH]; intros d R H; simpl.
  - intros u. rewrite H. f_equal. f_equal. multiset_solver.
  - intros u. rewrite (IH _ _ (represents_incr _ _ w H) u).
    f_equal. f_equal. multiset_solver.
Qed.

Lemma count_words_represents original :
  represents (count_words original) (list_to_set_disj original).
Proof.
  intros u. unfold count_words.
  rewrite (count_loop_represents original ∅ ∅ represents_empty u).
  f_equal. f_equal. multiset_solver.
Qed.

Lemma match_loop_spec plagiarized : forall d R m,
  represents d R ->
  snd (foldl match_step (d, m) plagiarized) = m + greedy_match R plagiarized.
Proof.
  induction plagiarized as [|w p IH]; intros d R m H; simpl.
  - lia.
  - pose proof (dd_get_fst d w) as Hf.
    pose proof (represents_dd_get d R w H) as Hs.
    destruct (dd_get d w) as [v d1]. simpl in Hf, Hs.
    rewrite H in Hf. subst v.
    destruct (decide (0 < multiplicity w R)%nat) as [Hpos|Hz].
    + replace (0 <? Z.of_nat (multiplicity w R)) with true
        by (symmetry; apply Z.ltb_lt; lia).
      rewrite (IH _ (R ∖ {[+ w +]}) _ (represents_decr _ _ _ Hpos Hs)). lia.
    + replace (0 <? Z.of_nat (multiplicity w R)) with false
        by (symmetry; apply Z.ltb_ge; lia).
      by rewrite (IH _ R _ Hs).
Qed.

Lemma matched_count_greedy original plagiarized :
  matched_count original plagiarized
  = greedy_match (list_to_set_disj original) plagiarized.
Proof.
  unfold matched_count.
  rewrite (match_loop_spec _ _ _ 0 (count_words_represents original)). lia.
Qed.

Lemma greedy_match_bounds candidate : forall R,
  0 <= greedy_match R candidate <= Z.of_nat (length candidate).
Proof.
  induction candidate as [|w c IH]; intros R; simpl; [lia|].
  destruct (decide _); [specialize (IH (R ∖ {[+ w +]}))|specialize (IH R)]; lia.
Qed.

Lemma greedy_match_all candidate : forall R,
  list_to_set_disj candidate ⊆ R ->
  greedy_match R candidate = Z.of_nat (length candidate).
Proof.
  induction candidate as [|w c IH]; intros R Hsub; simpl; [done|].
  simpl in Hsub.
  destruct (decide (0 < multiplicity w R)%nat) as [Hpos|Hz].
  - rewrite IH; [lia|]. multiset_solver.
  - exfalso. apply Hz.
    pose proof (Hsub w) as Hm.
    rewrite multiplicity_disj_union, multiplicity_singleton_eq in Hm. lia.
Qed.

Lemma matched_count_bounds original plagiarized :
  0 <= matched_count original plagiarized <= Z.of_nat (length plagiarized).
Proof. rewrite matched_count_greedy. apply greedy_match_bounds. Qed.

Lemma matched_count_self tokens :
  matched_count tokens tokens = Z.of_nat (length tokens).
Proof. rewrite matched_count_greedy. by apply greedy_match_all. Qed.

(** ** The recurrence [lev] and the least number of edits *)

Lemma lev_nil_l b : lev [] b = Z.of_nat (length b).
Proof. reflexivity. Qed.

Lemma lev_nil_r a : lev a [] = Z.of_nat (length a).
Proof. by destruct a. Qed.

Lemma lev_cons_cons x y a b :
  lev (x :: a) (y :: b)
  = if x =? y then lev a b
    else 1 + Z.min (Z.min (lev a (y :: b)) (lev (x :: a) b)) (lev a b).
Proof. reflexivity. Qed.

Lemma lev_cons_same x a b : lev (x :: a) (x :: b) = lev a b.
Proof. by rewrite lev_cons_cons, Z.eqb_refl. Qed.

Global Opaque lev.

(** Induction on the total length of the two strings. *)
Lemma pair_length_ind (P : pystr -> pystr -> Prop) :
  (forall a b,
     (forall a' b', (length a' + length b' < length a + length b)%nat -> P a' b') ->
     P a b) ->
  forall a b, P a b.
Proof.
  intros step a b.
  remember (length a + length b)%nat as k eqn:Hk.
  revert a b Hk. induction (lt_wf k) as [k _ IH]; intros a b ->.
  apply step. intros a' b' Hlt. by eapply IH.
Qed.

Lemma lev_nonneg a : forall b, 0 <= lev a b.
Proof.
  induction a as [|x a IHa]; intros b; [rewrite lev_nil_l; lia|].
  induction b as [|y b IHb]; [rewrite lev_nil_r; lia|].
  rewrite lev_cons_cons.
  pose proof (IHa b). pose proof (IHa (y :: b)).
  destruct (x =? y); lia.
Qed.

Lemma lev_upper a : forall b,
  lev a b <= Z.max (Z.of_nat (length a)) (Z.of_nat (length b)).
Proof.
  induction a as [|x a IHa]; intros b; [rewrite lev_nil_l; lia|].
  induction b as [|y b IHb]; [rewrite lev_nil_r; lia|].
  rewrite lev_cons_cons. pose proof (IHa b). simpl length.
  destruct (x =? y); lia.
Qed.

Lemma lev_self a : lev a a = 0.
Proof. induction a as [|x a IH]; [done|]. by rewrite lev_cons_same. Qed.

(** Adding or removing one character at the head of either string moves the
    value by at most one. *)
Lemma lev_step_bounds : forall a b, lev_steps_ok a b.
Proof.
  apply pair_length_ind. intros a b IH. repeat split.
  - intros x. destruct b as [|y b'].
    + rewrite !lev_nil_r. simpl length. lia.
    + rewrite lev_cons_cons. destruct (x =? y) eqn:E.
      * apply Z.eqb_eq in E. subst y.
        destruct (IH a b') as (_ & _ & _ & H); [simpl; lia|]. apply H.
      * lia.
  - intros y. destruct a as [|x a'].
    + rewrite !lev_nil_l. simpl length. lia.
    + rewrite lev_cons_cons. destruct (x =? y) eqn:E.
      * apply Z.eqb_eq in E. subst y.
        destruct (IH a' b) as (_ & _ & H & _); [simpl; lia|]. apply H.
      * lia.
  - intros x. destruct b as [|y b'].
    + rewrite !lev_nil_r. simpl length. lia.
    + rewrite (lev_cons_cons x y). destruct (x =? y) eqn:E.
      * apply Z.eqb_eq in E. subst y.
        destruct (IH a b') as (_ & H & _ & _); [simpl; lia|]. apply H.
      * destruct (IH a b') as (_ & H1 & H2 & _); [simpl; lia|].
        specialize (H1 y). specialize (H2 x). lia.
  - intros y. destruct a as [|x a'].
    + rewrite !lev_nil_l. simpl length. lia.
    + rewrite (lev_cons_cons x y). destruct (x =? y) eqn:E.
      * apply Z.eqb_eq in E. subst y.
        destruct (IH a' b) as (H & _ & _ & _); [simpl; lia|]. apply H.
      * destruct (IH a' b) as (H1 & _ & _ & H2); [simpl; lia|].
        specialize (H1 x). specialize (H2 y). lia.
Qed.

Lemma edits_delete_all a : edits a [] (Z.of_nat (length a)).
Proof.
  induction a as [|x a IH]; [constructor|].
  replace (Z.of_nat (length (x :: a))) with (Z.of_nat (length a) + 1)
    by (simpl length; lia).
  by constructor.
Qed.

Lemma edits_insert_all b : edits [] b (Z.of_nat (length b)).
Proof.
  induction b as [|y b IH]; [constructor|].
  replace (Z.of_nat (length (y :: b))) with (Z.of_nat (length b) + 1)
    by (simpl length; lia).
  by constructor.
Qed.

(** [lev a b] edits do turn [a] into [b] ... *)
Lemma lev_edits a : forall b, edits a b (lev a b).
Proof.
  induction a as [|x a IHa]; intros b.
  - rewrite lev_nil_l. apply edits_insert_all.
  - induction b as [|y b IHb].
    + rewrite lev_nil_r. apply edits_delete_all.
    + rewrite lev_cons_cons. destruct (x =? y) eqn:E.
      * apply Z.eqb_eq in E. subst y. constructor. apply IHa.
      * destruct (Z.min_spec (lev a (y :: b)) (lev (x :: a) b)) as [[_ ->]|[_ ->]];
          [destruct (Z.min_spec (lev a (y :: b)) (lev a b)) as [[_ ->]|[_ ->]]
          |destruct (Z.min_spec (lev (x :: a) b) (lev a b)) as [[_ ->]|[_ ->]]];
          rewrite Z.add_comm.
        -- apply edits_delete, IHa.
        -- apply edits_substitute, IHa.
        -- apply edits_insert, IHb.
        -- apply edits_substitute, IHa.
Qed.

(** ... and no fewer do. *)
Lemma lev_least a b n : edits a b n -> lev a b <= n.
Proof.
  induction 1 as [|x a b n _ IH|x y a b n _ IH|x a b n _ IH|y a b n _ IH].
  - by rewrite lev_nil_l.
  - by rewrite lev_cons_same.
  - rewrite lev_cons_cons. destruct (x =? y); lia.
  - destruct (lev_step_bounds a b) as (H & _). specialize (H x). lia.
  - destruct (lev_step_bounds a b) as (_ & H & _). specialize (H y). lia.
Qed.

Lemma lev_least_alignment a b : least_alignment a b (lev a b).
Proof. split; [apply lev_edits|apply lev_least]. Qed.

Lemma least_alignment_unique a b d d' :
  least_alignment a b d -> least_alignment a b d' -> d = d'.
Proof.
  intros [H1 L1] [H2 L2]. specialize (L1 _ H2). specialize (L2 _ H1). lia.
Qed.

(** Edit sequences can be read backwards and from the other string. *)
Lemma edits_sym a b n : edits a b n -> edits b a n.
Proof. induction 1; by constructor. Qed.

Lemma edits_snoc_keep a b n x :
  edits a b n -> edits (a ++ [x]) (b ++ [x]) n.
Proof. induction 1; simpl; repeat constructor; done. Qed.

Lemma edits_snoc_substitute a b n x y :
  edits a b n -> edits (a ++ [x]) (b ++ [y]) (n + 1).
Proof.
  induction 1; simpl; try (by constructor).
  apply (edits_substitute x y [] [] 0). constructor.
Qed.

Lemma edits_snoc_delete a b n x :
  edits a b n -> edits (a ++ [x]) b (n + 1).
Proof.
  induction 1; simpl; try (by constructor).
  apply (edits_delete x [] [] 0). constructor.
Qed.

Lemma edits_snoc_insert a b n y :
  edits a b n -> edits a (b ++ [y]) (n + 1).
Proof.
  induction 1; simpl; try (by constructor).
  apply (edits_insert y [] [] 0). constructor.
Qed.

Lemma edits_reverse a b n : edits a b n -> edits (reverse a) (reverse b) n.
Proof.
  induction 1; rewrite ?reverse_cons.
  - constructor.
  - by apply edits_snoc_keep.
  - by apply edits_snoc_substitute.
  - by apply edits_snoc_delete.
  - by apply edits_snoc_insert.
Qed.

Lemma least_alignment_reverse a b d :
  least_alignment (reverse a) (reverse b) d -> least_alignment a b d.
Proof.
  intros [H L]. split.
  - apply edits_reverse in H. by rewrite !reverse_involutive in H.
  - intros n Hn. apply L. by apply edits_reverse.
Qed.

Lemma least_alignment_sym a b d : least_alignment a b d -> least_alignment b a d.
Proof.
  intros [H L]. split; [by apply edits_sym|].
  intros n Hn. apply L. by apply edits_sym.
Qed.

Lemma lev_reverse a b : lev (reverse a) (reverse b) = lev a b.
Proof.
  apply (least_alignment_unique a b); [|apply lev_least_alignment].
  apply least_alignment_reverse, lev_least_alignment.
Qed.

Lemma lev_sym a b : lev a b = lev b a.
Proof.
  apply (least_alignment_unique a b); [apply lev_least_alignment|].
  apply least_alignment_sym, lev_least_alignment.
Qed.

(** ** Single edits at any position *)

Lemma edit_step_cons x a b : edit_step a b -> edit_step (x :: a) (x :: b).
Proof.
  intros [pre c post|pre c post|pre c c' post].
  - apply (step_insert (x :: pre)).
  - apply (step_delete (x :: pre)).
  - apply (step_substitute (x :: pre)).
Qed.

Lemma edit_steps_cons x a b n :
  edit_steps a b n -> edit_steps (x :: a) (x :: b) n.
Proof.
  induction 1 as [a|a b c n Hstep _ IH]; [constructor|].
  eapply steps_next; [by apply edit_step_cons|done].
Qed.

(** An alignment is carried out by as many single edits. *)
Lemma edits_edit_steps a b n : edits a b n -> edit_steps a b n.
Proof.
  induction 1 as [|x a b n _ IH|x y a b n _ IH|x a b n _ IH|y a b n _ IH].
  - constructor.
  - by apply edit_steps_cons.
  - apply (steps_next _ (y :: a)); [apply (step_substitute [])|].
    by apply edit_steps_cons.
  - apply (steps_next _ a); [apply (step_delete [])|done].
  - apply (steps_next _ (y :: a)); [apply (step_insert [])|].
    by apply edit_steps_cons.
Qed.

Lemma lev_close_cons x u u' : lev_close u u' -> lev_close (x :: u) (x :: u').
Proof.
  intros H b. induction b as [|y b IH].
  - rewrite !lev_nil_r. specialize (H []). rewrite !lev_nil_r in H.
    simpl length. lia.
  - rewrite !lev_cons_cons.
    pose proof (H b). pose proof (H (y :: b)).
    destruct (x =? y); lia.
Qed.

Lemma lev_close_substitute c c' post : lev_close (c :: post) (c' :: post).
Proof.
  intros b. induction b as [|y b IH].
  - rewrite !lev_nil_r. simpl length. lia.
  - rewrite !lev_cons_cons.
    destruct (lev_step_bounds post b) as (_ & _ & H3 & H4).
    specialize (H3 c'). specialize (H4 y).
    destruct (c =? y), (c' =? y); lia.
Qed.

Lemma lev_close_insert c post : lev_close post (c :: post).
Proof. intros b. by destruct (lev_step_bounds post b) as (_ & _ & H & _). Qed.

Lemma lev_close_delete c post : lev_close (c :: post) post.
Proof. intros b. by destruct (lev_step_bounds post b) as (H & _). Qed.

Lemma lev_close_prefix pre u u' :
  lev_close u u' -> lev_close (pre ++ u) (pre ++ u').
Proof.
  intros H. induction pre as [|x pre IH]; [done|]. by apply lev_close_cons.
Qed.

(** One edit, wherever it is made, moves the value by at most one. *)
Lemma edit_step_lev_close a a' : edit_step a a' -> lev_close a a'.
Proof.
  intros [pre c post|pre c post|pre c c' post]; apply lev_close_prefix.
  - apply lev_close_insert.
  - apply lev_close_delete.
  - apply lev_close_substitute.
Qed.

Lemma edit_steps_lev a b n : edit_steps a b n -> lev a b <= n.
Proof.
  induction 1 as [a|a b c n Hstep _ IH]; [by rewrite lev_self|].
  pose proof (edit_step_lev_close a b Hstep c). lia.
Qed.

(** The recurrence computes the Levenshtein distance. *)
Lemma lev_is_levenshtein a b : is_levenshtein a b (lev a b).
Proof.
  split; [apply edits_edit_steps, lev_edits|apply edit_steps_lev].
Qed.

(** ** The table of [edit_distance_table] *)

Lemma dp_get_cell dp i j v : cell dp i j = Some v -> dp_get dp i j = Ret v.
Proof.
  unfold cell, dp_get. destruct (dp !! i) as [row|]; [|done].
  by intros ->.
Qed.

Lemma dp_set_spec n m dp i j v :
  shaped n m dp -> (i <= n)%nat -> (j <= m)%nat ->
  exists dp',
    dp_set dp i j v = Ret dp' /\ shaped n m dp' /\
    cell dp' i j = Some v /\
    forall i' j', (i', j') <> (i, j) -> cell dp' i' j' = cell dp i' j'.
Proof.
  intros [Hlen Hrows] Hi Hj. unfold dp_set.
  destruct (dp !! i) as [row|] eqn:Erow;
    [|apply lookup_ge_None in Erow; lia].
  pose proof (Hrows _ _ Erow) as Hrow.
  destruct (decide (j < length row)%nat) as [_|Hge]; [|lia].
  eexists. split; [reflexivity|]. split; [|split].
  - split; [by rewrite length_insert|].
    intros i' row' H'. destruct (decide (i' = i)) as [->|Hne].
    + rewrite list_lookup_insert_eq in H' by lia.
      injection H' as <-. by rewrite length_insert.
    + rewrite list_lookup_insert_ne in H' by done. by eapply Hrows.
  - unfold cell. rewrite list_lookup_insert_eq by lia.
    apply list_lookup_insert_eq. lia.
  - intros i' j' Hne. unfold cell.
    destruct (decide (i' = i)) as [->|Hi'].
    + rewrite list_lookup_insert_eq, Erow by lia.
      apply list_lookup_insert_ne. congruence.
    + by rewrite list_lookup_insert_ne.
Qed.

(** A loop that keeps an invariant runs to its end. *)
Lemma for_each_seq {S : Type} (P : nat -> S -> Prop)
    (body : nat -> S -> pyres S) (len : nat) : forall (a : nat) (s : S),
  P a s ->
  (forall k s, (a <= k < a + len)%nat -> P k s ->
     exists s', body k s = Ret s' /\ P (Datatypes.S k) s') ->
  exists s', for_each (seq a len) body s = Ret s' /\ P (a + len)%nat s'.
Proof.
  induction len as [|len IH]; intros a s H0 Hstep; simpl.
  - exists s. split; [done|]. by replace (a + 0)%nat with a by lia.
  - destruct (Hstep a s) as (s1 & -> & H1); [lia|done|]. simpl.
    destruct (IH (Datatypes.S a) s1 H1) as (s' & Hrun & Hs').
    + intros k s2 Hk. apply Hstep. lia.
    + exists s'. split; [done|].
      by replace (a + Datatypes.S len)%nat with (Datatypes.S a + len)%nat by lia.
Qed.

Lemma for_each_range {S : Type} (P : nat -> S -> Prop)
    (body : nat -> S -> pyres S) (a b : nat) (s : S) :
  (a <= b)%nat -> P a s ->
  (forall k s, (a <= k < b)%nat -> P k s ->
     exists s', body k s = Ret s' /\ P (Datatypes.S k) s') ->
  exists s', for_each (range a b) body s = Ret s' /\ P b s'.
Proof.
  intros Hab H0 Hstep. unfold range.
  destruct (for_each_seq P body (b - a) a s H0) as (s' & Hrun & Hs').
  - intros k s1 Hk. apply Hstep. lia.
  - exists s'. split; [done|]. by replace b with (a + (b - a))%nat by lia.
Qed.

Lemma shaped_replicate n m :
  shaped n m (replicate (n + 1) (replicate (m + 1) 0)).
Proof.
  split; [rewrite length_replicate; lia|].
  intros i row H. apply lookup_replicate in H as [-> _].
  rewrite length_replicate. lia.
Qed.

Section Table.

Variables original plagiarized : pystr.

Local Abbreviation n := (length original).
Local Abbreviation m := (length plagiarized).
Local Abbreviation goal := (target original plagiarized).
Local Abbreviation filled_at := (filled original plagiarized).

Lemma target_0_r i : (i <= n)%nat -> goal i 0 = Z.of_nat i.
Proof.
  intros Hi. unfold target. rewrite take_0, lev_nil_r.
  rewrite length_reverse, length_take. lia.
Qed.

Lemma target_0_l j : (j <= m)%nat -> goal 0 j = Z.of_nat j.
Proof.
  intros Hj. unfold target. rewrite take_0, lev_nil_l.
  rewrite length_reverse, length_take. lia.
Qed.

Lemma target_S_S i j a b :
  original !! i = Some a -> plagiarized !! j = Some b ->
  goal (S i) (S j)
  = if a =? b then goal i j
    else 1 + Z.min (Z.min (goal i (S j)) (goal (S i) j)) (goal i j).
Proof.
  intros Ha Hb. unfold target.
  rewrite (take_S_r _ _ _ Ha), (take_S_r _ _ _ Hb), !reverse_snoc.
  apply lev_cons_cons.
Qed.

Lemma target_full : goal n m = lev original plagiarized.
Proof.
  unfold target. rewrite !firstn_all. apply lev_reverse.
Qed.

Lemma init_column :
  exists dp,
    for_each (range 0 (n + 1)) (fun i dp => dp_set dp i 0 (Z.of_nat i))
             (replicate (n + 1) (replicate (m + 1) 0)) = Ret dp /\
    shaped n m dp /\
    forall i, (i <= n)%nat -> cell dp i 0 = Some (Z.of_nat i).
Proof.
  destruct (for_each_range
              (fun k dp => shaped n m dp /\
                 forall i, (i < k)%nat -> cell dp i 0 = Some (Z.of_nat i))
              (fun i dp => dp_set dp i 0 (Z.of_nat i)) 0 (n + 1)
              (replicate (n + 1) (replicate (m + 1) 0)))
    as (dp & Hrun & Hshape & Hcells).
  - lia.
  - split; [apply shaped_replicate|]. intros i Hi. lia.
  - intros k dp Hk [Hshape Hcells].
    destruct (dp_set_spec n m dp k 0 (Z.of_nat k) Hshape)
      as (dp' & -> & Hs' & Hk' & Hother);
      [lia|lia|].
    exists dp'. split; [done|]. split; [done|].
    intros i Hi. destruct (decide (i = k)) as [->|Hne]; [done|].
    rewrite Hother by congruence. apply Hcells. lia.
  - exists dp. split; [done|]. split; [done|].
    intros i Hi. apply Hcells. lia.
Qed.

Lemma init_row dp1 :
  shaped n m dp1 ->
  (forall i, (i <= n)%nat -> cell dp1 i 0 = Some (Z.of_nat i)) ->
  exists dp,
    for_each (range 0 (m + 1)) (fun j dp => dp_set dp 0 j (Z.of_nat j)) dp1
      = Ret dp /\
    filled_at 1 1 dp.
Proof.
  intros Hshape1 Hcol.
  destruct (for_each_range
              (fun k dp => shaped n m dp /\
                 (forall i, (i <= n)%nat -> cell dp i 0 = Some (Z.of_nat i)) /\
                 forall j, (j < k)%nat -> cell dp 0 j = Some (Z.of_nat j))
              (fun j dp => dp_set dp 0 j (Z.of_nat j)) 0 (m + 1) dp1)
    as (dp & Hrun & Hshape & Hc & Hr).
  - lia.
  - split; [done|]. split; [done|]. intros j Hj. lia.
  - intros k dp [_ Hk] (Hshape & Hc & Hr).
    destruct (dp_set_spec n m dp 0 k (Z.of_nat k) Hshape)
      as (dp' & -> & Hs' & Hk' & Hother);
      [lia|lia|].
    exists dp'. split; [done|]. split; [done|]. split.
    + intros i Hi. destruct (decide ((i, 0%nat) = (0%nat, k))) as [E|Hne].
      * injection E as -> <-. done.
      * rewrite Hother by done. by apply Hc.
    + intros j Hj. destruct (decide (j = k)) as [->|Hne]; [done|].
      rewrite Hother by congruence. apply Hr. lia.
  - exists dp. split; [done|]. split; [done|].
    intros i' j' Hi' Hj' Hcase.
    destruct (decide (j' = 0%nat)) as [->|Hj0].
    + rewrite target_0_r by done. by apply Hc.
    + assert (i' = 0%nat) as -> by lia.
      rewrite target_0_l by done. apply Hr. lia.
Qed.

Lemma fill_cell_spec i j dp :
  (1 <= i <= n)%nat -> (1 <= j <= m)%nat ->
  filled_at i j dp ->
  exists dp',
    fill_cell original plagiarized i j dp = Ret dp' /\ filled_at i (S j) dp'.
Proof.
  intros Hi Hj [Hshape Hcells].
  destruct i as [|i]; [lia|]. destruct j as [|j]; [lia|].
  destruct (original !! i) as [a|] eqn:Ea;
    [|apply lookup_ge_None in Ea; lia].
  destruct (plagiarized !! j) as [b|] eqn:Eb;
    [|apply lookup_ge_None in Eb; lia].
  assert (Hdiag : cell dp i j = Some (goal i j)) by (apply Hcells; lia).
  assert (Hup : cell dp i (S j) = Some (goal i (S j))) by (apply Hcells; lia).
  assert (Hleft : cell dp (S i) j = Some (goal (S i) j)) by (apply Hcells; lia).
  pose proof (target_S_S i j a b Ea Eb) as Hrec.
  unfold fill_cell, str_get.
  replace (S i - 1)%nat with i by lia. replace (S j - 1)%nat with j by lia.
  rewrite Ea, Eb. simpl.
  destruct (dp_set_spec n m dp (S i) (S j) (goal (S i) (S j)) Hshape)
    as (dp' & Hset & Hs' & Hnew & Hother); [lia|lia|].
  exists dp'. split.
  - rewrite Hrec in Hset. destruct (a =? b).
    + rewrite (dp_get_cell _ _ _ _ Hdiag). simpl. exact Hset.
    + rewrite (dp_get_cell _ _ _ _ Hup). simpl.
      rewrite (dp_get_cell _ _ _ _ Hleft). simpl.
      rewrite (dp_get_cell _ _ _ _ Hdiag). simpl. exact Hset.
  - split; [done|]. intros i' j' Hi' Hj' Hcase.
    destruct (decide ((i', j') = (S i, S j))) as [E|Hne].
    + injection E as -> ->. done.
    + rewrite Hother by done. apply Hcells; [done|done|].
      assert (~ (i' = S i /\ j' = S j)) by (intros [-> ->]; done). lia.
Qed.

Lemma fill_row_spec i dp :
  (1 <= i <= n)%nat -> filled_at i 1 dp ->
  exists dp',
    for_each (range 1 (m + 1))
             (fun j dp => fill_cell original plagiarized i j dp) dp = Ret dp' /\
    filled_at (S i) 1 dp'.
Proof.
  intros Hi H0.
  destruct (for_each_range (fun j dp => filled_at i j dp)
              (fun j dp => fill_cell original plagiarized i j dp)
              1 (m + 1) dp) as (dp' & Hrun & Hshape & Hcells).
  - lia.
  - done.
  - intros k s Hk Hs. apply fill_cell_spec; [done|lia|done].
  - exists dp'. split; [done|]. split; [done|].
    intros i' j' Hi' Hj' Hcase. apply Hcells; [done|done|lia].
Qed.

Lemma edit_distance_table_spec :
  exists dp,
    edit_distance_table original plagiarized = Ret dp /\
    shaped n m dp /\
    forall i j, (i <= n)%nat -> (j <= m)%nat -> cell dp i j = Some (goal i j).
Proof.
  unfold edit_distance_table.
  destruct init_column as (dp1 & -> & Hshape1 & Hcol). simpl.
  destruct (init_row dp1 Hshape1 Hcol) as (dp2 & -> & Hfilled2). simpl.
  destruct (for_each_range (fun i dp => filled_at i 1 dp)
              (fun i dp =>
                 for_each (range 1 (m + 1))
                   (fun j dp => fill_cell original plagiarized i j dp) dp)
              1 (n + 1) dp2) as (dp & Hrun & Hshape & Hcells).
  - lia.
  - done.
  - intros k s Hk Hs. apply fill_row_spec; [lia|done].
  - exists dp. split; [done|]. split; [done|].
    intros i j Hi Hj. apply Hcells; [done|done|lia].
Qed.

End Table.

(** The table's last cell is the value of the recurrence on the two
    strings: the function returns, and returns that. *)
Lemma edit_distance_lev original plagiarized :
  edit_distance original plagiarized = Ret (lev original plagiarized).
Proof.
  unfold edit_distance.
  destruct (edit_distance_table_spec original plagiarized)
    as (dp & -> & _ & Hcells). simpl.
  rewrite <- target_full. apply dp_get_cell, Hcells; lia.
Qed.

Example lev_abcde : edit_distance abcde abcxe = Ret 1.
Proof. vm_compute. reflexivity. Qed.

(** ** Integer sums *)

Lemma Zsum_foldl_acc l : forall acc, foldl Z.add acc l = acc + Zsum l.
Proof.
  unfold Zsum. induction l as [|x l IH]; intros acc; simpl; [lia|].
  rewrite (IH (acc + x)), (IH (0 + x)). lia.
Qed.

Lemma Zsum_nil : Zsum [] = 0.
Proof. reflexivity. Qed.

Lemma Zsum_cons x l : Zsum (x :: l) = x + Zsum l.
Proof. unfold Zsum at 1. simpl. apply Zsum_foldl_acc. Qed.

Lemma Zsum_permutation l1 l2 : l1 ≡ₚ l2 -> Zsum l1 = Zsum l2.
Proof.
  induction 1 as [|x l1 l2 _ IH|x y l|l1 l2 l3 _ IH1 _ IH2];
    rewrite ?Zsum_cons; lia.
Qed.

Lemma square_lt_mono x y : 0 <= x -> x < y -> x * x < y * y.
Proof. intros. nia. Qed.

(** One term more on both sides of the Cauchy-Schwarz inequality. *)
Lemma cauchy_schwarz_step a b D A B :
  0 <= A -> 0 <= B -> D * D <= A * B ->
  (a * b + D) * (a * b + D) <= (a * a + A) * (b * b + B).
Proof.
  intros HA HB HD.
  assert (H : 2 * (a * b * D) <= a * a * B + b * b * A).
  { destruct (Z_le_gt_dec (2 * (a * b * D)) (a * a * B + b * b * A))
      as [|Hgt]; [assumption|].
    exfalso.
    assert (H0 : 0 <= a * a * B + b * b * A) by nia.
    pose proof (square_lt_mono (a * a * B + b * b * A) (2 * (a * b * D))
                  H0 ltac:(lia)) as Hsq.
    pose proof (Z.square_nonneg (a * a * B - b * b * A)) as H1.
    pose proof (Z.square_nonneg (a * b)) as H2.
    pose proof (Z.mul_le_mono_nonneg_l _ _ _ H2 HD) as H3.
    lia. }
  lia.
Qed.

Section VectorSums.

Context {A : Type} (f g : A -> Z).

Lemma dot_product_map l :
  dot_product (map f l) (map g l) = Zsum (map (fun w => f w * g w) l).
Proof.
  unfold dot_product. f_equal.
  induction l as [|w l IH]; simpl; [done|]. by rewrite IH.
Qed.

Lemma sum_squares_map l :
  sum_squares (map f l) = Zsum (map (fun w => f w * f w) l).
Proof.
  unfold sum_squares. f_equal. rewrite map_map.
  apply map_ext. intros w. apply Z.pow_2_r.
Qed.

Lemma sum_squares_nonneg l : 0 <= Zsum (map (fun w => f w * f w) l).
Proof.
  induction l as [|w l IH]; simpl; [by rewrite Zsum_nil|].
  rewrite Zsum_cons. pose proof (Z.square_nonneg (f w)). lia.
Qed.

Lemma dot_nonneg l :
  (forall w, 0 <= f w) -> (forall w, 0 <= g w) ->
  0 <= Zsum (map (fun w => f w * g w) l).
Proof.
  intros Hf Hg. induction l as [|w l IH]; simpl; [by rewrite Zsum_nil|].
  rewrite Zsum_cons. pose proof (Hf w). pose proof (Hg w). nia.
Qed.

End VectorSums.

Lemma cauchy_schwarz {A : Type} (f g : A -> Z) l :
  let d := Zsum (map (fun w => f w * g w) l) in
  d * d <= Zsum (map (fun w => f w * f w) l) * Zsum (map (fun w => g w * g w) l).
Proof.
  induction l as [|w l IH]; simpl; [by rewrite !Zsum_nil|].
  rewrite !Zsum_cons. simpl in IH.
  rewrite (Z.add_comm (f w * g w)).
  pose proof (cauchy_schwarz_step (f w) (g w) _ _ _
                (sum_squares_nonneg f l) (sum_squares_nonneg g l) IH).
  lia.
Qed.

(** ** The vocabulary and the count vectors *)

Section CosineFacts.

Variable get_synonyms : pystr -> list pystr.

Local Abbreviation occ := (synonym_occurrences get_synonyms).

Lemma synonym_occurrences_nonneg tokens w : 0 <= occ tokens w.
Proof. induction tokens as [|t ts IH]; simpl; lia. Qed.

Lemma synonym_occurrences_pos tokens t w :
  t ∈ tokens -> w ∈ get_synonyms t -> 1 <= occ tokens w.
Proof.
  intros Ht Hw. induction Ht as [t ts|t t' ts _ IH]; simpl.
  - pose proof (synonym_occurrences_nonneg ts w).
    assert (w ∈ filter (fun s => s = w) (get_synonyms t)) as Hin
      by (by apply list_elem_of_filter).
    destruct (filter (fun s => s = w) (get_synonyms t));
      [by apply not_elem_of_nil in Hin|simpl length; lia].
  - specialize (IH Hw). lia.
Qed.

Lemma count_synonyms_lookup syns : forall wc w,
  default 0 (foldl (fun wc synonym => dd_add wc synonym 1) wc syns !! w)
  = default 0 (wc !! w) + Z.of_nat (length (filter (fun s => s = w) syns)).
Proof.
  induction syns as [|s syns IH]; intros wc w; simpl; [lia|].
  rewrite IH, dd_add_lookup, filter_cons.
  destruct (decide (w = s)) as [->|Hne].
  - rewrite decide_True by done. simpl length. lia.
  - rewrite decide_False by done. lia.
Qed.

Lemma synonym_counts_loop tokens : forall wc w,
  default 0
    (foldl (fun word_counts token =>
              foldl (fun wc synonym => dd_add wc synonym 1)
                    word_counts (get_synonyms token)) wc tokens !! w)
  = default 0 (wc !! w) + occ tokens w.
Proof.
  induction tokens as [|t ts IH]; intros wc w; simpl; [lia|].
  rewrite IH, count_synonyms_lookup. lia.
Qed.

Lemma synonym_counts_lookup tokens w :
  default 0 (synonym_counts get_synonyms tokens !! w)
  = occ tokens w.
Proof.
  unfold synonym_counts. rewrite synonym_counts_loop, lookup_empty. simpl. lia.
Qed.

Lemma get_vector_map vocab tokens :
  get_vector get_synonyms vocab tokens
  = map (occ tokens) vocab.
Proof.
  unfold get_vector. apply map_ext. intros w. apply synonym_counts_lookup.
Qed.

Lemma build_vocab_loop tokens : forall (vs : gset pystr) w,
  w ∈ foldl (fun vocab_set outer_token =>
               vocab_set ∪ list_to_set (get_synonyms outer_token)) vs tokens
  <-> w ∈ vs \/ exists t, t ∈ tokens /\ w ∈ get_synonyms t.
Proof.
  induction tokens as [|t ts IH]; intros vs w; simpl.
  - split; [by left|]. intros [H|(t & Ht & _)]; [done|].
    by apply not_elem_of_nil in Ht.
  - rewrite IH, elem_of_union, elem_of_list_to_set. split.
    + intros [[H|H]|(t' & Ht' & Hw)].
      * by left.
      * right. exists t. split; [left|done].
      * right. exists t'. split; [by right|done].
    + intros [H|(t' & Ht' & Hw)]; [by left; left|].
      apply elem_of_cons in Ht' as [->|Ht']; [by left; right|].
      right. by exists t'.
Qed.

Lemma elem_of_build_vocab tokens w :
  w ∈ build_vocab get_synonyms tokens
  <-> exists t, t ∈ tokens /\ w ∈ get_synonyms t.
Proof.
  unfold build_vocab. rewrite build_vocab_loop. split.
  - intros [H|H]; [|done]. by apply not_elem_of_empty in H.
  - by right.
Qed.

Lemma build_vocab_app_comm o p :
  build_vocab get_synonyms (o ++ p) = build_vocab get_synonyms (p ++ o).
Proof.
  apply set_eq. intros w. rewrite !elem_of_build_vocab.
  split; intros (t & Ht & Hw); exists t; (split; [|done]);
    apply elem_of_app in Ht; apply elem_of_app; tauto.
Qed.

(** The three integers written as sums over the vocabulary. *)
Lemma cosine_parts_on_sums vocab o p :
  cosine_parts_on get_synonyms vocab o p
  = (Zsum (map (fun w => occ o w * occ p w) vocab),
     Zsum (map (fun w => occ o w * occ o w) vocab),
     Zsum (map (fun w => occ p w * occ p w) vocab)).
Proof.
  unfold cosine_parts_on. rewrite !get_vector_map.
  by rewrite dot_product_map, !sum_squares_map.
Qed.

(** The order in which the vocabulary set is listed does not matter. *)
Lemma cosine_parts_on_permutation vocab vocab' o p :
  vocab ≡ₚ vocab' ->
  cosine_parts_on get_synonyms vocab o p
  = cosine_parts_on get_synonyms vocab' o p.
Proof.
  intros Hperm. rewrite !cosine_parts_on_sums.
  f_equal; [f_equal|]; apply Zsum_permutation; by apply fmap_Permutation.
Qed.

Lemma cosine_parts_swap o p :
  cosine_parts get_synonyms p o
  = (let '(dot, sq_o, sq_p) := cosine_parts get_synonyms o p in
     (dot, sq_p, sq_o)).
Proof.
  unfold cosine_parts. rewrite (build_vocab_app_comm p o).
  rewrite !cosine_parts_on_sums. f_equal. f_equal. f_equal.
  apply map_ext. intros w. lia.
Qed.

Lemma cosine_parts_bounds o p :
  let '(dot, sq_o, sq_p) := cosine_parts get_synonyms o p in
  0 <= dot /\ 0 <= sq_o /\ 0 <= sq_p /\ dot * dot <= sq_o * sq_p.
Proof.
  unfold cosine_parts. rewrite cosine_parts_on_sums.
  split; [|split; [|split]].
  - apply dot_nonneg; intros w; apply synonym_occurrences_nonneg.
  - apply sum_squares_nonneg.
  - apply sum_squares_nonneg.
  - apply (cauchy_schwarz (occ o) (occ p)).
Qed.

Lemma cosine_parts_self tokens :
  exists k, cosine_parts get_synonyms tokens tokens = (k, k, k) /\ 0 <= k /\
    ((exists t, t ∈ tokens /\ get_synonyms t <> []) -> 1 <= k).
Proof.
  unfold cosine_parts. rewrite cosine_parts_on_sums.
  eexists. split; [reflexivity|]. split; [apply sum_squares_nonneg|].
  intros (t & Ht & Hsyn).
  destruct (get_synonyms t) as [|w syns] eqn:E; [done|].
  assert (Hw : w ∈ get_synonyms t) by (rewrite E; left).
  assert (Hv : w ∈ elements (build_vocab get_synonyms (tokens ++ tokens))).
  { apply elem_of_elements, elem_of_build_vocab. exists t.
    split; [|done]. apply elem_of_app. by left. }
  pose proof (synonym_occurrences_pos tokens t w Ht Hw) as Hocc.
  revert Hv. generalize (elements (build_vocab get_synonyms (tokens ++ tokens))).
  intros l Hv. induction Hv as [w l|w w' l _ IH]; simpl; rewrite Zsum_cons.
  - pose proof (sum_squares_nonneg (occ tokens) l) as Hl.
    simpl in Hl.
    assert (1 * 1 <= occ tokens w * occ tokens w)
      by (apply Z.mul_le_mono_nonneg; lia).
    lia.
  - specialize (IH E Hsyn Hw Hocc).
    pose proof (Z.square_nonneg (occ tokens w')). lia.
Qed.

End CosineFacts.

(** ** Rounding to binary64

    What [binary_round_aux] of [SpecFloat] does to a mantissa, an exponent
    and a location, for the format of Python's [float]. *)

Module Binary64Facts.

Import Binary64.

(** *** Exponents and digits *)

Lemma fexp64_eq e : fexp64 e = Z.max (e - 53) (-1074).
Proof. reflexivity. Qed.

Lemma digits2_pos_bounds p :
  2 ^ (Zpos (digits2_pos p) - 1) <= Zpos p < 2 ^ Zpos (digits2_pos p).
Proof.
  induction p as [p IH|p IH|]; simpl digits2_pos;
    rewrite ?Pos2Z.inj_succ; [| |by compute];
    replace (Z.succ (Zpos (digits2_pos p)) - 1)
      with (Z.succ (Zpos (digits2_pos p) - 1)) by lia;
    rewrite !Z.pow_succ_r by lia; lia.
Qed.

Lemma Zdigits2_bounds m :
  0 < m -> 2 ^ (Zdigits2 m - 1) <= m < 2 ^ Zdigits2 m.
Proof. destruct m as [|p|p]; [lia| |lia]. intros _. apply digits2_pos_bounds. Qed.

Lemma Zdigits2_pos m : 0 < m -> 0 < Zdigits2 m.
Proof. destruct m; simpl; lia. Qed.

Lemma Zdigits2_unique m k :
  0 < m -> 2 ^ (k - 1) <= m < 2 ^ k -> Zdigits2 m = k.
Proof.
  intros Hm [Hlo Hhi]. pose proof (Zdigits2_bounds m Hm) as [Dlo Dhi].
  pose proof (Zdigits2_pos m Hm).
  assert (0 < k).
  { destruct (Z_lt_le_dec 0 k); [done|].
    assert (2 ^ k <= 2 ^ 0) by (apply Z.pow_le_mono_r; lia). simpl in *. lia. }
  destruct (Z_lt_le_dec (Zdigits2 m) k).
  - assert (2 ^ Zdigits2 m <= 2 ^ (k - 1)) by (apply Z.pow_le_mono_r; lia). lia.
  - destruct (Z_lt_le_dec k (Zdigits2 m)); [|lia].
    assert (2 ^ k <= 2 ^ (Zdigits2 m - 1)) by (apply Z.pow_le_mono_r; lia). lia.
Qed.

(** *** Shifting right, one bit at a time *)

Lemma shr_1_spec mrs :
  0 <= shr_m mrs ->
  shr_1 mrs = {| shr_m := shr_m mrs / 2;
                 shr_r := Z.odd (shr_m mrs);
                 shr_s := shr_r mrs || shr_s mrs |}.
Proof.
  destruct mrs as [m r s]. simpl. intros Hm.
  destruct m as [|[p|p|]|p]; try lia; simpl; try reflexivity.
  - f_equal. rewrite Pos2Z.inj_xI.
    replace (2 * Zpos p + 1) with (1 + Zpos p * 2) by lia.
    rewrite Z.div_add by lia. reflexivity.
  - f_equal. rewrite Pos2Z.inj_xO, Z.mul_comm, Z.div_mul by lia.
    reflexivity.
Qed.

Lemma Zdigits2_le m k : 0 < m -> m < 2 ^ k -> Zdigits2 m <= k.
Proof.
  intros Hm Hk. pose proof (Zdigits2_bounds m Hm) as [Dlo _].
  destruct (Z_lt_le_dec k (Zdigits2 m)); [|lia].
  assert (2 ^ k <= 2 ^ (Zdigits2 m - 1)).
  { destruct (Z_lt_le_dec k 0).
    - rewrite (Z.pow_neg_r 2 k) by lia. apply Z.pow_nonneg. lia.
    - apply Z.pow_le_mono_r; lia. }
  lia.
Qed.

Lemma Zdigits2_ge m k : 2 ^ (k - 1) <= m -> 0 < m -> k <= Zdigits2 m.
Proof.
  intros Hk Hm. pose proof (Zdigits2_bounds m Hm) as [_ Dhi].
  pose proof (Zdigits2_pos m Hm).
  destruct (Z_lt_le_dec (Zdigits2 m) k); [|lia].
  assert (2 ^ Zdigits2 m <= 2 ^ (k - 1)) by (apply Z.pow_le_mono_r; lia).
  lia.
Qed.

(** The record of a shift keeps the quotient, and says exactly when no digit
    was lost. *)
Lemma tracks_start M l : tracks M (inexact l) 0 (shr_record_of_loc M l).
Proof.
  split.
  - rewrite Z.pow_0_r, Z.div_1_r. by destruct l as [|[]].
  - by destruct l as [|[]].
Qed.

Lemma tracks_step M b k mrs :
  0 <= M -> 0 <= k -> tracks M b k mrs -> tracks M b (k + 1) (shr_1 mrs).
Proof.
  intros HM Hk [Hm Hrs].
  assert (0 < 2 ^ k) by (apply Z.pow_pos_nonneg; lia).
  assert (0 <= shr_m mrs) by (rewrite Hm; apply Z.div_pos; lia).
  rewrite shr_1_spec by done. split; simpl.
  - rewrite Hm, Z.div_div, Z.pow_add_r by lia. reflexivity.
  - intros Hb Hmod.
    rewrite Z.pow_add_r, Z.pow_1_r in Hmod by lia.
    apply Z.mod_divide in Hmod as [c Hc]; [|lia].
    assert (Hk0 : M mod 2 ^ k = 0).
    { rewrite Hc. replace (c * (2 ^ k * 2)) with (c * 2 * 2 ^ k) by lia.
      apply Z.mod_mul. lia. }
    destruct (Hrs Hb Hk0) as [-> ->]. split; [|done].
    rewrite Hm, Hc. replace (c * (2 ^ k * 2)) with (c * 2 * 2 ^ k) by lia.
    rewrite Z.div_mul by lia. rewrite Z.mul_comm. apply Z.odd_even.
Qed.

Lemma tracks_iter M b p : forall k mrs,
  0 <= M -> 0 <= k -> tracks M b k mrs ->
  tracks M b (k + Zpos p) (SpecFloat.iter_pos shr_1 p mrs).
Proof.
  induction p as [p IH|p IH|]; intros k mrs HM Hk H; simpl.
  - replace (k + Z.pos p~1) with (k + 1 + Zpos p + Zpos p) by lia.
    apply IH; [done|lia|]. apply IH; [done|lia|]. by apply tracks_step.
  - replace (k + Z.pos p~0) with (k + Zpos p + Zpos p) by lia.
    apply IH; [done|lia|]. by apply IH.
  - by apply tracks_step.
Qed.

Lemma shr_fexp_unfold m e l :
  shr_fexp prec emax m e l
  = shr (shr_record_of_loc m l) e (fexp64 (Zdigits2 m + e) - e).
Proof. reflexivity. Qed.

Lemma shr_fexp_spec m e l :
  0 <= m -> e <= fexp64 (Zdigits2 m + e) ->
  exists mrs,
    shr_fexp prec emax m e l = (mrs, fexp64 (Zdigits2 m + e)) /\
    tracks m (inexact l) (fexp64 (Zdigits2 m + e) - e) mrs.
Proof.
  intros Hm He. rewrite shr_fexp_unfold.
  destruct (fexp64 (Zdigits2 m + e) - e) as [|p|p] eqn:Esh; [| |lia].
  - exists (shr_record_of_loc m l). split; [|apply tracks_start].
    simpl. f_equal. lia.
  - exists (SpecFloat.iter_pos shr_1 p (shr_record_of_loc m l)). split.
    + simpl. f_equal. lia.
    + apply (tracks_iter m (inexact l) p 0); [done|lia|apply tracks_start].
Qed.

(** *** Rounding *)

Lemma round_nearest_even_spec mrs :
  let m2 := round_nearest_even (shr_m mrs) (loc_of_shr_record mrs) in
  m2 = shr_m mrs \/
  (m2 = shr_m mrs + 1 /\ ~ (shr_r mrs = false /\ shr_s mrs = false)).
Proof.
  destruct mrs as [m [] []]; simpl; try (by left);
    try (right; split; [done|by intros []]).
  destruct (Z.even m); [by left|]. right. split; [done|by intros []].
Qed.

Lemma pow2_split a b : 0 <= a -> 0 <= b -> 2 ^ (a + b) = 2 ^ a * 2 ^ b.
Proof. intros. apply Z.pow_add_r; lia. Qed.

(** The first shift leaves a normal or a subnormal mantissa. *)
Lemma first_shift_range mx ex :
  0 <= mx -> ex <= fexp64 (Zdigits2 mx + ex) ->
  let e1 := fexp64 (Zdigits2 mx + ex) in
  let m1 := mx / 2 ^ (e1 - ex) in
  (-1074 <= e1 /\ 2 ^ 52 <= m1 < 2 ^ 53) \/
  (e1 = -1074 /\ 0 <= m1 < 2 ^ 52).
Proof.
  intros Hmx Hex. simpl. rewrite fexp64_eq in *.
  assert (Hmx' : mx = 0 \/ 0 < mx) by lia. destruct Hmx' as [->|Hpos].
  - right. simpl in *. split; [lia|]. rewrite Z.div_0_l; [lia|].
    apply Z.pow_nonzero; lia.
  - pose proof (Zdigits2_bounds mx Hpos) as [Dlo Dhi].
    pose proof (Zdigits2_pos mx Hpos) as Dpos.
    set (d := Zdigits2 mx) in *.
    destruct (Z_le_gt_dec (-1074) (d + ex - 53)) as [Hn|Hs].
    + left. rewrite Z.max_l in * by lia. split; [lia|].
      replace (d + ex - 53 - ex) with (d - 53) by lia.
      assert (0 < 2 ^ (d - 53)) by (apply Z.pow_pos_nonneg; lia).
      split.
      * apply Z.div_le_lower_bound; [lia|].
        rewrite <- pow2_split by lia.
        by replace (d - 53 + 52) with (d - 1) by lia.
      * apply Z.div_lt_upper_bound; [lia|].
        rewrite <- pow2_split by lia.
        by replace (d - 53 + 53) with d by lia.
    + right. rewrite Z.max_r in * by lia. split; [done|].
      assert (0 < 2 ^ (-1074 - ex)) by (apply Z.pow_pos_nonneg; lia).
      split; [apply Z.div_pos; lia|].
      apply Z.div_lt_upper_bound; [lia|].
      rewrite <- pow2_split by lia.
      assert (2 ^ d <= 2 ^ (-1074 - ex + 52)) by (apply Z.pow_le_mono_r; lia).
      lia.
Qed.

(** The second shift: at most one bit, after a carry. *)
Lemma second_shift m2 e1 :
  (-1074 <= e1 /\ 2 ^ 52 <= m2 <= 2 ^ 53) \/ (e1 = -1074 /\ 0 <= m2 <= 2 ^ 52) ->
  exists m3 e3,
    ((m3 = m2 /\ e3 = e1) \/ (m2 = 2 ^ 53 /\ m3 = 2 ^ 52 /\ e3 = e1 + 1)) /\
    (m3 = 0 \/ fexp64 (Zdigits2 m3 + e3) = e3) /\
    0 <= m3 < 2 ^ 53 /\
    exists mrs, shr_fexp prec emax m2 e1 loc_Exact = (mrs, e3) /\ shr_m mrs = m3.
Proof.
  intros Hrange. rewrite shr_fexp_unfold.
  assert (Hcases :
    (-1074 <= e1 /\ 2 ^ 52 <= m2 < 2 ^ 53) \/ (-1074 <= e1 /\ m2 = 2 ^ 53) \/
    (e1 = -1074 /\ m2 = 0) \/ (e1 = -1074 /\ 0 < m2 < 2 ^ 53)) by lia.
  clear Hrange. destruct Hcases as [[He Hm]|[[He ->]|[[-> ->]|[-> Hm]]]].
  - assert (Zdigits2 m2 = 53) as Hd by (apply Zdigits2_unique; [lia|done]).
    assert (fexp64 (Zdigits2 m2 + e1) = e1) as Hf
      by (rewrite Hd, fexp64_eq; lia).
    exists m2, e1. split; [by left|]. split; [by right|]. split; [lia|].
    rewrite Hf, Z.sub_diag. by eexists.
  - exists (2 ^ 52), (e1 + 1). split; [by right|].
    replace (Zdigits2 (2 ^ 53)) with 54 by reflexivity.
    replace (Zdigits2 (2 ^ 52)) with 53 by reflexivity.
    split; [right; rewrite fexp64_eq; lia|]. split; [lia|].
    replace (fexp64 (54 + e1) - e1) with 1 by (rewrite fexp64_eq; lia).
    by eexists.
  - exists 0, (-1074). split; [by left|]. split; [by left|]. split; [lia|].
    by eexists.
  - pose proof (Zdigits2_pos m2 ltac:(lia)).
    pose proof (Zdigits2_le m2 53 ltac:(lia) ltac:(lia)).
    assert (fexp64 (Zdigits2 m2 + -1074) = -1074) as Hf
      by (rewrite fexp64_eq; lia).
    exists m2, (-1074). split; [by left|]. split; [by right|]. split; [lia|].
    rewrite Hf, Z.sub_diag. by eexists.
Qed.

(** The anatomy of a rounding: [mx] loses [e1 - ex] bits, is rounded to
    [m2], and renormalised to [(m3, e3)]. *)
Lemma bra_spec s mx ex lx :
  0 <= mx -> ex <= fexp64 (Zdigits2 mx + ex) ->
  let e1 := fexp64 (Zdigits2 mx + ex) in
  let m1 := mx / 2 ^ (e1 - ex) in
  exists m2 m3 e3,
    (m2 = m1 \/
     (m2 = m1 + 1 /\ (inexact lx = true \/ mx mod 2 ^ (e1 - ex) <> 0))) /\
    ((m3 = m2 /\ e3 = e1) \/ (m2 = 2 ^ 53 /\ m3 = 2 ^ 52 /\ e3 = e1 + 1)) /\
    (m3 = 0 \/ fexp64 (Zdigits2 m3 + e3) = e3) /\
    0 <= m3 < 2 ^ 53 /\
    bra64 s mx ex lx = bra_result s m3 e3.
Proof.
  intros Hmx Hex e1 m1.
  destruct (shr_fexp_spec mx ex lx Hmx Hex) as (mrs1 & Hshr1 & Hm1 & Hrs1).
  fold e1 in Hshr1, Hm1, Hrs1. fold m1 in Hm1.
  pose proof (first_shift_range mx ex Hmx Hex) as Hrange.
  simpl in Hrange. fold e1 in Hrange. fold m1 in Hrange.
  pose proof (round_nearest_even_spec mrs1) as Hround. simpl in Hround.
  set (m2 := round_nearest_even (shr_m mrs1) (loc_of_shr_record mrs1)) in *.
  rewrite Hm1 in Hround.
  destruct (second_shift m2 e1)
    as (m3 & e3 & Hcarry & Hcanon & Hm3 & mrs2 & Hshr2 & Hm3').
  { destruct Hround as [->|[-> _]]; lia. }
  exists m2, m3, e3. split; [|split; [done|split; [done|split; [done|]]]].
  - destruct Hround as [->|[-> Hne]]; [by left|right]. split; [done|].
    destruct (inexact lx) eqn:Eb; [by left|right].
    intros Hmod. apply Hne. by apply Hrs1.
  - unfold binary_round_aux. rewrite Hshr1. fold m2. rewrite Hshr2, Hm3'.
    reflexivity.
Qed.

Lemma Prim2SF_one : Prim2SF 1%float = sf_one.
Proof. reflexivity. Qed.

Lemma Prim2SF_zero : Prim2SF 0%float = S754_zero false.
Proof. reflexivity. Qed.

Lemma bra_result_valid s m3 e3 :
  0 <= m3 -> (m3 = 0 \/ fexp64 (Zdigits2 m3 + e3) = e3) ->
  valid_binary (bra_result s m3 e3) = true.
Proof.
  intros Hm Hc. destruct m3 as [|p|p]; [done| |lia]. simpl.
  destruct (e3 <=? 971) eqn:E; [|done]. simpl.
  unfold bounded, canonical_mantissa. destruct Hc as [Hc|Hc]; [done|].
  simpl in Hc. rewrite Hc, Z.eqb_refl. exact E.
Qed.

Lemma bra_result_nonneg m3 e3 :
  0 <= m3 -> SFleb (S754_zero false) (bra_result false m3 e3) = true.
Proof.
  intros Hm. destruct m3 as [|p|p]; [done| |lia]. simpl.
  by destruct (e3 <=? 971).
Qed.

Lemma bra_result_le_one m3 e3 :
  0 <= m3 -> e3 <= -52 -> m3 <= 2 ^ (- e3) ->
  SFleb (bra_result false m3 e3) sf_one = true /\
  bra_result false m3 e3 <> S754_infinity false.
Proof.
  intros Hm He Hle. destruct m3 as [|p|p]; [done| |lia].
  unfold bra_result.
  replace (e3 <=? 971) with true by (symmetry; apply Z.leb_le; lia).
  split; [|done]. unfold SFleb, SFcompare, sf_one.
  destruct (Z.compare_spec e3 (-52)) as [->|Hlt|Hgt]; [|done|lia].
  change (- -52) with 52 in Hle.
  rewrite Pos.compare_cont_spec.
  destruct (Pos.compare_spec p 4503599627370496) as [_|_|Hgt];
    [done|done|lia].
Qed.

(** A rounding never leaves the valid binary64 numbers. *)
Lemma bra_valid s mx ex lx :
  0 <= mx -> ex <= fexp64 (Zdigits2 mx + ex) ->
  exists m3 e3,
    0 <= m3 /\ bra64 s mx ex lx = bra_result s m3 e3 /\
    valid_binary (bra_result s m3 e3) = true.
Proof.
  intros Hmx Hex.
  destruct (bra_spec s mx ex lx Hmx Hex) as (m2 & m3 & e3 & _ & _ & Hc & Hm3 & Hr).
  exists m3, e3. split; [lia|]. split; [done|].
  apply bra_result_valid; [lia|done].
Qed.

(** A value that is at most one is rounded to at most one. *)
Lemma bra_le_one mx ex lx :
  0 <= mx -> ex <= fexp64 (Zdigits2 mx + ex) ->
  ex <= 0 -> mx + (if inexact lx then 1 else 0) <= 2 ^ (- ex) ->
  exists r,
    bra64 false mx ex lx = r /\ valid_binary r = true /\
    r <> S754_infinity false /\
    SFleb (S754_zero false) r = true /\ SFleb r sf_one = true.
Proof.
  intros Hmx Hex Hex0 Hle.
  destruct (bra_spec false mx ex lx Hmx Hex)
    as (m2 & m3 & e3 & Hm2 & Hcarry & Hc & Hm3 & Hr).
  set (e1 := fexp64 (Zdigits2 mx + ex)) in *.
  set (sh := e1 - ex) in *.
  assert (Hsh : 0 <= sh) by (unfold sh; lia).
  assert (He1 : e1 <= -52).
  { unfold e1. rewrite fexp64_eq.
    assert (Hmx' : mx = 0 \/ 0 < mx) by lia. destruct Hmx' as [->|Hpos].
    - simpl. lia.
    - pose proof (Zdigits2_bounds mx Hpos) as [Dlo _].
      pose proof (Zdigits2_pos mx Hpos).
      destruct (Z_lt_le_dec (- ex) (Zdigits2 mx - 1)) as [Hlt|]; [|lia].
      assert (2 ^ (- ex) < 2 ^ (Zdigits2 mx - 1))
        by (apply Z.pow_lt_mono_r; lia).
      destruct (inexact lx); lia. }
  assert (Hpow : 2 ^ (- ex) = 2 ^ sh * 2 ^ (- e1)).
  { rewrite <- pow2_split by lia. f_equal. unfold sh. lia. }
  assert (0 < 2 ^ sh) by (apply Z.pow_pos_nonneg; lia).
  assert (0 < 2 ^ (- e1)) by (apply Z.pow_pos_nonneg; lia).
  assert (Hm2' : m2 <= 2 ^ (- e1)).
  { destruct Hm2 as [->|[-> Hinex]].
    - apply Z.div_le_upper_bound; [lia|]. destruct (inexact lx); lia.
    - assert (mx < 2 ^ (- ex)).
      { destruct Hinex as [Hin|Hmod]; [rewrite Hin in Hle; lia|].
        assert (mx <> 2 ^ (- ex)); [|destruct (inexact lx); lia].
        intros ->. apply Hmod. rewrite Hpow, Z.mul_comm. apply Z.mod_mul. lia. }
      assert (mx / 2 ^ sh < 2 ^ (- e1))
        by (apply Z.div_lt_upper_bound; lia).
      lia. }
  assert (Hfin : e3 <= -52 /\ m3 <= 2 ^ (- e3)).
  { destruct Hcarry as [[-> ->]|(-> & -> & ->)]; [done|].
    assert (53 <= - e1).
    { destruct (Z_lt_le_dec (- e1) 53); [|done].
      assert (2 ^ (- e1) < 2 ^ 53) by (apply Z.pow_lt_mono_r; lia). lia. }
    split; [lia|]. apply Z.pow_le_mono_r; lia. }
  destruct Hfin as [He3 Hm3'].
  destruct (bra_result_le_one m3 e3) as [Hone Hinf]; [lia|done|done|].
  exists (bra_result false m3 e3). split; [done|].
  split; [apply bra_result_valid; [lia|done]|].
  split; [done|]. split; [apply bra_result_nonneg; lia|done].
Qed.

Lemma new_location_exact nb k : k = 0 -> new_location nb k = loc_Exact.
Proof.
  intros ->. unfold new_location, new_location_even, new_location_odd.
  by destruct (Z.even nb).
Qed.

(** The quotient that [SFdiv_core_binary] hands to the rounding, for two
    positive integers. *)
Lemma div_core_unfold a b :
  0 < a -> 0 < b ->
  let e := Z.min (fexp64 (Zdigits2 a - Zdigits2 b)) 0 in
  SFdiv_core_binary prec emax a 0 b 0
  = ((a * 2 ^ (- e)) / b, e, new_location b ((a * 2 ^ (- e)) mod b)).
Proof.
  intros Ha Hb e. unfold SFdiv_core_binary.
  rewrite !Z.add_0_r. change (0 - 0) with 0. fold e.
  assert (He : e <= 0) by (unfold e; lia).
  assert (Hm : match 0 - e with
               | 0 => a
               | Z.pos _ => Z.shiftl a (0 - e)
               | Z.neg _ => 0
               end = a * 2 ^ (- e)).
  { replace (0 - e) with (- e) by lia.
    destruct (- e) as [|p|p] eqn:E; [lia| |lia].
    apply Z.shiftl_mul_pow2. lia. }
  rewrite Hm. unfold Z.div, Z.modulo.
  by destruct (Z.div_eucl (a * 2 ^ (- e)) b).
Qed.

Lemma iter_xO_pow m d : Zpos (Pos.iter xO m d) = Zpos m * 2 ^ Zpos d.
Proof.
  induction d as [|d IH] using Pos.peano_ind.
  - simpl. lia.
  - rewrite Pos.iter_succ, Pos2Z.inj_xO, IH, Pos2Z.inj_succ, Z.pow_succ_r by lia.
    lia.
Qed.

(** Aligning a mantissa on a smaller exponent multiplies it by a power of
    two; on a larger one, it does nothing. *)
Lemma shl_align_down m e e' :
  e' <= e ->
  exists m', shl_align m e e' = (m', e') /\ Zpos m' = Zpos m * 2 ^ (e - e').
Proof.
  intros He. unfold shl_align.
  destruct (e' - e) as [|d|d] eqn:E; [| lia |].
  - exists m. assert (e' = e) as -> by lia.
    split; [done|]. rewrite Z.sub_diag. simpl. lia.
  - exists (Pos.iter xO m d). split; [done|].
    rewrite iter_xO_pow. f_equal. f_equal. lia.
Qed.

Lemma shl_align_up m e e' : e <= e' -> shl_align m e e' = (m, e).
Proof.
  intros He. unfold shl_align. destruct (e' - e) eqn:E; [done|done|lia].
Qed.

Lemma Zdigits2_mul_pow2 m k :
  0 < m -> 0 <= k -> Zdigits2 (m * 2 ^ k) = Zdigits2 m + k.
Proof.
  intros Hm Hk. pose proof (Zdigits2_bounds m Hm) as [Dlo Dhi].
  pose proof (Zdigits2_pos m Hm).
  assert (0 < 2 ^ k) by (apply Z.pow_pos_nonneg; lia).
  apply Zdigits2_unique; [nia|].
  replace (Zdigits2 m + k - 1) with (Zdigits2 m - 1 + k) by lia.
  rewrite !pow2_split by lia. nia.
Qed.

(** [binary_round] first aligns the mantissa so that the rounding that
    follows starts from enough digits. *)
Lemma binary_round_unfold s n e :
  exists mz ez,
    binary_round prec emax s n e = bra64 s (Zpos mz) ez loc_Exact /\
    ez <= fexp64 (Zdigits2 (Zpos mz) + ez) /\
    ez <= e /\ Zpos mz = Zpos n * 2 ^ (e - ez).
Proof.
  unfold binary_round.
  set (E := fexp64 (Zpos (digits2_pos n) + e)).
  destruct (Z_lt_le_dec E e) as [Hlt|Hge].
  - destruct (shl_align_down n e E ltac:(lia)) as (mz & -> & Hmz).
    exists mz, E. split; [done|]. split; [|split; [lia|done]].
    rewrite Hmz, Zdigits2_mul_pow2 by lia. simpl Zdigits2.
    replace (Zpos (digits2_pos n) + (e - E) + E)
      with (Zpos (digits2_pos n) + e) by lia.
    fold E. lia.
  - rewrite shl_align_up by done. exists n, e.
    split; [done|]. split; [done|]. split; [lia|].
    rewrite Z.sub_diag. simpl. lia.
Qed.

Lemma binary_round_valid s n e :
  exists m3 e3,
    0 <= m3 /\ binary_round prec emax s n e = bra_result s m3 e3 /\
    valid_binary (bra_result s m3 e3) = true.
Proof.
  destruct (binary_round_unfold s n e) as (mz & ez & -> & Hpre & _).
  by apply bra_valid.
Qed.

Lemma binary_round_le_one n e :
  e <= 0 -> Zpos n <= 2 ^ (- e) ->
  exists r,
    binary_round prec emax false n e = r /\ valid_binary r = true /\
    r <> S754_infinity false /\
    SFleb (S754_zero false) r = true /\ SFleb r sf_one = true.
Proof.
  intros He Hn.
  destruct (binary_round_unfold false n e) as (mz & ez & -> & Hpre & Hez & Hmz).
  apply bra_le_one; [lia|done|lia|]. simpl.
  rewrite Hmz, Z.add_0_r.
  assert (0 < 2 ^ (e - ez)) by (apply Z.pow_pos_nonneg; lia).
  replace (- ez) with (- e + (e - ez)) by lia.
  rewrite pow2_split by lia. nia.
Qed.

(** Whatever the exponents, a rounding of a non-negative mantissa gives a
    zero, a finite number or an infinity of the sign asked for. *)
Lemma iter_shr_1_nonneg p : forall mrs,
  0 <= shr_m mrs -> 0 <= shr_m (SpecFloat.iter_pos shr_1 p mrs).
Proof.
  assert (Hstep : forall mrs, 0 <= shr_m mrs -> 0 <= shr_m (shr_1 mrs)).
  { intros mrs H. rewrite shr_1_spec by done. simpl.
    apply Z.div_pos; lia. }
  induction p as [p IH|p IH|]; intros mrs H; simpl; auto.
Qed.

Lemma shr_fexp_nonneg m e l :
  0 <= m -> 0 <= shr_m (fst (shr_fexp prec emax m e l)).
Proof.
  intros Hm. rewrite shr_fexp_unfold. unfold shr.
  assert (H0 : 0 <= shr_m (shr_record_of_loc m l)) by (by destruct l as [|[]]).
  destruct (fexp64 (Zdigits2 m + e) - e); simpl; [done| |done].
  by apply iter_shr_1_nonneg.
Qed.

Lemma round_nearest_even_nonneg mrs :
  0 <= shr_m mrs ->
  0 <= round_nearest_even (shr_m mrs) (loc_of_shr_record mrs).
Proof.
  intros H. destruct (round_nearest_even_spec mrs) as [->|[-> _]]; lia.
Qed.

Lemma bra_sign s mx ex lx :
  0 <= mx -> exists m e, 0 <= m /\ bra64 s mx ex lx = bra_result s m e.
Proof.
  intros Hmx. unfold binary_round_aux.
  pose proof (shr_fexp_nonneg mx ex lx Hmx) as H1.
  destruct (shr_fexp prec emax mx ex lx) as [mrs1 e1]. simpl in H1.
  pose proof (shr_fexp_nonneg _ e1 loc_Exact
                (round_nearest_even_nonneg mrs1 H1)) as H2.
  destruct (shr_fexp prec emax _ e1 loc_Exact) as [mrs2 e2]. simpl in H2.
  by exists (shr_m mrs2), e2.
Qed.

End Binary64Facts.

(** ** Python's float operations on the values the scorers produce *)

Module PyFloatFacts.

Import Binary64 Binary64Facts.

Lemma in_unit_interval_of_sf r :
  valid_binary r = true ->
  SFleb (S754_zero false) r = true -> SFleb r sf_one = true ->
  PyFloat.in_unit_interval (SF2Prim r).
Proof.
  intros Hv H0 H1. unfold PyFloat.in_unit_interval.
  rewrite !leb_spec, Prim2SF_SF2Prim by done. by split.
Qed.

(** [a / b] for [0 <= a <= b], [0 < b]: returns, and within [0, 1]. *)
Lemma int_truediv_unit a b :
  0 <= a <= b -> 0 < b ->
  exists q, PyFloat.int_truediv a b = Ret q /\ PyFloat.in_unit_interval q.
Proof.
  intros Hab Hb. unfold PyFloat.int_truediv.
  replace (b =? 0) with false by (symmetry; apply Z.eqb_neq; lia).
  replace (a <? 0) with false by (symmetry; apply Z.ltb_ge; lia).
  replace (b <? 0) with false by (symmetry; apply Z.ltb_ge; lia).
  simpl xorb.
  destruct (Z.eqb_spec a 0) as [->|Ha].
  { exists 0%float. split; [reflexivity|]. by split. }
  rewrite !Z.abs_eq by lia.
  rewrite div_core_unfold by lia.
  set (e := Z.min (fexp64 (Zdigits2 a - Zdigits2 b)) 0).
  set (q := a * 2 ^ (- e) / b).
  set (r := (a * 2 ^ (- e)) mod b).
  pose proof (Zdigits2_bounds a ltac:(lia)) as [Alo Ahi].
  pose proof (Zdigits2_bounds b ltac:(lia)) as [Blo Bhi].
  pose proof (Zdigits2_pos a ltac:(lia)) as Apos.
  pose proof (Zdigits2_pos b ltac:(lia)) as Bpos.
  assert (Hdd : Zdigits2 a <= Zdigits2 b).
  { apply Zdigits2_le; lia. }
  assert (He : e <= 0) by (unfold e; lia).
  assert (Hpow : 0 < 2 ^ (- e)) by (apply Z.pow_pos_nonneg; lia).
  assert (Hdm : a * 2 ^ (- e) = b * q + r /\ 0 <= r < b).
  { split; [apply Z.div_mod; lia|apply Z.mod_pos_bound; lia]. }
  destruct Hdm as [Hdiv Hr].
  assert (Hq0 : 0 <= q) by (apply Z.div_pos; nia).
  assert (Hqle : q + (if inexact (new_location b r) then 1 else 0) <= 2 ^ (- e)).
  { assert (q <= 2 ^ (- e)) by (apply Z.div_le_upper_bound; nia).
    destruct (inexact (new_location b r)) eqn:Ein; [|lia].
    assert (r <> 0) by (intros Hr0; by rewrite (new_location_exact b r Hr0) in Ein).
    assert (q <> 2 ^ (- e)) by nia. lia. }
  assert (Hpre : e <= fexp64 (Zdigits2 q + e)).
  { rewrite fexp64_eq. unfold e at 1. rewrite fexp64_eq.
    destruct (Z_le_gt_dec (-1074) (Zdigits2 a - Zdigits2 b - 53)) as [Hn|Hs];
      [|lia].
    assert (He' : e = Zdigits2 a - Zdigits2 b - 53)
      by (unfold e; rewrite fexp64_eq; lia).
    assert (2 ^ 52 <= q).
    { apply Z.div_le_lower_bound; [lia|].
      rewrite He'.
      replace (- (Zdigits2 a - Zdigits2 b - 53))
        with (53 + (Zdigits2 b - Zdigits2 a)) by lia.
      assert (2 ^ (Zdigits2 a - 1) * 2 ^ (53 + (Zdigits2 b - Zdigits2 a))
              = 2 ^ Zdigits2 b * 2 ^ 52).
      { rewrite <- !pow2_split by lia. f_equal. lia. }
      assert (0 < 2 ^ (53 + (Zdigits2 b - Zdigits2 a)))
        by (apply Z.pow_pos_nonneg; lia).
      nia. }
    pose proof (Zdigits2_ge q 53 ltac:(simpl; lia) ltac:(lia)). lia. }
  destruct (bra_le_one q e (new_location b r) Hq0 Hpre He Hqle)
    as (res & Hres & Hvalid & Hinf & Hge & Hle).
  rewrite Hres. exists (SF2Prim res). split.
  - destruct res as [s|[]| |s m ex]; try reflexivity; done.
  - by apply in_unit_interval_of_sf.
Qed.

(** [n / n] is exactly [1.0]. *)
Lemma int_truediv_self n : 0 < n -> PyFloat.int_truediv n n = Ret 1%float.
Proof.
  intros Hn. unfold PyFloat.int_truediv.
  replace (n =? 0) with false by (symmetry; apply Z.eqb_neq; lia).
  replace (n <? 0) with false by (symmetry; apply Z.ltb_ge; lia).
  simpl xorb. rewrite !Z.abs_eq by lia.
  rewrite div_core_unfold by lia.
  rewrite Z.sub_diag. change (Z.min (fexp64 0) 0) with (-53).
  change (- -53) with 53.
  rewrite (Z.mul_comm n), Z.div_mul, Z.mod_mul by lia.
  rewrite (new_location_exact n 0 eq_refl).
  reflexivity.
Qed.

(** [0 / n] is [0.0]. *)
Lemma int_truediv_zero n : 0 < n -> PyFloat.int_truediv 0 n = Ret 0%float.
Proof.
  intros Hn. unfold PyFloat.int_truediv.
  replace (n =? 0) with false by (symmetry; apply Z.eqb_neq; lia).
  replace (n <? 0) with false by (symmetry; apply Z.ltb_ge; lia).
  reflexivity.
Qed.

Lemma sub_one_finite m e :
  e <= -52 ->
  SF64sub sf_one (S754_finite false m e)
  = binary_normalize prec emax (2 ^ (- e) - Zpos m) e false.
Proof.
  intros He. unfold SF64sub, SFsub, sf_one, cond_Zopp.
  rewrite Z.min_r by lia.
  destruct (shl_align_down 4503599627370496 (-52) e He) as (m1 & -> & Hm1).
  rewrite (shl_align_up m e e) by lia. simpl fst.
  rewrite Hm1. f_equal.
  change (Z.pos 4503599627370496) with (2 ^ 52).
  rewrite <- pow2_split by lia. f_equal. f_equal. lia.
Qed.

(** [1 - q] stays within [0, 1] when [q] is. *)
Lemma sub_one_unit q :
  PyFloat.in_unit_interval q ->
  PyFloat.in_unit_interval (PrimFloat.sub 1%float q).
Proof.
  unfold PyFloat.in_unit_interval.
  rewrite !leb_spec, sub_spec, Prim2SF_one, Prim2SF_zero.
  pose proof (Prim2SF_valid q) as Hv.
  destruct (Prim2SF q) as [s|s| |s m e]; intros [H0 H1].
  - by destruct s.
  - by destruct s.
  - done.
  - destruct s; [done|].
    assert (He : e <= -52 /\ Zpos m <= 2 ^ (- e)).
    { unfold SFleb, SFcompare, sf_one in H1.
      simpl in Hv. unfold bounded, canonical_mantissa in Hv.
      apply andb_true_iff in Hv as [Hc _]. apply Z.eqb_eq in Hc.
      rewrite fexp64_eq in Hc.
      pose proof (digits2_pos_bounds m) as [_ Hhi].
      destruct (Z.compare_spec e (-52)) as [->|Hlt|Hgt]; [| |done].
      - split; [lia|]. rewrite Pos.compare_cont_spec in H1.
        destruct (Pos.compare_spec m 4503599627370496) as [->|Hl|Hg];
          simpl in H1; [done| |done].
        change (- -52) with 52. apply Pos2Z.pos_lt_pos in Hl.
        clear -Hl. lia.
      - split; [lia|].
        assert (2 ^ Zpos (digits2_pos m) <= 2 ^ (- e))
          by (apply Z.pow_le_mono_r; lia).
        lia. }
    destruct He as [He Hm]. rewrite sub_one_finite by done.
    destruct (2 ^ (- e) - Zpos m) as [|n|n] eqn:En; [done| |lia].
    simpl binary_normalize.
    destruct (binary_round_le_one n e) as (r & -> & _ & _ & Hge & Hle);
      [lia|lia|done].
Qed.

(** [float(n)] of a non-negative [int] is a non-negative number, unless it
    overflows. *)
Lemma of_int_nonneg n :
  0 <= n ->
  PyFloat.of_int n = Raise OverflowError \/
  exists x, PyFloat.of_int n = Ret x /\
            SFleb (S754_zero false) (Prim2SF x) = true.
Proof.
  intros Hn. unfold PyFloat.of_int, binary_normalize.
  destruct n as [|p|p]; [right; by exists 0%float| |lia].
  destruct (binary_round_valid false p 0) as (m3 & e3 & Hm3 & -> & Hv).
  destruct m3 as [|m|m]; [right; by exists 0%float| |lia].
  unfold bra_result in *. destruct (e3 <=? 971); [right|by left].
  eexists. split; [reflexivity|]. by rewrite Prim2SF_SF2Prim.
Qed.

Lemma sqrt_int_nonneg n :
  0 <= n ->
  PyFloat.sqrt_int n = Raise OverflowError \/
  exists y, PyFloat.sqrt_int n = Ret y.
Proof.
  intros Hn. unfold PyFloat.sqrt_int.
  destruct (of_int_nonneg n Hn) as [->|(x & -> & Hx)]; [by left|right].
  simpl. rewrite ltb_spec, Prim2SF_zero.
  replace (SFltb (Prim2SF x) (S754_zero false)) with false; [by eexists|].
  by destruct (Prim2SF x) as [[]|[]| |[] m e].
Qed.

(** IEEE multiplication commutes. *)
Lemma mul_comm x y : PrimFloat.mul x y = PrimFloat.mul y x.
Proof.
  apply Prim2SF_inj. rewrite !mul_spec. unfold SF64mul, SFmul.
  destruct (Prim2SF x) as [sx|sx| |sx mx ex],
           (Prim2SF y) as [sy|sy| |sy my ey];
    rewrite ?(xorb_comm sx sy); try reflexivity.
  by rewrite (Pos.mul_comm mx my), (Z.add_comm ex ey).
Qed.

(** [float(n)] of a non-negative [int], when it returns, is finite and not
    negative. *)
Lemma of_int_finite n x :
  0 <= n -> PyFloat.of_int n = Ret x ->
  nonneg (Prim2SF x) /\ finite_sf (Prim2SF x).
Proof.
  intros Hn. unfold PyFloat.of_int, binary_normalize.
  destruct n as [|p|p]; [by intros [= <-]| |lia].
  destruct (binary_round_valid false p 0) as (m3 & e3 & Hm3 & -> & Hv).
  destruct m3 as [|m|m]; [by intros [= <-]| |lia].
  unfold bra_result in *. destruct (e3 <=? 971); [|done].
  intros Heq.
  assert (x = SF2Prim (S754_finite false m e3)) as -> by congruence.
  by rewrite Prim2SF_SF2Prim.
Qed.

Lemma sqrt_nonneg x :
  nonneg (Prim2SF x) -> nonneg (Prim2SF (PrimFloat.sqrt x)).
Proof.
  rewrite sqrt_spec. unfold SF64sqrt, SFsqrt, nonneg.
  destruct (Prim2SF x) as [s|[]| |[] m e]; try done.
  intros _. unfold SFsqrt_core_binary.
  set (e' := Z.min _ _). set (m' := match e - 2 * e' with 0 => _ | _ => _ end).
  assert (Hm' : 0 <= m').
  { unfold m'. destruct (e - 2 * e') eqn:E; [lia| |lia].
    apply Z.shiftl_nonneg. lia. }
  pose proof (Z.sqrtrem_spec m' Hm') as Hs.
  destruct (Z.sqrtrem m') as [q r].
  destruct (bra_sign false q e' (if r =? 0 then loc_Exact
                                 else loc_Inexact (if r <=? q then Lt else Gt)))
    as (m3 & e3 & Hm3 & ->); [lia|].
  by apply bra_result_nonneg.
Qed.

Lemma positive_of_nonzero x :
  nonneg (Prim2SF x) -> PrimFloat.eqb x 0%float = false ->
  positive_sf (Prim2SF x).
Proof.
  rewrite FloatAxioms.eqb_spec, Prim2SF_zero. unfold nonneg.
  by destruct (Prim2SF x) as [[]|[]| |[] m e].
Qed.

Lemma mul_nonneg x y :
  positive_sf (Prim2SF x) -> positive_sf (Prim2SF y) ->
  nonneg (Prim2SF (PrimFloat.mul x y)).
Proof.
  rewrite mul_spec. unfold SF64mul, SFmul, nonneg.
  destruct (Prim2SF x) as [sx|[]| |[] mx ex]; try done;
    destruct (Prim2SF y) as [sy|[]| |[] my ey]; try done.
  intros _ _. simpl xorb.
  destruct (bra_sign false (Zpos (mx * my)) (ex + ey) loc_Exact)
    as (m3 & e3 & Hm3 & ->); [lia|].
  by apply bra_result_nonneg.
Qed.

Lemma div_nonneg d y :
  nonneg (Prim2SF d) -> finite_sf (Prim2SF d) -> positive_sf (Prim2SF y) ->
  nonneg (Prim2SF (PrimFloat.div d y)).
Proof.
  rewrite div_spec. unfold SF64div, SFdiv, nonneg.
  destruct (Prim2SF d) as [sd|[]| |[] md ed]; try done;
    destruct (Prim2SF y) as [sy|[]| |[] my ey]; try done.
  intros _ _ _. simpl xorb.
  destruct (SFdiv_core_binary prec emax (Zpos md) ed (Zpos my) ey)
    as [[q e] l] eqn:E.
  assert (Hq : 0 <= q).
  { unfold SFdiv_core_binary in E.
    set (m' := match _ - _ with 0 => _ | _ => _ end) in E.
    assert (0 <= m').
    { unfold m'. destruct (_ - _) eqn:E'; [lia| |lia].
      apply Z.shiftl_nonneg. lia. }
    pose proof (Z.div_pos m' (Zpos my) ltac:(lia) ltac:(lia)) as Hd.
    unfold Z.div in Hd. destruct (Z.div_eucl m' (Zpos my)) as [q' r'].
    by injection E as <- _ _. }
  destruct (bra_sign false q e l Hq) as (m3 & e3 & Hm3 & ->).
  by apply bra_result_nonneg.
Qed.

End PyFloatFacts.

(** ** Character classes *)

(** [string.punctuation] is the printable ASCII without the space, the
    digits and the letters. *)
Lemma string_punctuation_ascii c :
  c ∈ string_punctuation <->
  33 <= c <= 126 /\ ~ (48 <= c <= 57) /\ ~ (65 <= c <= 90) /\
  ~ (97 <= c <= 122).
Proof.
  split.
  - unfold string_punctuation. intros H.
    repeat (apply elem_of_cons in H as [->|H]; [lia|]).
    by apply not_elem_of_nil in H.
  - intros (Hr & Hd & Hu & Hl).
    assert (Hall : Forall (fun c => ~ (48 <= c <= 57) -> ~ (65 <= c <= 90) ->
                                   ~ (97 <= c <= 122) -> c ∈ string_punctuation)
                          (seqZ 33 94)).
    { apply (bool_decide_unpack _). vm_compute. exact I. }
    rewrite Forall_forall in Hall. apply Hall; [|done..].
    apply elem_of_seqZ. lia.
Qed.

(** ** The scorers *)

Lemma is_empty_false {A : Type} (l : list A) : l <> [] -> is_empty l = false.
Proof. by destruct l. Qed.

Lemma length_pos_Z {A : Type} (l : list A) : l <> [] -> 0 < Z.of_nat (length l).
Proof. destruct l; [done|]. simpl length. lia. Qed.

Lemma word_frequency_match_unit original plagiarized :
  exists x, word_frequency_match original plagiarized = Ret x /\
            PyFloat.in_unit_interval x.
Proof.
  unfold word_frequency_match.
  destruct original as [|w o]; [by exists 0%float|].
  destruct plagiarized as [|v p]; [by exists 0%float|].
  simpl orb. cbv iota.
  apply PyFloatFacts.int_truediv_unit.
  - apply matched_count_bounds.
  - simpl length. lia.
Qed.

Lemma edit_distance_similarity_nonempty a b :
  a <> [] -> b <> [] ->
  edit_distance_similarity a b
  = (q ← PyFloat.int_truediv (lev a b)
           (Z.max (Z.of_nat (length a)) (Z.of_nat (length b)));
     Ret (PrimFloat.sub 1%float q)).
Proof.
  intros Ha Hb. unfold edit_distance_similarity.
  rewrite (is_empty_false a Ha), (is_empty_false b Hb), edit_distance_lev.
  reflexivity.
Qed.

Lemma lev_quotient_unit a b :
  b <> [] ->
  exists q,
    PyFloat.int_truediv (lev a b)
      (Z.max (Z.of_nat (length a)) (Z.of_nat (length b))) = Ret q /\
    PyFloat.in_unit_interval q.
Proof.
  intros Hb. apply PyFloatFacts.int_truediv_unit.
  - split; [apply lev_nonneg|apply lev_upper].
  - pose proof (length_pos_Z b Hb). lia.
Qed.

Lemma edit_distance_similarity_unit original plagiarized :
  exists x, edit_distance_similarity original plagiarized = Ret x /\
            PyFloat.in_unit_interval x.
Proof.
  destruct (decide (original = [])) as [->|Ho]; [by exists 0%float|].
  destruct (decide (plagiarized = [])) as [->|Hp].
  { exists 0%float. by destruct original. }
  rewrite edit_distance_similarity_nonempty by done.
  destruct (lev_quotient_unit original plagiarized Hp) as (q & -> & Hq).
  eexists. split; [reflexivity|]. by apply PyFloatFacts.sub_one_unit.
Qed.

Lemma edit_distance_similarity_sym a b :
  edit_distance_similarity a b = edit_distance_similarity b a.
Proof.
  unfold edit_distance_similarity.
  rewrite (orb_comm (is_empty a)), !edit_distance_lev, (lev_sym a b).
  by rewrite Z.max_comm.
Qed.

Lemma cosine_finish_swap dot sq_o sq_p :
  0 <= sq_o -> 0 <= sq_p ->
  cosine_finish (dot, sq_o, sq_p) = cosine_finish (dot, sq_p, sq_o).
Proof.
  intros Ho Hp. unfold cosine_finish.
  destruct (PyFloatFacts.sqrt_int_nonneg sq_o Ho) as [->|(x & ->)],
           (PyFloatFacts.sqrt_int_nonneg sq_p Hp) as [->|(y & ->)];
    try reflexivity.
  simpl. rewrite (orb_comm (PrimFloat.eqb x 0)), (PyFloatFacts.mul_comm x y).
  reflexivity.
Qed.

(** A cosine score, when one is returned, is not negative. *)
Lemma cosine_finish_nonneg dot sq_o sq_p x :
  0 <= dot -> 0 <= sq_o -> 0 <= sq_p ->
  cosine_finish (dot, sq_o, sq_p) = Ret x -> PrimFloat.leb 0%float x = true.
Proof.
  intros Hd Ho Hp. unfold cosine_finish, PyFloat.sqrt_int.
  destruct (PyFloat.of_int sq_o) as [xo|] eqn:Eo; [|done].
  destruct (PyFloatFacts.of_int_finite sq_o xo Ho Eo) as [Hxo _].
  simpl. destruct (PrimFloat.ltb xo 0); [done|]. simpl.
  destruct (PyFloat.of_int sq_p) as [xp|] eqn:Ep; [|done].
  destruct (PyFloatFacts.of_int_finite sq_p xp Hp Ep) as [Hxp _].
  simpl. destruct (PrimFloat.ltb xp 0); [done|]. simpl.
  destruct (PrimFloat.eqb (PrimFloat.sqrt xo) 0) eqn:Go; [by intros [= <-]|].
  destruct (PrimFloat.eqb (PrimFloat.sqrt xp) 0) eqn:Gp; [by intros [= <-]|].
  simpl.
  destruct (PyFloat.of_int dot) as [d|] eqn:Ed; [|done].
  destruct (PyFloatFacts.of_int_finite dot d Hd Ed) as [Hd1 Hd2].
  simpl. unfold PyFloat.truediv.
  destruct (PrimFloat.eqb (PrimFloat.mul _ _) 0) eqn:Gm; [done|].
  intros Heq.
  assert (x = PrimFloat.div d
                (PrimFloat.mul (PrimFloat.sqrt xo) (PrimFloat.sqrt xp)))
    as -> by congruence.
  rewrite leb_spec. apply PyFloatFacts.div_nonneg; [done|done|].
  apply PyFloatFacts.positive_of_nonzero; [|done].
  apply PyFloatFacts.mul_nonneg;
    (apply PyFloatFacts.positive_of_nonzero;
     [by apply PyFloatFacts.sqrt_nonneg|done]).
Qed.

Lemma cosine_similarity_score_nonneg get_synonyms original plagiarized x :
  cosine_similarity_score get_synonyms original plagiarized = Ret x ->
  PrimFloat.leb 0%float x = true.
Proof.
  unfold cosine_similarity_score.
  destruct (is_empty original || is_empty plagiarized); [by intros [= <-]|].
  pose proof (cosine_parts_bounds get_synonyms original plagiarized) as Hb.
  destruct (cosine_parts get_synonyms original plagiarized) as [[dot n1] n2].
  destruct Hb as (Hd & H1 & H2 & _). by apply cosine_finish_nonneg.
Qed.

Lemma cosine_similarity_score_sym get_synonyms a b :
  cosine_similarity_score get_synonyms a b
  = cosine_similarity_score get_synonyms b a.
Proof.
  unfold cosine_similarity_score. rewrite (orb_comm (is_empty a)).
  destruct (is_empty b || is_empty a); [done|].
  rewrite (cosine_parts_swap get_synonyms a b).
  pose proof (cosine_parts_bounds get_synonyms a b) as Hb.
  destruct (cosine_parts get_synonyms a b) as [[dot sq_a] sq_b].
  destruct Hb as (_ & Ha & Hb & _). symmetry. by apply cosine_finish_swap.
Qed.

(** * The claims of the specification *)

(** C1 (the code departs from it): [calculate_similarity] is documented to
    return a float in [0,1] that combines the three scorers. The function in
    the source has no statement after its docstring: on every input, that of
    its own test included, it returns [None], not a float, and the caller's
    multiplication by 100 then raises [TypeError]. *)
Theorem calculate_similarity_returns_none :
  (forall original_tokens plagiarized_tokens original_str plagiarized_str,
     calculate_similarity original_tokens plagiarized_tokens
                          original_str plagiarized_str = Ret None) /\
  calculate_similarity [zhe; shi; yige; ceshi; wenben]
                       [zhe; shi; yi; ge; ceshi; wenben]
                       zheshi_yige_ceshi_wenben zheshi_yige_ceshi_wenben
  = Ret None /\
  main_similarity [zhe; shi; yige; ceshi; wenben]
                  [zhe; shi; yi; ge; ceshi; wenben]
                  zheshi_yige_ceshi_wenben zheshi_yige_ceshi_wenben
  = Raise TypeError.
Proof. split; [intros; reflexivity|]. split; reflexivity. Qed.

(** C2: [word_frequency_match] is the greedy one-to-one consumption of the
    original's multiset by the candidate, read from left to right, divided by
    the length of the candidate; on the example of the specification it
    returns 0.75. *)
Theorem word_frequency_match_greedy :
  (forall original plagiarized,
     matched_count original plagiarized
     = greedy_match (list_to_set_disj original) plagiarized /\
     word_frequency_match original plagiarized
     = frequency_match_spec original plagiarized) /\
  word_frequency_match [zhe; shi; di_yi_ge; wenben] [zhe; shi; di_er_ge; wenben]
  = Ret 0.75%float.
Proof.
  split.
  - intros original plagiarized. split; [apply matched_count_greedy|].
    unfold word_frequency_match, frequency_match_spec.
    by rewrite matched_count_greedy.
  - vm_compute. reflexivity.
Qed.

(** C3: for non-empty strings the table of [edit_distance_similarity] holds,
    in cell (i, j), the Levenshtein distance between the first i and the
    first j characters; the function returns 1 minus the quotient of the
    distance of the whole strings by the length of the longer one. On the
    examples of the specification it returns 0.8, 0.5 and 0.0. *)
Theorem edit_distance_similarity_levenshtein :
  (forall a b, a <> [] -> b <> [] ->
     exists dp d q,
       edit_distance_table a b = Ret dp /\
       shaped (length a) (length b) dp /\
       (forall i j v, cell dp i j = Some v ->
          is_levenshtein (take i a) (take j b) v) /\
       cell dp (length a) (length b) = Some d /\
       is_levenshtein a b d /\
       PyFloat.int_truediv d
         (Z.max (Z.of_nat (length a)) (Z.of_nat (length b))) = Ret q /\
       edit_distance_similarity a b = Ret (PrimFloat.sub 1%float q)) /\
  edit_distance_similarity abcde abcxe = Ret 0x1.999999999999ap-1%float /\
  edit_distance_similarity nihao_shijie nihao_zhongguo = Ret 0.5%float /\
  edit_distance_similarity abc def = Ret 0%float.
Proof.
  split; [|by vm_compute].
  intros a b Ha Hb.
  destruct (edit_distance_table_spec a b) as (dp & Hdp & Hshape & Hcells).
  destruct (lev_quotient_unit a b Hb) as (q & Hq & _).
  exists dp, (lev a b), q. split; [done|]. split; [done|].
  split; [|split; [|split; [|split]]].
  - intros i j v Hv.
    assert (Hi : (i <= length a)%nat).
    { unfold cell in Hv. destruct (dp !! i) eqn:E; [|done].
      apply lookup_lt_Some in E. destruct Hshape as [Hlen _]. lia. }
    assert (Hj : (j <= length b)%nat).
    { unfold cell in Hv. destruct (dp !! i) as [row|] eqn:E; [|done].
      apply lookup_lt_Some in Hv. destruct Hshape as [_ Hrows].
      rewrite (Hrows _ _ E) in Hv. lia. }
    rewrite (Hcells i j Hi Hj) in Hv. injection Hv as <-.
    unfold target. rewrite lev_reverse. apply lev_is_levenshtein.
  - rewrite Hcells by lia. f_equal. apply target_full.
  - apply lev_is_levenshtein.
  - done.
  - rewrite edit_distance_similarity_nonempty by done. by rewrite Hq.
Qed.

Lemma edit_distance_similarity_levenshtein_witness :
  exists dp d q,
    edit_distance_table abcde abcxe = Ret dp /\
    shaped (length abcde) (length abcxe) dp /\
    (forall i j v, cell dp i j = Some v ->
       is_levenshtein (take i abcde) (take j abcxe) v) /\
    cell dp (length abcde) (length abcxe) = Some d /\
    is_levenshtein abcde abcxe d /\
    PyFloat.int_truediv d
      (Z.max (Z.of_nat (length abcde)) (Z.of_nat (length abcxe))) = Ret q /\
    edit_distance_similarity abcde abcxe = Ret (PrimFloat.sub 1%float q).
Proof.
  apply (proj1 edit_distance_similarity_levenshtein abcde abcxe); discriminate.
Defined.

(** Not every score of [cosine_similarity_score] lies in [0,1]. *)
Lemma cosine_score_can_exceed_one :
  ~ (forall get_synonyms original plagiarized,
       exists x,
         cosine_similarity_score get_synonyms original plagiarized = Ret x /\
         PyFloat.in_unit_interval x).
Proof.
  intros H.
  destruct (H no_synonyms [[97]; [98]; [99]] [[97]; [98]; [99]])
    as (x & Hx & _ & Hle).
  vm_compute in Hx. injection Hx as <-. vm_compute in Hle. discriminate.
Qed.

(** C4 (the code departs from it): every scorer is documented to return a
    value between 0 and 1. [word_frequency_match] does, for every pair of
    token lists, and [edit_distance_similarity] does, for every pair of
    strings. [cosine_similarity_score] never returns a negative value, but it
    can return more than 1: its result is the binary64 evaluation of
    dot / (sqrt(n1) * sqrt(n2)) for integers with 0 <= dot and
    dot * dot <= n1 * n2, unclamped, and for three distinct tokens without
    synonyms compared with themselves that is 1.0000000000000002. *)
Theorem scorer_ranges :
  (cosine_similarity_score no_synonyms [[97]; [98]; [99]] [[97]; [98]; [99]]
   = Ret 0x1.0000000000001p+0%float /\
   PrimFloat.leb 0x1.0000000000001p+0%float 1%float = false) /\
  (forall original plagiarized,
     exists x, word_frequency_match original plagiarized = Ret x /\
               PyFloat.in_unit_interval x) /\
  (forall original plagiarized,
     exists x, edit_distance_similarity original plagiarized = Ret x /\
               PyFloat.in_unit_interval x) /\
  (forall get_synonyms original plagiarized,
     match cosine_similarity_score get_synonyms original plagiarized with
     | Ret x => PrimFloat.leb 0%float x = true
     | Raise _ => True
     end) /\
  (forall get_synonyms original plagiarized,
     exists dot n1 n2,
       0 <= dot /\ 0 <= n1 /\ 0 <= n2 /\ dot * dot <= n1 * n2 /\
       cosine_similarity_score get_synonyms original plagiarized
       = if is_empty original || is_empty plagiarized then Ret 0%float
         else cosine_finish (dot, n1, n2)).
Proof.
  split; [split; by vm_compute|].
  split; [apply word_frequency_match_unit|].
  split; [apply edit_distance_similarity_unit|].
  split.
  - intros get_synonyms original plagiarized.
    destruct (cosine_similarity_score get_synonyms original plagiarized)
      as [x|e] eqn:E; [|done].
    by eapply cosine_similarity_score_nonneg.
  - intros get_synonyms original plagiarized.
    pose proof (cosine_parts_bounds get_synonyms original plagiarized) as Hb.
    unfold cosine_similarity_score.
    destruct (cosine_parts get_synonyms original plagiarized) as [[dot n1] n2].
    exists dot, n1, n2. tauto.
Qed.

(** C5: [edit_distance_similarity] and [cosine_similarity_score] do not
    change when their two arguments are exchanged; [word_frequency_match]
    does, for some token lists. *)
Theorem scorer_symmetry :
  (forall a b, edit_distance_similarity a b = edit_distance_similarity b a) /\
  (forall get_synonyms A B,
     cosine_similarity_score get_synonyms A B
     = cosine_similarity_score get_synonyms B A) /\
  (exists A B, word_frequency_match A B <> word_frequency_match B A).
Proof.
  split; [apply edit_distance_similarity_sym|].
  split; [apply cosine_similarity_score_sym|].
  exists [[97]], [[97]; [98]]. vm_compute. discriminate.
Qed.

(** C7 as stated fails: [calculate_similarity] does not reject empty input;
    called with four empty arguments it returns (the value [None]) instead of
    raising. *)
Lemma calculate_similarity_accepts_empty :
  ~ exists e, calculate_similarity [] [] [] [] = Raise e.
Proof. intros [e He]. discriminate He. Qed.

(** C7 (amended): each of the three scorers returns 0.0 without raising
    whenever either of its two inputs is empty; an empty token list or an
    empty normalized string, of either document, is rejected with
    [ValueError] by the validity check of [main], before
    [calculate_similarity] is called. *)
Theorem empty_input_handling :
  (forall tokens,
     word_frequency_match [] tokens = Ret 0%float /\
     word_frequency_match tokens [] = Ret 0%float) /\
  (forall get_synonyms tokens,
     cosine_similarity_score get_synonyms [] tokens = Ret 0%float /\
     cosine_similarity_score get_synonyms tokens [] = Ret 0%float) /\
  (forall s,
     edit_distance_similarity [] s = Ret 0%float /\
     edit_distance_similarity s [] = Ret 0%float) /\
  (forall tokens s,
     check_preprocessed [] s = Raise ValueError /\
     check_preprocessed tokens [] = Raise ValueError) /\
  (forall original_tokens plagiarized_tokens original_str plagiarized_str,
     is_empty original_tokens || is_empty original_str
     || is_empty plagiarized_tokens || is_empty plagiarized_str = true ->
     main_similarity original_tokens plagiarized_tokens
                     original_str plagiarized_str = Raise ValueError).
Proof.
  split; [|split; [|split; [|split]]].
  - intros tokens. split; [done|]. by destruct tokens.
  - intros get_synonyms tokens. split; [done|]. by destruct tokens.
  - intros s. split; [done|]. by destruct s.
  - intros tokens s. split; [done|]. by destruct tokens.
  - intros ot pt os ps H. unfold main_similarity, check_preprocessed.
    destruct ot, os; try done. destruct pt, ps; done.
Qed.

Lemma empty_input_handling_witness :
  main_similarity [abc] [] abc [] = Raise ValueError.
Proof.
  apply (proj2 (proj2 (proj2 (proj2 empty_input_handling)))). reflexivity.
Defined.

Lemma unicode_whitespace_code_points c :
  c ∈ unicode_whitespace <->
  9 <= c <= 13 \/ 28 <= c <= 32 \/ 0x2000 <= c <= 0x200a \/
  c ∈ [0x85; 0xa0; 0x1680; 0x2028; 0x2029; 0x202f; 0x205f; 0x3000].
Proof.
  unfold unicode_whitespace. rewrite !elem_of_cons, !elem_of_nil. lia.
Qed.

Lemma punctuation_code_points c :
  c ∈ punctuation <->
  33 <= c <= 47 \/ 58 <= c <= 64 \/ 91 <= c <= 96 \/ 123 <= c <= 126 \/
  c ∈ [0xff01; 0xff1f; 0x3002; 0xff0c; 0x3001; 0xff1b; 0xff1a;
       0x201c; 0x201d; 0x2018; 0x2019; 0xff08; 0xff09;
       0x3010; 0x3011; 0x300a; 0x300b].
Proof.
  unfold punctuation, cjk_punctuation.
  rewrite elem_of_app, string_punctuation_ascii.
  assert (33 <= c <= 126 /\ ~ (48 <= c <= 57) /\ ~ (65 <= c <= 90) /\
          ~ (97 <= c <= 122) <->
          33 <= c <= 47 \/ 58 <= c <= 64 \/ 91 <= c <= 96 \/ 123 <= c <= 126)
    as Hranges by lia.
  tauto.
Qed.

(** C8 as stated fails for the full-width marks: the list of the source
    also holds the semicolon U+FF1B (and the colon U+FF1A and the comma
    U+3001), which is not one of the marks that the claim lists (full stop,
    comma, exclamation and question marks, quotation marks, brackets); it is
    removed like them. *)
Lemma normalized_string_drops_semicolon :
  snd (preprocess_text sample_isalnum sample_lower sample_cut [97; 0xff1b; 98])
  = [97; 98].
Proof. reflexivity. Qed.

(** C8 (amended): the normalized string returned by [preprocess_text] is the
    input text without its punctuation and whitespace characters, and these
    are, by code point: the ASCII punctuation (U+0021-002F, U+003A-0040,
    U+005B-0060, U+007B-007E); the seventeen full-width marks of the source,
    that is the exclamation and question marks U+FF01 and U+FF1F, the full
    stop U+3002, the commas U+FF0C and U+3001, the semicolon U+FF1B and the
    colon U+FF1A, the quotation marks U+201C, U+201D, U+2018 and U+2019, and
    the brackets U+FF08, U+FF09, U+3010, U+3011, U+300A and U+300B; and the
    whitespace, U+0009-000D, U+001C-0020, U+0085, U+00A0, U+1680,
    U+2000-200A, U+2028, U+2029, U+202F, U+205F and U+3000. Every other
    character stays, unchanged (no lowercasing) and in its place among those
    that stay. *)
Theorem normalized_string_spec isalnum lower jieba_cut (text : pystr) :
  snd (preprocess_text isalnum lower jieba_cut text)
  = filter
      (fun c =>
         ~ (33 <= c <= 47 \/ 58 <= c <= 64 \/ 91 <= c <= 96 \/
            123 <= c <= 126 \/
            c ∈ [0xff01; 0xff1f; 0x3002; 0xff0c; 0x3001; 0xff1b; 0xff1a;
                 0x201c; 0x201d; 0x2018; 0x2019; 0xff08; 0xff09;
                 0x3010; 0x3011; 0x300a; 0x300b] \/
            9 <= c <= 13 \/ 28 <= c <= 32 \/ 0x2000 <= c <= 0x200a \/
            c ∈ [0x85; 0xa0; 0x1680; 0x2028; 0x2029; 0x202f; 0x205f;
                 0x3000]))
      text /\
  sublist (snd (preprocess_text isalnum lower jieba_cut text)) text.
Proof.
  assert (E : snd (preprocess_text isalnum lower jieba_cut text)
              = filter (fun c => (c ∉ unicode_whitespace) /\ (c ∉ punctuation))
                       text).
  { unfold preprocess_text. destruct text as [|c text]; [done|].
    simpl is_empty. cbv iota. simpl snd.
    unfold edit_string, remove_whitespace, translate_delete.
    apply list_filter_filter. }
  split.
  - rewrite E. apply list_filter_iff. intros c.
    rewrite unicode_whitespace_code_points, punctuation_code_points. tauto.
  - rewrite E. apply sublist_filter.
Qed.

(** C10: [preprocess_text] of the empty string returns the empty token list
    and the empty string, without raising. *)
Theorem preprocess_text_empty isalnum lower jieba_cut :
  preprocess_text isalnum lower jieba_cut [] = ([], []).
Proof. reflexivity. Qed.

(** ** read_file *)

Section ReadFileFacts.

Variable decode : encoding -> list Z -> pyres pystr.

Lemma try_encodings_first_success data earlier enc later text :
  (forall e, e ∈ earlier -> decode e data = Raise UnicodeDecodeError) ->
  decode enc data = Ret text ->
  try_encodings decode (earlier ++ enc :: later) data = check_content text.
Proof.
  intros Hfail Hok. induction earlier as [|e earlier IH]; simpl.
  - by rewrite Hok.
  - rewrite (Hfail e) by left. apply IH. intros e' He'. apply Hfail. by right.
Qed.

End ReadFileFacts.

Lemma text_mode_read_first tables data :
  try_encodings (text_mode_read tables) encodings data
  = check_content (universal_newlines (utf_8_replace data)).
Proof. reflexivity. Qed.

(** C9 fails in the code: [read_file] lists the encodings utf-8, utf-8-sig,
    gbk, gb2312, ISO-8859-1, latin-1 in this order, and its loop would pass
    to the next one on [UnicodeDecodeError]; but it opens the file with
    [errors='replace'], and no decoding with that handler raises. The first
    decoding, utf-8, therefore always decides (as it does for any decoder
    that does not raise [UnicodeDecodeError]), whatever the bytes and
    whatever the other codecs would give: a file in GBK is returned as
    U+FFFD characters. *)
Theorem read_file_fallback_unreachable :
  encodings = [utf_8; utf_8_sig; gbk; gb2312; iso_8859_1; latin_1] /\
  (forall decode data earlier enc later text,
     encodings = earlier ++ enc :: later ->
     (forall e, e ∈ earlier -> decode e data = Raise UnicodeDecodeError) ->
     decode enc data = Ret text ->
     read_file decode data
     = if is_empty (remove_char 32 (remove_char 10 (remove_char 13 (strip text))))
       then Raise (WrappedException ValueError)
       else Ret (strip text)) /\
  (forall decode data,
     decode utf_8 data <> Raise UnicodeDecodeError ->
     read_file decode data
     = match text ← decode utf_8 data; check_content text with
       | Ret content => Ret content
       | Raise e => Raise (WrappedException e)
       end) /\
  (forall tables enc data,
     exists text, text_mode_read tables enc data = Ret text) /\
  (forall tables data,
     read_file (text_mode_read tables) data
     = match check_content (universal_newlines (utf_8_replace data)) with
       | Ret content => Ret content
       | Raise e => Raise (WrappedException e)
       end) /\
  text_mode_read sample_tables gbk gbk_nihao = Ret nihao /\
  read_file (text_mode_read sample_tables) gbk_nihao
  = Ret [replacement_character; replacement_character; replacement_character].
Proof.
  split; [reflexivity|]. split; [|split; [|split; [|split; [|split]]]].
  - intros decode data earlier enc later text Hsplit Hfail Hok.
    unfold read_file.
    rewrite Hsplit, (try_encodings_first_success decode data _ _ _ text Hfail Hok).
    unfold check_content.
    by destruct (is_empty _).
  - intros decode data Hreplace. unfold read_file, encodings.
    cbn [try_encodings].
    destruct (decode utf_8 data) as [text|e]; [done|].
    by destruct e.
  - intros tables enc data. by eexists.
  - intros tables data. unfold read_file.
    by rewrite text_mode_read_first.
  - reflexivity.
  - reflexivity.
Qed.

(** * Roundings to binary64: what they keep, and how far they move

    Used by the claim on the comparison of a text with itself, and by the
    further properties of the scorers. *)

(** ** Bounds that the rounding keeps *)

Module Binary64Bounds.

Import Binary64 Binary64Facts.

Lemma pow2_le_inv a b : 0 <= b -> 2 ^ a <= 2 ^ b -> a <= b.
Proof.
  intros Hb H. destruct (Z_lt_le_dec b a) as [Hlt|]; [|done].
  assert (2 ^ b < 2 ^ a) by (apply Z.pow_lt_mono_r; lia). lia.
Qed.

Lemma above_one m e : above_pow2 0 m e <-> at_least_one m e.
Proof. unfold above_pow2, at_least_one. by rewrite Z.sub_0_l. Qed.

(** A value that is at least [2 ^ k] is rounded to at least [2 ^ k]. *)
Lemma bra_above k mx ex lx :
  -1074 <= k -> 0 <= mx -> ex <= fexp64 (Zdigits2 mx + ex) ->
  above_pow2 k mx ex ->
  exists m3 e3,
    bra64 false mx ex lx = bra_result false m3 e3 /\ above_pow2 k m3 e3 /\
    valid_binary (bra_result false m3 e3) = true /\
    e3 <= fexp64 (Zdigits2 mx + ex) + 1.
Proof.
  intros Hk Hmx Hex [Hpos Hone].
  destruct (bra_spec false mx ex lx Hmx Hex)
    as (m2 & m3 & e3 & Hm2 & Hcarry & Hc & Hm3 & Hr).
  pose proof (first_shift_range mx ex Hmx Hex) as Hrange. simpl in Hrange.
  set (e1 := fexp64 (Zdigits2 mx + ex)) in *.
  set (m1 := mx / 2 ^ (e1 - ex)) in *.
  assert (0 < 2 ^ (e1 - ex)) by (apply Z.pow_pos_nonneg; lia).
  assert (H1 : above_pow2 k m1 e1).
  { destruct (Z_lt_le_dec e1 k) as [Hlt|Hge].
    - assert (2 ^ (k - e1) <= m1).
      { apply Z.div_le_lower_bound; [lia|].
        destruct Hone as [?|Hone]; [lia|].
        rewrite <- pow2_split by lia.
        by replace (e1 - ex + (k - e1)) with (k - ex) by lia. }
      assert (0 < 2 ^ (k - e1)) by (apply Z.pow_pos_nonneg; lia).
      split; [lia|by right].
    - split; [|by left]. destruct Hrange as [[_ ?]|[He1 _]]; [lia|].
      assert (k = -1074) as -> by lia.
      destruct Hone as [?|Hone].
      + assert (ex = e1) as Heq by lia. unfold m1. rewrite Heq, Z.sub_diag.
        simpl. rewrite Z.div_1_r. lia.
      + assert (1 <= m1); [|lia]. apply Z.div_le_lower_bound; [lia|].
        rewrite He1. by rewrite Z.mul_1_r. }
  assert (H2 : above_pow2 k m2 e1).
  { destruct H1 as [? [?|?]].
    - split; [|by left]. destruct Hm2 as [->|[-> _]]; lia.
    - split; [|right]; destruct Hm2 as [->|[-> _]]; lia. }
  exists m3, e3. split; [done|].
  split; [|split; [apply bra_result_valid; [lia|done]|lia]].
  destruct Hcarry as [[-> ->]|(E2 & -> & ->)]; [done|].
  split; [lia|]. destruct H2 as [_ [?|H2]]; [left; lia|].
  rewrite E2 in H2.
  destruct (Z_lt_le_dec (e1 + 1) k); [right|left; lia].
  apply pow2_le_inv in H2; [|lia].
  apply Z.pow_le_mono_r; lia.
Qed.

Lemma bra_result_ge_one m3 e3 :
  at_least_one m3 e3 -> ge_one (bra_result false m3 e3).
Proof.
  intros [Hm He]. destruct m3 as [|p|p]; [lia| |lia]. unfold bra_result.
  by destruct (e3 <=? 971).
Qed.

(** A value that is at least one is rounded to at least one. *)
Lemma bra_ge_one mx ex lx :
  0 <= mx -> ex <= fexp64 (Zdigits2 mx + ex) -> at_least_one mx ex ->
  exists m3 e3,
    bra64 false mx ex lx = bra_result false m3 e3 /\ at_least_one m3 e3 /\
    valid_binary (bra_result false m3 e3) = true /\
    e3 <= fexp64 (Zdigits2 mx + ex) + 1.
Proof.
  intros Hmx Hex H1. apply above_one in H1.
  destruct (bra_above 0 mx ex lx) as (m3 & e3 & Hr & H3 & Hv & He);
    [lia|done|done|done|].
  apply above_one in H3. by exists m3, e3.
Qed.

(** A valid number that is at least one is normal: its mantissa has 53
    digits. *)
Lemma ge_one_normal m e :
  valid_binary (S754_finite false m e) = true -> at_least_one (Zpos m) e ->
  2 ^ 52 <= Zpos m /\ -52 <= e.
Proof.
  intros Hv [_ Hone]. simpl in Hv. unfold bounded, canonical_mantissa in Hv.
  apply andb_true_iff in Hv as [Hc _]. apply Z.eqb_eq in Hc.
  rewrite fexp64_eq in Hc.
  pose proof (digits2_pos_bounds m) as [Hlo Hhi].
  assert (1 <= Zpos (digits2_pos m) + e).
  { destruct Hone as [?|Hone]; [lia|].
    assert (2 ^ (- e) < 2 ^ Zpos (digits2_pos m)) as Hlt by lia.
    apply Z.pow_lt_mono_r_iff in Hlt; lia. }
  assert (Zpos (digits2_pos m) = 53) as Hd by lia.
  rewrite Hd in Hlo. simpl in Hlo. lia.
Qed.

Lemma sqrt_core_ge_one m e :
  at_least_one (Zpos m) e ->
  exists q e' l,
    SFsqrt_core_binary prec emax (Zpos m) e = (q, e', l) /\
    0 <= q /\ e' <= fexp64 (Zdigits2 q + e') /\ at_least_one q e'.
Proof.
  intros [_ Hone]. unfold SFsqrt_core_binary.
  set (d := Zdigits2 (Zpos m)).
  set (e' := Z.min (fexp64 (Z.div2 (d + e + 1))) (Z.div2 e)).
  pose proof (Zdigits2_pos (Zpos m) ltac:(lia)) as Hd. fold d in Hd.
  assert (He' : 2 * e' <= e).
  { unfold e'. rewrite (Z.div2_div e).
    pose proof (Z.div_mod e 2 ltac:(lia)).
    pose proof (Z.mod_pos_bound e 2 ltac:(lia)). lia. }
  assert (Hf : e' <= fexp64 (Z.div2 (d + e + 1))) by (unfold e'; lia).
  set (s := e - 2 * e') in *.
  set (m' := match s with 0 => Zpos m | Zpos _ => Z.shiftl (Zpos m) s
                     | Zneg _ => 0 end).
  assert (Hm' : m' = Zpos m * 2 ^ s).
  { unfold m'. destruct s as [|p|p] eqn:Es; [simpl; lia| |lia].
    apply Z.shiftl_mul_pow2. lia. }
  assert (0 < 2 ^ s) by (apply Z.pow_pos_nonneg; lia).
  assert (Hpos : 0 < m') by nia.
  pose proof (Z.sqrtrem_spec m' ltac:(lia)) as Hs.
  destruct (Z.sqrtrem m') as [q r]. destruct Hs as [Hs Hr].
  eexists q, e', _. split; [reflexivity|].
  assert (Hq0 : 0 <= q) by lia.
  assert (Hroot : forall k, 0 <= k -> 2 ^ k * 2 ^ k <= m' -> 2 ^ k <= q).
  { intros k Hk Hle. assert (0 < 2 ^ k) by (apply Z.pow_pos_nonneg; lia).
    destruct (Z_lt_le_dec q (2 ^ k)); [exfalso; nia|done]. }
  pose proof (Zdigits2_bounds m' Hpos) as [Dlo _].
  rewrite Hm', Zdigits2_mul_pow2 in Dlo by lia. fold d in Dlo.
  rewrite <- Hm' in Dlo.
  set (k := (d + s - 1) / 2).
  pose proof (Z.div_mod (d + s - 1) 2 ltac:(lia)) as Hk1.
  pose proof (Z.mod_pos_bound (d + s - 1) 2 ltac:(lia)) as Hk2. fold k in Hk1.
  assert (Hk : 0 <= k) by lia.
  assert (Hqk : 2 ^ k <= q).
  { apply Hroot; [done|]. rewrite <- pow2_split by lia.
    assert (2 ^ (k + k) <= 2 ^ (d + s - 1)) by (apply Z.pow_le_mono_r; lia).
    lia. }
  assert (0 < 2 ^ k) by (apply Z.pow_pos_nonneg; lia).
  split; [done|]. split.
  - assert (k + 1 <= Zdigits2 q).
    { apply Zdigits2_ge; [|lia]. by replace (k + 1 - 1) with k by lia. }
    rewrite fexp64_eq in *. rewrite (Z.div2_div (d + e + 1)) in Hf.
    pose proof (Z.div_mod (d + e + 1) 2 ltac:(lia)).
    pose proof (Z.mod_pos_bound (d + e + 1) 2 ltac:(lia)).
    unfold s in *. lia.
  - split; [lia|]. destruct (Z_lt_le_dec e' 0) as [Hneg|]; [right|by left].
    apply Hroot; [lia|]. rewrite <- pow2_split by lia. rewrite Hm'.
    destruct Hone as [Hnn|Hone].
    + assert (2 ^ (- e' + - e') <= 2 ^ s)
        by (apply Z.pow_le_mono_r; unfold s; lia).
      nia.
    + destruct (Z_lt_le_dec e 0) as [He|He].
      * replace (- e' + - e') with (- e + s) by (unfold s; lia).
        rewrite pow2_split by lia. nia.
      * assert (2 ^ (- e' + - e') <= 2 ^ s)
          by (apply Z.pow_le_mono_r; unfold s; lia).
        nia.
Qed.

Lemma mul_at_least_one mx ex my ey :
  at_least_one mx ex -> at_least_one my ey ->
  at_least_one (mx * my) (ex + ey).
Proof.
  intros [Hx Hex] [Hy Hey]. split; [nia|].
  destruct (Z_lt_le_dec (ex + ey) 0) as [Hneg|]; [right|by left].
  destruct (Z_lt_le_dec ex 0) as [Hx0|Hx0], (Z_lt_le_dec ey 0) as [Hy0|Hy0];
    try lia.
  - destruct Hex as [?|Hex]; [lia|]. destruct Hey as [?|Hey]; [lia|].
    replace (- (ex + ey)) with (- ex + - ey) by lia.
    rewrite pow2_split by lia.
    assert (0 < 2 ^ (- ex)) by (apply Z.pow_pos_nonneg; lia).
    assert (0 < 2 ^ (- ey)) by (apply Z.pow_pos_nonneg; lia). nia.
  - destruct Hex as [?|Hex]; [lia|].
    assert (2 ^ (- (ex + ey)) <= 2 ^ (- ex)) by (apply Z.pow_le_mono_r; lia).
    nia.
  - destruct Hey as [?|Hey]; [lia|].
    assert (2 ^ (- (ex + ey)) <= 2 ^ (- ey)) by (apply Z.pow_le_mono_r; lia).
    nia.
Qed.

(** A value that is at most [1 - 2 ^ -53] is rounded to less than one. *)
Lemma bra_lt_one mx ex lx :
  0 <= mx -> ex <= fexp64 (Zdigits2 mx + ex) -> ex <= -53 ->
  mx + (if inexact lx then 1 else 0) <= (2 ^ 53 - 1) * 2 ^ (-53 - ex) ->
  exists m3 e3,
    bra64 false mx ex lx = bra_result false m3 e3 /\
    0 <= m3 /\ e3 <= -53 /\
    valid_binary (bra_result false m3 e3) = true.
Proof.
  intros Hmx Hex Hex0 Hle.
  destruct (bra_spec false mx ex lx Hmx Hex)
    as (m2 & m3 & e3 & Hm2 & Hcarry & Hc & Hm3 & Hr).
  set (e1 := fexp64 (Zdigits2 mx + ex)) in *.
  set (sh := e1 - ex) in *.
  assert (Hsh : 0 <= sh) by (unfold sh; lia).
  assert (0 < 2 ^ (-53 - ex)) by (apply Z.pow_pos_nonneg; lia).
  assert (Hlt : mx < 2 ^ (- ex)).
  { replace (- ex) with (53 + (-53 - ex)) by lia. rewrite pow2_split by lia.
    destruct (inexact lx); lia. }
  assert (He1 : e1 <= -53).
  { unfold e1. rewrite fexp64_eq.
    assert (Hmx' : mx = 0 \/ 0 < mx) by lia. destruct Hmx' as [->|Hpos].
    - simpl. lia.
    - pose proof (Zdigits2_le mx (- ex) Hpos Hlt). lia. }
  assert (Hpow : 2 ^ (-53 - ex) = 2 ^ sh * 2 ^ (-53 - e1)).
  { rewrite <- pow2_split by lia. f_equal. unfold sh. lia. }
  assert (0 < 2 ^ sh) by (apply Z.pow_pos_nonneg; lia).
  assert (0 < 2 ^ (-53 - e1)) by (apply Z.pow_pos_nonneg; lia).
  set (K1 := (2 ^ 53 - 1) * 2 ^ (-53 - e1)).
  assert (HK : (2 ^ 53 - 1) * 2 ^ (-53 - ex) = K1 * 2 ^ sh)
    by (unfold K1; rewrite Hpow; lia).
  assert (Hm2' : m2 <= K1).
  { destruct Hm2 as [->|[-> Hinex]].
    - apply Z.div_le_upper_bound; [lia|]. destruct (inexact lx); lia.
    - assert (mx < K1 * 2 ^ sh).
      { destruct Hinex as [Hin|Hmod]; [rewrite Hin in Hle; lia|].
        assert (mx <> K1 * 2 ^ sh); [|destruct (inexact lx); lia].
        intros Heq. apply Hmod. rewrite Heq. apply Z.mod_mul. lia. }
      assert (mx / 2 ^ sh < K1) by (apply Z.div_lt_upper_bound; lia).
      lia. }
  exists m3, e3. split; [done|]. split; [lia|].
  split; [|apply bra_result_valid; [lia|done]].
  destruct Hcarry as [[-> ->]|(E2 & -> & ->)]; [done|].
  destruct (Z.eq_dec e1 (-53)) as [E|]; [|lia].
  exfalso. unfold K1 in Hm2'. rewrite E in Hm2'. simpl in Hm2'. lia.
Qed.

Lemma bra_result_lt_one m3 e3 :
  0 <= m3 -> e3 <= -53 -> SFltb (bra_result false m3 e3) sf_one = true.
Proof.
  intros Hm He. destruct m3 as [|p|p]; [done| |lia]. unfold bra_result.
  replace (e3 <=? 971) with true by (symmetry; apply Z.leb_le; lia).
  unfold SFltb, SFcompare, sf_one.
  by destruct (Z.compare_spec e3 (-52)) as [?|?|?]; [lia| |lia].
Qed.

End Binary64Bounds.

Module PyFloatBounds.

Import Binary64 Binary64Facts Binary64Bounds.

Lemma binary_round_ge_one p :
  exists m3 e3,
    binary_round prec emax false p 0 = bra_result false m3 e3 /\
    at_least_one m3 e3 /\ valid_binary (bra_result false m3 e3) = true /\
    e3 <= fexp64 (Zdigits2 (Zpos p)) + 1.
Proof.
  destruct (binary_round_unfold false p 0) as (mz & ez & -> & Hpre & Hez & Hmz).
  assert (0 < 2 ^ (0 - ez)) by (apply Z.pow_pos_nonneg; lia).
  destruct (bra_ge_one (Zpos mz) ez loc_Exact) as (m3 & e3 & H1 & H2 & H3 & H4);
    [lia|done| |].
  { split; [lia|]. destruct (Z_lt_le_dec ez 0); [right|by left].
    rewrite Hmz. replace (0 - ez) with (- ez) by lia. nia. }
  exists m3, e3. split; [done|]. split; [done|]. split; [done|].
  rewrite Hmz, Zdigits2_mul_pow2 in H4 by lia.
  by replace (Zdigits2 (Zpos p) + (0 - ez) + ez) with (Zdigits2 (Zpos p))
    in H4 by lia.
Qed.

(** [float(n)] of a positive [int], when it returns, is at least one. *)
Lemma of_int_ge_one n x :
  1 <= n -> PyFloat.of_int n = Ret x -> ge_one (Prim2SF x).
Proof.
  intros Hn. unfold PyFloat.of_int, binary_normalize.
  destruct n as [|p|p]; [lia| |lia].
  destruct (binary_round_ge_one p) as (m3 & e3 & -> & Hone & Hv & _).
  pose proof (bra_result_ge_one m3 e3 Hone) as Hge.
  destruct Hone as [Hpos _]. destruct m3 as [|m|m]; [lia| |lia].
  unfold bra_result in *. destruct (e3 <=? 971); [|done].
  intros Heq.
  assert (x = SF2Prim (S754_finite false m e3)) as -> by congruence.
  by rewrite Prim2SF_SF2Prim.
Qed.

(** [float(n)] returns for [0 <= n < 2 ^ 1023]. *)
Lemma of_int_returns n :
  0 <= n < 2 ^ 1023 -> exists x, PyFloat.of_int n = Ret x.
Proof.
  intros [Hn Hlt]. unfold PyFloat.of_int, binary_normalize.
  destruct n as [|p|p]; [by eexists| |lia].
  destruct (binary_round_ge_one p) as (m3 & e3 & -> & [Hpos _] & _ & He3).
  pose proof (Zdigits2_le (Zpos p) 1023 ltac:(lia) Hlt) as Hd.
  rewrite fexp64_eq in He3.
  destruct m3 as [|m|m]; [lia| |lia]. unfold bra_result.
  replace (e3 <=? 971) with true by (symmetry; apply Z.leb_le; lia).
  by eexists.
Qed.

Lemma sqrt_ge_one x :
  ge_one (Prim2SF x) -> ge_one (Prim2SF (PrimFloat.sqrt x)).
Proof.
  rewrite sqrt_spec. unfold SF64sqrt, SFsqrt.
  destruct (Prim2SF x) as [s|[]| |[] m e]; try done.
  intros Hone. cbn [ge_one] in Hone.
  destruct (sqrt_core_ge_one m e Hone) as (q & e' & l & -> & Hq & Hpre & Hq1).
  destruct (bra_ge_one q e' l Hq Hpre Hq1) as (m3 & e3 & -> & H3 & _).
  by apply bra_result_ge_one.
Qed.

Lemma mul_ge_one x y :
  ge_one (Prim2SF x) -> ge_one (Prim2SF y) ->
  ge_one (Prim2SF (PrimFloat.mul x y)).
Proof.
  rewrite mul_spec. unfold SF64mul, SFmul.
  pose proof (Prim2SF_valid x) as Hvx. pose proof (Prim2SF_valid y) as Hvy.
  destruct (Prim2SF x) as [sx|[]| |[] mx ex]; try done;
    destruct (Prim2SF y) as [sy|[]| |[] my ey]; try done.
  cbn [ge_one xorb]. intros Hx Hy.
  destruct (ge_one_normal mx ex Hvx Hx) as [Hmx _].
  destruct (ge_one_normal my ey Hvy Hy) as [Hmy _].
  destruct (bra_ge_one (Zpos (mx * my)) (ex + ey) loc_Exact)
    as (m3 & e3 & -> & H3 & _); [lia| | |by apply bra_result_ge_one].
  - rewrite Pos2Z.inj_mul.
    assert (105 <= Zdigits2 (Zpos mx * Zpos my)).
    { apply Zdigits2_ge; [|lia].
      change (2 ^ (105 - 1)) with (2 ^ 52 * 2 ^ 52). nia. }
    rewrite fexp64_eq. lia.
  - rewrite Pos2Z.inj_mul. by apply mul_at_least_one.
Qed.

Lemma ge_one_nonzero x :
  ge_one (Prim2SF x) -> PrimFloat.eqb x 0%float = false.
Proof.
  rewrite FloatAxioms.eqb_spec, Prim2SF_zero.
  by destruct (Prim2SF x) as [[]|[]| |[] m e].
Qed.

(** [0.0 / y] is [0.0] for [1 <= y]. *)
Lemma div_zero_ge_one y :
  ge_one (Prim2SF y) -> PrimFloat.div 0%float y = 0%float.
Proof.
  intros Hy. apply Prim2SF_inj. rewrite div_spec, Prim2SF_zero.
  unfold SF64div, SFdiv. by destruct (Prim2SF y) as [[]|[]| |[] m e].
Qed.

(** The quotient of two positive integers [a <= b], as it is handed to the
    rounding. *)
Lemma int_truediv_core a b :
  0 < a -> a <= b ->
  exists e Q r,
    PyFloat.int_truediv a b
    = match bra64 false Q e (new_location b r) with
      | S754_infinity _ => Raise OverflowError
      | x => Ret (SF2Prim x)
      end /\
    e <= -53 /\ 0 <= Q /\ e <= fexp64 (Zdigits2 Q + e) /\
    a * 2 ^ (- e) = b * Q + r /\ 0 <= r < b /\
    (inexact (new_location b r) = true -> r <> 0).
Proof.
  intros Ha Hab. unfold PyFloat.int_truediv.
  replace (b =? 0) with false by (symmetry; apply Z.eqb_neq; lia).
  replace (a <? 0) with false by (symmetry; apply Z.ltb_ge; lia).
  replace (b <? 0) with false by (symmetry; apply Z.ltb_ge; lia).
  replace (a =? 0) with false by (symmetry; apply Z.eqb_neq; lia).
  simpl xorb. rewrite !Z.abs_eq by lia.
  rewrite div_core_unfold by lia.
  set (e := Z.min (fexp64 (Zdigits2 a - Zdigits2 b)) 0).
  set (q := a * 2 ^ (- e) / b).
  set (r := (a * 2 ^ (- e)) mod b).
  exists e, q, r. split; [done|].
  pose proof (Zdigits2_bounds a ltac:(lia)) as [Alo Ahi].
  pose proof (Zdigits2_bounds b ltac:(lia)) as [Blo Bhi].
  pose proof (Zdigits2_pos a ltac:(lia)) as Apos.
  pose proof (Zdigits2_pos b ltac:(lia)) as Bpos.
  assert (Hdd : Zdigits2 a <= Zdigits2 b) by (apply Zdigits2_le; lia).
  assert (He : e <= -53) by (unfold e; rewrite fexp64_eq; lia).
  assert (Hpow : 0 < 2 ^ (- e)) by (apply Z.pow_pos_nonneg; lia).
  assert (Hdm : a * 2 ^ (- e) = b * q + r /\ 0 <= r < b).
  { split; [apply Z.div_mod; lia|apply Z.mod_pos_bound; lia]. }
  destruct Hdm as [Hdiv Hr].
  assert (Hq0 : 0 <= q) by (apply Z.div_pos; nia).
  split; [done|]. split; [done|]. split; [|split; [done|split; [done|]]].
  - rewrite fexp64_eq. unfold e at 1. rewrite fexp64_eq.
    destruct (Z_le_gt_dec (-1074) (Zdigits2 a - Zdigits2 b - 53)) as [Hn|Hs];
      [|lia].
    assert (He' : e = Zdigits2 a - Zdigits2 b - 53)
      by (unfold e; rewrite fexp64_eq; lia).
    assert (2 ^ 52 <= q).
    { apply Z.div_le_lower_bound; [lia|].
      rewrite He'.
      replace (- (Zdigits2 a - Zdigits2 b - 53))
        with (53 + (Zdigits2 b - Zdigits2 a)) by lia.
      assert (2 ^ (Zdigits2 a - 1) * 2 ^ (53 + (Zdigits2 b - Zdigits2 a))
              = 2 ^ Zdigits2 b * 2 ^ 52).
      { rewrite <- !pow2_split by lia. f_equal. lia. }
      assert (0 < 2 ^ (53 + (Zdigits2 b - Zdigits2 a)))
        by (apply Z.pow_pos_nonneg; lia).
      nia. }
    pose proof (Zdigits2_ge q 53 ltac:(simpl; lia) ltac:(lia)). lia.
  - intros Ein Hr0. by rewrite (new_location_exact b r Hr0) in Ein.
Qed.

(** [a / b < 1.0] for [0 <= a < b < 2 ^ 53]. *)
Lemma int_truediv_lt_one a b :
  0 <= a < b -> b < 2 ^ 53 ->
  exists q, PyFloat.int_truediv a b = Ret q /\
            PrimFloat.ltb q 1%float = true.
Proof.
  intros [Ha Hab] Hb.
  destruct (Z.eq_dec a 0) as [->|Hne].
  { exists 0%float. split; [by apply PyFloatFacts.int_truediv_zero|done]. }
  destruct (int_truediv_core a b ltac:(lia) ltac:(lia))
    as (e & Q & r & -> & He & HQ & Hpre & Hdiv & Hr & Hin).
  assert (0 < 2 ^ (-53 - e)) by (apply Z.pow_pos_nonneg; lia).
  assert (Hpow : 2 ^ (- e) = 2 ^ 53 * 2 ^ (-53 - e)).
  { rewrite <- pow2_split by lia. f_equal. lia. }
  destruct (bra_lt_one Q e (new_location b r) HQ Hpre He)
    as (m3 & e3 & -> & Hm3 & He3 & Hv).
  { set (P := 2 ^ (-53 - e)) in *.
    assert (Q < (2 ^ 53 - 1) * P) by (rewrite Hpow in Hdiv; nia).
    destruct (inexact (new_location b r)); lia. }
  pose proof (bra_result_lt_one m3 e3 Hm3 He3) as Hlt.
  exists (SF2Prim (bra_result false m3 e3)). split.
  - destruct m3 as [|p|p]; [done| |lia]. unfold bra_result in *.
    by destruct (e3 <=? 971).
  - by rewrite ltb_spec, Prim2SF_SF2Prim, Prim2SF_one.
Qed.

(** [2 ^ -53 <= a / b] for [1 <= a <= b < 2 ^ 53]. *)
Lemma int_truediv_ge_ulp a b :
  1 <= a <= b -> b < 2 ^ 53 ->
  exists q, PyFloat.int_truediv a b = Ret q /\ ge_ulp (Prim2SF q) /\
            PyFloat.in_unit_interval q.
Proof.
  intros [Ha Hab] Hb.
  destruct (PyFloatFacts.int_truediv_unit a b ltac:(lia) ltac:(lia))
    as (q & Hq & Hunit).
  exists q. split; [done|]. split; [|done]. revert Hq.
  destruct (int_truediv_core a b ltac:(lia) ltac:(lia))
    as (e & Q & r & -> & He & HQ & Hpre & Hdiv & Hr & Hin).
  assert (0 < 2 ^ (-53 - e)) by (apply Z.pow_pos_nonneg; lia).
  assert (Hpow : 2 ^ (- e) = 2 ^ 53 * 2 ^ (-53 - e)).
  { rewrite <- pow2_split by lia. f_equal. lia. }
  destruct (bra_above (-53) Q e (new_location b r))
    as (m3 & e3 & -> & [Hm3 Hab3] & Hv & _); [lia|done|done| |].
  { set (P := 2 ^ (-53 - e)) in *.
    assert (P <= Q) by (rewrite Hpow in Hdiv; nia).
    split; [lia|right]. by replace (-53 - e) with (-53 - e) by lia. }
  destruct m3 as [|p|p]; [lia| |lia]. unfold bra_result in *.
  destruct (e3 <=? 971); [|done].
  intros Heq.
  assert (q = SF2Prim (S754_finite false p e3)) as -> by congruence.
  by rewrite Prim2SF_SF2Prim.
Qed.

(** [1 - q < 1.0] for [2 ^ -53 <= q <= 1]. *)
Lemma sub_one_lt_one q :
  ge_ulp (Prim2SF q) -> PyFloat.in_unit_interval q ->
  PrimFloat.ltb (PrimFloat.sub 1%float q) 1%float = true.
Proof.
  unfold PyFloat.in_unit_interval.
  rewrite ltb_spec, !leb_spec, sub_spec, Prim2SF_one, Prim2SF_zero.
  pose proof (Prim2SF_valid q) as Hv.
  destruct (Prim2SF q) as [s|s| |[] m e]; try done.
  intros [Hpos Hge] [_ H1].
  assert (He : e <= -52 /\ Zpos m <= 2 ^ (- e) /\
               (e = -52 -> Zpos m = 2 ^ (- e))).
  { unfold SFleb, SFcompare, sf_one in H1.
    simpl in Hv. unfold bounded, canonical_mantissa in Hv.
    apply andb_true_iff in Hv as [Hc _]. apply Z.eqb_eq in Hc.
    rewrite fexp64_eq in Hc.
    pose proof (digits2_pos_bounds m) as [Hlo Hhi].
    destruct (Z.compare_spec e (-52)) as [->|Hlt|Hgt]; [| |done].
    - assert (Zpos (digits2_pos m) = 53) as Hd by lia.
      rewrite Hd in Hlo. change (2 ^ (53 - 1)) with (2 ^ 52) in Hlo.
      change (- -52) with 52.
      rewrite Pos.compare_cont_spec in H1.
      destruct (Pos.compare_spec m 4503599627370496) as [->|Hl|Hg];
        simpl in H1; [done| |done].
      apply Pos2Z.pos_lt_pos in Hl.
      change (Z.pos 4503599627370496) with (2 ^ 52) in Hl. lia.
    - split; [lia|]. split; [|lia].
      assert (2 ^ Zpos (digits2_pos m) <= 2 ^ (- e))
        by (apply Z.pow_le_mono_r; lia).
      lia. }
  destruct He as (He & Hm & He52). rewrite PyFloatFacts.sub_one_finite by done.
  destruct (2 ^ (- e) - Zpos m) as [|n|n] eqn:En; [done| |lia].
  assert (He' : e <= -53) by lia.
  simpl binary_normalize.
  destruct (binary_round_unfold false n e) as (mz & ez & -> & Hpre & Hez & Hmz).
  assert (0 < 2 ^ (-53 - e)) by (apply Z.pow_pos_nonneg; lia).
  assert (0 < 2 ^ (e - ez)) by (apply Z.pow_pos_nonneg; lia).
  assert (Hm' : 2 ^ (-53 - e) <= Zpos m).
  { destruct Hge as [?|?]; [|done]. assert (e = -53) as -> by lia.
    simpl. lia. }
  assert (Hpow : 2 ^ (- e) = 2 ^ 53 * 2 ^ (-53 - e)).
  { rewrite <- pow2_split by lia. f_equal. lia. }
  destruct (bra_lt_one (Zpos mz) ez loc_Exact)
    as (m3 & e3 & -> & Hm3 & He3 & _); [lia|done|lia| |].
  { simpl inexact. rewrite Z.add_0_r, Hmz.
    replace (-53 - ez) with (-53 - e + (e - ez)) by lia.
    rewrite pow2_split by lia.
    set (P := 2 ^ (-53 - e)) in *. set (S := 2 ^ (e - ez)) in *.
    assert (Zpos n <= (2 ^ 53 - 1) * P) by lia. nia. }
  by apply bra_result_lt_one.
Qed.

End PyFloatBounds.

(** ** The relative error of a rounding

    The value of a number is read as a real number. A rounding returns one
    of the two binary64 numbers that enclose the exact result; neighbours
    differ by the factor 1 + 2 ^ -52 at most. *)

Module Binary64Error.

Import Binary64 Binary64Facts Binary64Bounds.

Lemma pow2R_pos e : (0 < powerRZ 2 e)%R.
Proof. apply powerRZ_lt. lra. Qed.

Lemma pow2R_add a b : powerRZ 2 (a + b) = (powerRZ 2 a * powerRZ 2 b)%R.
Proof. apply powerRZ_add. lra. Qed.

Lemma pow2R_nonneg j : 0 <= j -> IZR (2 ^ j) = powerRZ 2 j.
Proof.
  intros Hj. rewrite <- (Z2Nat.id j Hj), <- pow_IZR. apply pow_powerRZ.
Qed.

Lemma F2R_shift m e j : 0 <= j -> F2R (m * 2 ^ j) e = F2R m (e + j).
Proof.
  intros Hj. unfold F2R.
  rewrite mult_IZR, pow2R_nonneg, (Z.add_comm e j), pow2R_add by done.
  ring.
Qed.

Lemma F2R_le m m' e : m <= m' -> (F2R m e <= F2R m' e)%R.
Proof.
  intros H. unfold F2R. apply Rmult_le_compat_r.
  - apply Rlt_le, pow2R_pos.
  - by apply IZR_le.
Qed.

Lemma F2R_pos m e : 0 < m -> (0 < F2R m e)%R.
Proof.
  intros H. unfold F2R. apply Rmult_lt_0_compat; [by apply IZR_lt|].
  apply pow2R_pos.
Qed.

Lemma F2R_mul m1 e1 m2 e2 :
  (F2R m1 e1 * F2R m2 e2)%R = F2R (m1 * m2) (e1 + e2).
Proof. unfold F2R. rewrite mult_IZR, pow2R_add. ring. Qed.

(** The two neighbours of a value on the grid of the binary64 numbers, and
    the rounding to one of them. *)
Lemma bra_neighbours mx ex lx :
  0 < mx -> ex <= fexp64 (Zdigits2 mx + ex) ->
  -1021 <= Zdigits2 mx + ex <= 1023 ->
  exists m e (A B : R),
    bra64 false mx ex lx = S754_finite false m e /\
    2 ^ 52 <= Zpos m < 2 ^ 53 /\
    Zdigits2 mx + ex - 53 <= e <= Zdigits2 mx + ex - 52 /\
    (0 < A)%R /\ (B * 4503599627370496 <= A * 4503599627370497)%R /\
    (A <= F2R mx ex)%R /\ (F2R (mx + 1) ex <= B)%R /\
    (F2R (Zpos m) e = A \/ F2R (Zpos m) e = B).
Proof.
  intros Hmx Hex Hrange.
  destruct (bra_spec false mx ex lx ltac:(lia) Hex)
    as (m2 & m3 & e3 & Hm2 & Hcarry & Hc & Hm3 & Hr).
  pose proof (Zdigits2_bounds mx Hmx) as [Dlo Dhi].
  set (d := Zdigits2 mx) in *.
  assert (He1 : fexp64 (d + ex) = d + ex - 53) by (rewrite fexp64_eq; lia).
  rewrite He1 in *.
  set (e1 := d + ex - 53) in *.
  set (j := e1 - ex) in *.
  assert (Hj : 0 <= j) by (unfold j; lia).
  assert (Hjd : j = d - 53) by (unfold j, e1; lia).
  assert (Hp : 0 < 2 ^ j) by (apply Z.pow_pos_nonneg; lia).
  set (m1 := mx / 2 ^ j) in *.
  assert (Hm1lo : 2 ^ 52 <= m1).
  { apply Z.div_le_lower_bound; [lia|]. rewrite <- pow2_split by lia.
    by replace (j + 52) with (d - 1) by lia. }
  assert (Hm1hi : m1 < 2 ^ 53).
  { apply Z.div_lt_upper_bound; [lia|]. rewrite <- pow2_split by lia.
    by replace (j + 53) with d by lia. }
  assert (Hfloor : m1 * 2 ^ j <= mx) by (unfold m1; rewrite Z.mul_comm; apply Z.mul_div_le; lia).
  assert (Hceil : mx + 1 <= (m1 + 1) * 2 ^ j).
  { pose proof (Z.div_mod mx (2 ^ j) ltac:(lia)) as E.
    pose proof (Z.mod_pos_bound mx (2 ^ j) Hp). fold m1 in E. lia. }
  assert (Hm3pos : 0 < m3) by (destruct Hcarry as [[-> _]|(_ & -> & _)]; lia).
  destruct m3 as [|p|p]; [lia| |lia].
  assert (He3 : e1 <= e3 <= e1 + 1) by lia.
  exists p, e3, (F2R m1 e1), (F2R (m1 + 1) e1).
  split.
  { rewrite Hr. unfold bra_result.
    replace (e3 <=? 971) with true; [done|].
    symmetry. apply Z.leb_le. unfold e1 in He3. lia. }
  split; [destruct Hcarry as [[E _]|(_ & E & _)]; rewrite E; lia|].
  split; [unfold e1 in *; lia|].
  split; [apply F2R_pos; lia|].
  split.
  { unfold F2R. rewrite plus_IZR.
    pose proof (pow2R_pos e1) as HP.
    assert (4503599627370496 <= IZR m1)%R as Hm.
    { change 4503599627370496%R with (IZR (2 ^ 52)). by apply IZR_le. }
    nra. }
  split.
  { replace e1 with (ex + j) by (unfold j; lia). rewrite <- F2R_shift by done.
    by apply F2R_le. }
  split.
  { replace e1 with (ex + j) by (unfold j; lia). rewrite <- F2R_shift by done.
    by apply F2R_le. }
  assert (Hval : F2R (Zpos p) e3 = F2R m2 e1).
  { destruct Hcarry as [[-> ->]|(E2 & -> & ->)]; [done|].
    rewrite E2. change (2 ^ 53) with (2 ^ 52 * 2 ^ 1).
    rewrite F2R_shift by lia. done. }
  rewrite Hval. destruct Hm2 as [->|[-> _]]; [by left|by right].
Qed.


Lemma F2R_le_exp m e e' : 0 <= m -> e <= e' -> (F2R m e <= F2R m e')%R.
Proof.
  intros Hm He. replace e' with (e + (e' - e)) by lia.
  rewrite <- F2R_shift by lia. apply F2R_le.
  assert (0 < 2 ^ (e' - e)) by (apply Z.pow_pos_nonneg; lia). nia.
Qed.

(** A value between the exact one and the next on its grid is rounded to a
    number near it. *)
Lemma bra_near mx ex lx v :
  0 < mx -> ex <= fexp64 (Zdigits2 mx + ex) ->
  -1021 <= Zdigits2 mx + ex <= 1023 ->
  (F2R mx ex <= v <= F2R (mx + 1) ex)%R ->
  exists m e,
    bra64 false mx ex lx = S754_finite false m e /\
    2 ^ 52 <= Zpos m < 2 ^ 53 /\
    Zdigits2 mx + ex - 53 <= e <= Zdigits2 mx + ex - 52 /\
    near v (F2R (Zpos m) e).
Proof.
  intros Hmx Hex Hrange [Hlo Hhi].
  destruct (bra_neighbours mx ex lx Hmx Hex Hrange)
    as (m & e & A & B & Hr & Hm & He & HA & HAB & HAx & HxB & Hval).
  exists m, e. split; [done|]. split; [done|]. split; [done|].
  pose proof (F2R_pos mx ex Hmx) as Hpos.
  unfold near. destruct Hval as [->| ->]; split; nra.
Qed.

Lemma normal_digits m : 2 ^ 52 <= m < 2 ^ 53 -> Zdigits2 m = 53.
Proof. intros H. apply Zdigits2_unique; lia. Qed.

(** The square root of a normal number that is at least one. *)
Lemma sqrt_near m e :
  2 ^ 52 <= Zpos m < 2 ^ 53 -> -52 <= e <= 950 ->
  exists ms es,
    SFsqrt prec emax (S754_finite false m e) = S754_finite false ms es /\
    2 ^ 52 <= Zpos ms < 2 ^ 53 /\ e / 2 - 26 <= es <= e / 2 - 25 /\
    (F2R (Zpos m) e * (4503599627370496 * 4503599627370496)
     <= F2R (Zpos ms) es * F2R (Zpos ms) es
        * (4503599627370497 * 4503599627370497))%R /\
    (F2R (Zpos ms) es * F2R (Zpos ms) es
     * (4503599627370496 * 4503599627370496)
     <= F2R (Zpos m) e * (4503599627370497 * 4503599627370497))%R.
Proof.
  intros Hm He. unfold SFsqrt, SFsqrt_core_binary.
  rewrite (normal_digits (Zpos m) Hm).
  pose proof (Z.div_mod e 2 ltac:(lia)) as Hdm.
  pose proof (Z.mod_pos_bound e 2 ltac:(lia)) as Hmod.
  assert (He' : Z.min (fexp64 (Z.div2 (53 + e + 1))) (Z.div2 e) = e / 2 - 26).
  { rewrite fexp64_eq, !Z.div2_div.
    replace (53 + e + 1) with (e + 27 * 2) by lia.
    rewrite Z.div_add by lia. lia. }
  rewrite He'. set (e' := e / 2 - 26) in *.
  set (s := e - 2 * e').
  assert (Hs : 52 <= s <= 53) by (unfold s, e'; lia).
  set (m' := match s with 0 => Zpos m | Zpos _ => Z.shiftl (Zpos m) s
                     | Zneg _ => 0 end).
  assert (Hm' : m' = Zpos m * 2 ^ s).
  { unfold m'. destruct s as [|p|p] eqn:Es; [lia| |lia].
    apply Z.shiftl_mul_pow2. lia. }
  assert (Hm'r : 2 ^ 104 <= m' < 2 ^ 106).
  { rewrite Hm'. destruct (Z.eq_dec s 52) as [->|]; [lia|].
    replace s with 53 by lia. lia. }
  pose proof (Z.sqrtrem_spec m' ltac:(lia)) as Hsq.
  destruct (Z.sqrtrem m') as [q r]. destruct Hsq as [Hsq Hr].
  assert (Hq : 2 ^ 52 <= q < 2 ^ 53).
  { split.
    - destruct (Z_lt_le_dec q (2 ^ 52)); [exfalso; nia|done].
    - destruct (Z_lt_le_dec q (2 ^ 53)); [done|exfalso; nia]. }
  set (l := if r =? 0 then loc_Exact
            else loc_Inexact (if r <=? q then Lt else Gt)).
  destruct (bra_neighbours q e' l)
    as (ms & es & A & B & Hres & Hms & Hes & HA & HAB & HAq & HqB & Hval).
  { lia. }
  { rewrite (normal_digits q Hq), fexp64_eq. unfold e'. lia. }
  { rewrite (normal_digits q Hq). unfold e'. lia. }
  rewrite (normal_digits q Hq) in Hes.
  exists ms, es. split; [done|]. split; [done|].
  split; [unfold e' in Hes; lia|].
  assert (HK : F2R (Zpos m) e = F2R m' (e' + e')).
  { rewrite Hm', F2R_shift by lia. f_equal. unfold s. lia. }
  assert (Hlo : (F2R q e' * F2R q e' <= F2R (Zpos m) e)%R).
  { rewrite HK, F2R_mul. apply F2R_le. lia. }
  assert (Hhi : (F2R (Zpos m) e <= F2R (q + 1) e' * F2R (q + 1) e')%R).
  { rewrite HK, F2R_mul. apply F2R_le. lia. }
  pose proof (F2R_pos q e' ltac:(lia)) as Hqpos.
  pose proof (F2R_pos (q + 1) e' ltac:(lia)) as Hq1pos.
  set (K := F2R (Zpos m) e) in *.
  set (a := F2R q e') in *. set (b := F2R (q + 1) e') in *.
  assert (HAK : (A * A <= K)%R) by nra.
  assert (HKB : (K <= B * B)%R) by nra.
  assert (HBB : (B * B * (4503599627370496 * 4503599627370496)
                 <= A * A * (4503599627370497 * 4503599627370497))%R).
  { assert (0 < B)%R by nra.
    replace (B * B * (4503599627370496 * 4503599627370496))%R
      with ((B * 4503599627370496) * (B * 4503599627370496))%R by ring.
    replace (A * A * (4503599627370497 * 4503599627370497))%R
      with ((A * 4503599627370497) * (A * 4503599627370497))%R by ring.
    apply Rmult_le_compat; nra. }
  destruct Hval as [->| ->]; split; nra.
Qed.


(** The product of two normal numbers. *)
Lemma mul_near mx ex my ey :
  2 ^ 52 <= Zpos mx < 2 ^ 53 -> 2 ^ 52 <= Zpos my < 2 ^ 53 ->
  -1000 <= ex + ey <= 900 ->
  exists m e,
    SFmul prec emax (S754_finite false mx ex) (S754_finite false my ey)
    = S754_finite false m e /\
    2 ^ 52 <= Zpos m < 2 ^ 53 /\ ex + ey + 52 <= e <= ex + ey + 54 /\
    near (F2R (Zpos mx) ex * F2R (Zpos my) ey) (F2R (Zpos m) e).
Proof.
  intros Hmx Hmy He. unfold SFmul. cbn [xorb].
  rewrite Pos2Z.inj_mul.
  assert (Hd : 105 <= Zdigits2 (Zpos mx * Zpos my) <= 106).
  { split.
    - apply Zdigits2_ge; [|lia].
      change (2 ^ (105 - 1)) with (2 ^ 52 * 2 ^ 52). nia.
    - apply Zdigits2_le; [lia|].
      change (2 ^ 106) with (2 ^ 53 * 2 ^ 53). nia. }
  destruct (bra_near (Zpos mx * Zpos my) (ex + ey) loc_Exact
              (F2R (Zpos mx) ex * F2R (Zpos my) ey))
    as (m & e & Hr & Hm & Hexp & Hnear).
  - lia.
  - rewrite fexp64_eq. lia.
  - lia.
  - rewrite F2R_mul. split; [lra|]. apply F2R_le. lia.
  - exists m, e. split; [done|]. split; [done|]. split; [lia|done].
Qed.

(** The quotient of two normal numbers. *)
Lemma div_near mx ex my ey v :
  2 ^ 52 <= Zpos mx < 2 ^ 53 -> 2 ^ 52 <= Zpos my < 2 ^ 53 ->
  -900 <= ex - ey <= 900 ->
  (v * F2R (Zpos my) ey = F2R (Zpos mx) ex)%R ->
  exists m e,
    SFdiv prec emax (S754_finite false mx ex) (S754_finite false my ey)
    = S754_finite false m e /\
    2 ^ 52 <= Zpos m < 2 ^ 53 /\
    near v (F2R (Zpos m) e).
Proof.
  intros Hmx Hmy He Hv. unfold SFdiv, SFdiv_core_binary. cbn [xorb].
  rewrite (normal_digits (Zpos mx) Hmx), (normal_digits (Zpos my) Hmy).
  assert (He' : Z.min (fexp64 (53 + ex - (53 + ey))) (ex - ey) = ex - ey - 53)
    by (rewrite fexp64_eq; lia).
  rewrite He'. set (e' := ex - ey - 53) in *.
  replace (ex - ey - e') with 53 by (unfold e'; lia).
  assert (Hm' : Z.shiftl (Zpos mx) 53 = Zpos mx * 2 ^ 53)
    by (apply Z.shiftl_mul_pow2; lia).
  rewrite Hm'. set (m' := Zpos mx * 2 ^ 53) in *.
  pose proof (Z.div_mod m' (Zpos my) ltac:(lia)) as Hdiv.
  pose proof (Z.mod_pos_bound m' (Zpos my) ltac:(lia)) as Hrem.
  unfold Z.div, Z.modulo in Hdiv, Hrem.
  destruct (Z.div_eucl m' (Zpos my)) as [q r].
  assert (Hq : 2 ^ 52 <= q < 2 ^ 54).
  { unfold m' in Hdiv. split.
    - destruct (Z_lt_le_dec q (2 ^ 52)); [exfalso; nia|done].
    - destruct (Z_lt_le_dec q (2 ^ 54)); [done|exfalso; nia]. }
  assert (Hd : 53 <= Zdigits2 q <= 54).
  { split; [apply Zdigits2_ge; lia|apply Zdigits2_le; lia]. }
  pose proof (F2R_pos (Zpos my) ey ltac:(lia)) as Hypos.
  assert (HX : F2R (Zpos mx) ex = F2R m' (e' + ey)).
  { unfold m'. rewrite F2R_shift by lia. f_equal. unfold e'. lia. }
  destruct (bra_near q e' (new_location (Zpos my) r) v)
    as (m & e & Hr & Hm & Hexp & Hnear).
  - lia.
  - rewrite fexp64_eq. lia.
  - unfold e'. lia.
  - assert (F2R q e' * F2R (Zpos my) ey <= v * F2R (Zpos my) ey)%R as H1.
    { rewrite Hv, HX, F2R_mul. apply F2R_le. lia. }
    assert (v * F2R (Zpos my) ey <= F2R (q + 1) e' * F2R (Zpos my) ey)%R as H2.
    { rewrite Hv, HX, F2R_mul. apply F2R_le. lia. }
    split; nra.
  - exists m, e. split; [done|]. split; [done|]. done.
Qed.


(** The quotient of a number by the rounded square of its rounded root: four
    roundings away from one. *)
Lemma self_quotient_bounds (K s p v x : R) :
  (0 < K)%R -> (0 < s)%R -> (0 < p)%R -> (0 < x)%R ->
  (K * (4503599627370496 * 4503599627370496)
   <= s * s * (4503599627370497 * 4503599627370497))%R ->
  (s * s * (4503599627370496 * 4503599627370496)
   <= K * (4503599627370497 * 4503599627370497))%R ->
  near (s * s) p -> (v * p = K)%R -> near v x ->
  (1 - 4 / 4503599627370496 <= x < 1 + 5 / 4503599627370496)%R.
Proof.
  intros HK Hs Hp Hx H1 H2 [H3 H4] Hv [H5 H6].
  set (c := (4503599627370497 / 4503599627370496)%R).
  assert (Hc : (1 < c)%R) by (unfold c; lra).
  set (s2 := (s * s)%R) in *.
  assert (Hs2 : (0 < s2)%R) by (unfold s2; nra).
  assert (Hv0 : (0 < v)%R).
  { destruct (Rlt_le_dec 0 v) as [|Hle]; [done|exfalso; nra]. }
  assert (G1 : (K <= s2 * (c * c))%R) by (unfold c; lra).
  assert (G2 : (s2 <= K * (c * c))%R) by (unfold c; lra).
  assert (G3 : (s2 <= p * c)%R) by (unfold c; lra).
  assert (G4 : (p <= s2 * c)%R) by (unfold c; lra).
  assert (G5 : (v <= x * c)%R) by (unfold c; lra).
  assert (G6 : (x <= v * c)%R) by (unfold c; lra).
  assert (Hc2 : (0 < c * c)%R) by nra.
  assert (Hc3 : (0 < c * c * c)%R) by nra.
  assert (U1 : (v * p <= p * (c * c * c))%R).
  { rewrite Hv. apply (Rle_trans _ _ _ G1).
    replace (p * (c * c * c))%R with ((p * c) * (c * c))%R by ring.
    apply Rmult_le_compat_r; lra. }
  assert (U2 : (v <= c * c * c)%R).
  { apply (Rmult_le_reg_l p); [done|]. lra. }
  assert (U3 : (x <= c * c * c * c)%R).
  { apply (Rle_trans _ _ _ G6). apply Rmult_le_compat_r; lra. }
  assert (L1 : (p <= v * p * (c * c * c))%R).
  { rewrite Hv. apply (Rle_trans _ _ _ G4).
    replace (K * (c * c * c))%R with ((K * (c * c)) * c)%R by ring.
    apply Rmult_le_compat_r; lra. }
  assert (L2 : (1 <= v * (c * c * c))%R).
  { apply (Rmult_le_reg_l p); [done|]. lra. }
  assert (L3 : (1 <= x * (c * c * c * c))%R).
  { apply (Rle_trans _ _ _ L2).
    replace (x * (c * c * c * c))%R with ((x * c) * (c * c * c))%R by ring.
    apply Rmult_le_compat_r; lra. }
  assert (N1 : (c * c * c * c < 1 + 5 / 4503599627370496)%R)
    by (unfold c; lra).
  assert (N2 : ((1 - 4 / 4503599627370496) * (c * c * c * c) <= 1)%R)
    by (unfold c; lra).
  split; [|lra].
  apply (Rmult_le_reg_r (c * c * c * c)); [nra|]. lra.
Qed.

(** A normal number in the interval of [self_quotient_bounds]. *)
Lemma near_one_mantissa m e :
  2 ^ 52 <= m < 2 ^ 53 ->
  (1 - 4 / 4503599627370496 <= F2R m e < 1 + 5 / 4503599627370496)%R ->
  (e = -52 /\ m <= 2 ^ 52 + 4) \/ (e = -53 /\ 2 ^ 53 - 8 <= m).
Proof.
  intros Hm [Hlo Hhi].
  assert (H52 : powerRZ 2 (-52) = (/ 4503599627370496)%R).
  { change 4503599627370496%R with (IZR (2 ^ 52)).
    rewrite pow2R_nonneg by lia. exact (powerRZ_neg' 2 52). }
  assert (H53 : powerRZ 2 (-53) = (/ 9007199254740992)%R).
  { change 9007199254740992%R with (IZR (2 ^ 53)).
    rewrite pow2R_nonneg by lia. exact (powerRZ_neg' 2 53). }
  assert (He : -53 <= e <= -52).
  { split.
    - destruct (Z_lt_le_dec e (-53)) as [Hlt|]; [exfalso|done].
      pose proof (F2R_le_exp m e (-54) ltac:(lia) ltac:(lia)) as H1.
      pose proof (F2R_le m (2 ^ 53) (-54) ltac:(lia)) as H2.
      change (2 ^ 53) with (1 * 2 ^ 53) in H2.
      rewrite F2R_shift in H2 by lia. unfold F2R at 2 in H2.
      assert (powerRZ 2 (-54 + 53) = (/ 2)%R) as E by (simpl; lra).
      rewrite E in H2. lra.
    - destruct (Z_lt_le_dec (-52) e) as [Hlt|]; [exfalso|done].
      pose proof (F2R_le_exp m (-51) e ltac:(lia) ltac:(lia)) as H1.
      pose proof (F2R_le (2 ^ 52) m (-51) ltac:(lia)) as H2.
      change (2 ^ 52) with (1 * 2 ^ 52) in H2.
      rewrite F2R_shift in H2 by lia. unfold F2R at 1 in H2.
      assert (powerRZ 2 (-51 + 52) = 2%R) as E by (simpl; lra).
      rewrite E in H2. lra. }
  destruct (Z.eq_dec e (-52)) as [->|Hne].
  - left. split; [done|]. unfold F2R in Hhi. rewrite H52 in Hhi.
    assert (IZR m < 4503599627370501)%R as H by lra.
    apply lt_IZR in H. lia.
  - right. assert (e = -53) as -> by lia. split; [done|].
    unfold F2R in Hlo. rewrite H53 in Hlo.
    assert (9007199254740984 <= IZR m)%R as H by lra.
    apply le_IZR in H. lia.
Qed.

End Binary64Error.

Module PyFloatError.

Import Binary64 Binary64Facts Binary64Bounds Binary64Error.

Lemma valid_normal m e :
  valid_binary (S754_finite false m e) = true -> Zpos m < 2 ^ 53.
Proof.
  intros Hv. simpl in Hv. unfold bounded, canonical_mantissa in Hv.
  apply andb_true_iff in Hv as [Hc _]. apply Z.eqb_eq in Hc.
  rewrite fexp64_eq in Hc.
  pose proof (digits2_pos_bounds m) as [_ Hhi].
  assert (Zpos (digits2_pos m) <= 53) as Hd by lia.
  assert (2 ^ Zpos (digits2_pos m) <= 2 ^ 53)
    by (apply Z.pow_le_mono_r; lia).
  lia.
Qed.

(** [float(n)] of a positive [int] below [2 ^ 1000] is a normal number. *)
Lemma of_int_normal n :
  1 <= n < 2 ^ 1000 ->
  exists x m e,
    PyFloat.of_int n = Ret x /\ Prim2SF x = S754_finite false m e /\
    2 ^ 52 <= Zpos m < 2 ^ 53 /\ -52 <= e <= 948.
Proof.
  intros [Hn Hlt]. unfold PyFloat.of_int, binary_normalize.
  destruct n as [|p|p]; [lia| |lia].
  destruct (PyFloatBounds.binary_round_ge_one p)
    as (m3 & e3 & -> & Hone & Hv & He3).
  pose proof (Zdigits2_le (Zpos p) 1000 ltac:(lia) Hlt) as Hd.
  pose proof (Zdigits2_pos (Zpos p) ltac:(lia)) as Hd0.
  rewrite fexp64_eq in He3.
  pose proof Hone as [Hpos _]. destruct m3 as [|m|m]; [lia| |lia].
  unfold bra_result in *.
  replace (e3 <=? 971) with true in * by (symmetry; apply Z.leb_le; lia).
  destruct (ge_one_normal m e3 Hv Hone) as [Hlo Hexp].
  pose proof (valid_normal m e3 Hv) as Hhi.
  exists (SF2Prim (S754_finite false m e3)), m, e3.
  split; [done|]. split; [by apply Prim2SF_SF2Prim|]. lia.
Qed.

Lemma Zpos_le_compare a b :
  Zpos a <= Zpos b -> PosDef.Pos.compare_cont Eq a b <> Gt.
Proof. intros H. exact H. Qed.

Lemma near_one_of_sf x m e :
  Prim2SF x = S754_finite false m e ->
  (e = -52 /\ Zpos m <= 2 ^ 52 + 4) \/ (e = -53 /\ 2 ^ 53 - 8 <= Zpos m) ->
  near_one x.
Proof.
  intros Hx Hcases. unfold near_one. rewrite !leb_spec, Hx.
  replace (Prim2SF 0x1.ffffffffffff8p-1%float)
    with (S754_finite false 9007199254740984 (-53))
    by (vm_compute; reflexivity).
  replace (Prim2SF 0x1.0000000000004p+0%float)
    with (S754_finite false 4503599627370500 (-52))
    by (vm_compute; reflexivity).
  unfold SFleb, SFcompare.
  destruct Hcases as [[-> Hm]|[-> Hm]].
  - change (-53 ?= -52) with Lt. change (-52 ?= -52) with Eq.
    split; [reflexivity|]. cbv iota.
    assert (Zpos m <= 4503599627370500) as Hm' by (clear -Hm; lia).
    apply Zpos_le_compare in Hm'.
    by destruct (PosDef.Pos.compare_cont Eq m 4503599627370500).
  - change (-53 ?= -53) with Eq. change (-53 ?= -52) with Lt.
    split; [|reflexivity]. cbv iota.
    assert (9007199254740984 <= Zpos m) as Hm' by (clear -Hm; lia).
    apply Zpos_le_compare in Hm'.
    by destruct (PosDef.Pos.compare_cont Eq 9007199254740984 m).
Qed.

Lemma finite_nonzero x m e :
  Prim2SF x = S754_finite false m e -> PrimFloat.eqb x 0%float = false.
Proof.
  intros Hx. by rewrite FloatAxioms.eqb_spec, Prim2SF_zero, Hx.
Qed.

(** The end of the computation for a text compared with itself: the square
    root, the product and the quotient each round once. *)
Lemma cosine_finish_self k :
  1 <= k < 2 ^ 1000 ->
  exists x, cosine_finish (k, k, k) = Ret x /\ near_one x.
Proof.
  intros Hk.
  destruct (of_int_normal k Hk) as (K & mK & eK & HK & HKsf & HmK & HeK).
  destruct (sqrt_near mK eK HmK ltac:(lia))
    as (ms & es & Hs & Hms & Hes & Hs1 & Hs2).
  pose proof (Z.div_mod eK 2 ltac:(lia)) as Hdm.
  pose proof (Z.mod_pos_bound eK 2 ltac:(lia)) as Hmod.
  destruct (mul_near ms es ms es Hms Hms ltac:(lia))
    as (mp & ep & Hp & Hmp & Hep & Hpnear).
  pose proof (F2R_pos (Zpos mK) eK ltac:(lia)) as HKpos.
  pose proof (F2R_pos (Zpos ms) es ltac:(lia)) as Hspos.
  pose proof (F2R_pos (Zpos mp) ep ltac:(lia)) as Hppos.
  set (v := (F2R (Zpos mK) eK / F2R (Zpos mp) ep)%R).
  assert (Hv : (v * F2R (Zpos mp) ep = F2R (Zpos mK) eK)%R)
    by (unfold v; field; lra).
  destruct (div_near mK eK mp ep v HmK Hmp ltac:(lia) Hv)
    as (mx & ex & Hx & Hmx & Hxnear).
  pose proof (F2R_pos (Zpos mx) ex ltac:(lia)) as Hxpos.
  pose proof (self_quotient_bounds _ _ _ _ _ HKpos Hspos Hppos Hxpos
                Hs1 Hs2 Hpnear Hv Hxnear) as Hbounds.
  assert (HS : Prim2SF (PrimFloat.sqrt K) = S754_finite false ms es).
  { rewrite sqrt_spec, HKsf. exact Hs. }
  assert (HP : Prim2SF (PrimFloat.mul (PrimFloat.sqrt K) (PrimFloat.sqrt K))
               = S754_finite false mp ep).
  { rewrite mul_spec, HS. exact Hp. }
  assert (HX : Prim2SF (PrimFloat.div K
                 (PrimFloat.mul (PrimFloat.sqrt K) (PrimFloat.sqrt K)))
               = S754_finite false mx ex).
  { rewrite div_spec, HKsf, HP. exact Hx. }
  eexists. split.
  - unfold cosine_finish, PyFloat.sqrt_int. rewrite HK.
    cbn [mbind pyres_bind].
    rewrite ltb_spec, Prim2SF_zero, HKsf. cbn [SFltb SFcompare].
    cbn [mbind pyres_bind].
    rewrite (finite_nonzero _ _ _ HS). cbn [orb].
    unfold PyFloat.truediv. rewrite (finite_nonzero _ _ _ HP). reflexivity.
  - apply (near_one_of_sf _ mx ex HX).
    by apply near_one_mantissa.
Qed.

End PyFloatError.

(** * The scorers on a text and itself

    The claim of the specification on self-comparison, which needs the
    error bounds above. *)

(** ** The squared norm of a count vector *)

Lemma Zsum_map_ext {A : Type} (f g : A -> Z) (l : list A) :
  (forall a, a ∈ l -> f a = g a) -> Zsum (map f l) = Zsum (map g l).
Proof.
  intros H. f_equal. apply map_ext_in. intros a Ha. apply H.
  by apply list_elem_of_In.
Qed.

Lemma Zsum_map_add {A : Type} (f g : A -> Z) (l : list A) :
  Zsum (map (fun a => f a + g a) l) = Zsum (map f l) + Zsum (map g l).
Proof.
  induction l as [|a l IH]; simpl; [done|]. rewrite !Zsum_cons. lia.
Qed.

Lemma Zsum_map_zero {A : Type} (l : list A) : Zsum (map (fun _ => 0) l) = 0.
Proof. induction l as [|a l IH]; simpl; [done|]. rewrite Zsum_cons. lia. Qed.

Lemma sum_squares_le_square {A : Type} (f : A -> Z) (l : list A) :
  (forall a, 0 <= f a) ->
  0 <= Zsum (map f l) /\
  Zsum (map (fun a => f a * f a) l) <= Zsum (map f l) * Zsum (map f l).
Proof.
  intros Hf. induction l as [|a l [IH1 IH2]]; simpl; [done|].
  rewrite !Zsum_cons. specialize (Hf a). split; [lia|nia].
Qed.

(** The occurrences of distinct words in a list are at most its length. *)
Lemma count_distinct_le (l : list pystr) :
  NoDup l -> forall syns : list pystr,
  Zsum (map (fun w => Z.of_nat (length (filter (fun s => s = w) syns))) l)
  <= Z.of_nat (length syns).
Proof.
  induction 1 as [|x l Hx Hl IH]; intros syns; cbn [map];
    [rewrite Zsum_nil; lia|].
  rewrite Zsum_cons.
  rewrite (Zsum_map_ext _
             (fun w => Z.of_nat (length (filter (fun s => s = w)
                                           (filter (fun s => s <> x) syns))))).
  - specialize (IH (filter (fun s => s <> x) syns)).
    pose proof (filter_app_complement (fun s => s = x) syns) as Hp.
    apply Permutation_length in Hp. rewrite length_app in Hp. lia.
  - intros w Hw. f_equal. f_equal. rewrite list_filter_filter.
    apply list_filter_iff. intros s. split; [|tauto].
    intros ->. split; [done|]. by intros ->.
Qed.

Section SquaredNorm.

Variable get_synonyms : pystr -> list pystr.

Local Abbreviation occ := (synonym_occurrences get_synonyms).

Lemma occurrences_total (l : list pystr) : NoDup l -> forall tokens,
  Zsum (map (occ tokens) l)
  <= Z.of_nat (length (concat (map get_synonyms tokens))).
Proof.
  intros Hl tokens. induction tokens as [|t tokens IH].
  - simpl. by rewrite Zsum_map_zero.
  - cbn [synonym_occurrences map concat]. rewrite Zsum_map_add, length_app.
    pose proof (count_distinct_le l Hl (get_synonyms t)). lia.
Qed.

(** The squared norm of the count vector of a text is at most the square of
    the number of synonyms met. *)
Lemma cosine_parts_self_bound tokens :
  exists k,
    cosine_parts get_synonyms tokens tokens = (k, k, k) /\
    ((exists t, t ∈ tokens /\ get_synonyms t <> []) -> 1 <= k) /\
    k <= Z.of_nat (length (concat (map get_synonyms tokens)))
         * Z.of_nat (length (concat (map get_synonyms tokens))).
Proof.
  destruct (cosine_parts_self get_synonyms tokens) as (k & Hk & _ & Hpos).
  exists k. split; [done|]. split; [done|].
  unfold cosine_parts in Hk. rewrite cosine_parts_on_sums in Hk.
  injection Hk as _ _ <-.
  set (l := elements (build_vocab get_synonyms (tokens ++ tokens))).
  destruct (sum_squares_le_square (occ tokens) l) as [H0 H1].
  { intros w. apply synonym_occurrences_nonneg. }
  pose proof (occurrences_total l (NoDup_elements _) tokens) as H2.
  nia.
Qed.

End SquaredNorm.

(** C6 as stated fails: for two distinct tokens without synonyms,
    [cosine_similarity_score(T, T)] is 0.9999999999999998, not 1.0. *)
Lemma cosine_self_not_one :
  cosine_similarity_score no_synonyms [[97]; [98]] [[97]; [98]]
  <> Ret 1%float.
Proof. vm_compute. discriminate. Qed.

Example cosine_two_tokens :
  cosine_similarity_score no_synonyms [[97]; [98]] [[97]; [98]]
  = Ret 0x1.ffffffffffffep-1%float.
Proof. vm_compute. reflexivity. Qed.

(** Without any synonym, the two count vectors are empty. *)
Lemma cosine_no_synonyms get_synonyms (T : list pystr) :
  T <> [] -> (forall t, t ∈ T -> get_synonyms t = []) ->
  cosine_similarity_score get_synonyms T T = Ret 0%float.
Proof.
  intros HT Hnone. unfold cosine_similarity_score.
  rewrite (is_empty_false T HT). simpl orb. cbv iota.
  unfold cosine_parts.
  assert (build_vocab get_synonyms (T ++ T) = ∅) as ->.
  { apply set_eq. intros w. rewrite elem_of_build_vocab. split; [|set_solver].
    intros (t & Ht & Hw). apply elem_of_app in Ht.
    rewrite (Hnone t) in Hw by tauto. by apply not_elem_of_nil in Hw. }
  by rewrite elements_empty.
Qed.

(** C6 (amended): for every non-empty token list [T] and non-empty string
    [S], [word_frequency_match(T, T)] and [edit_distance_similarity(S, S)]
    are exactly 1.0. [cosine_similarity_score(T, T)] is 1.0 up to the
    rounding of the square roots, of their product and of the quotient: it
    lies between 1 - 2^-50 and 1 + 2^-50, when some token of [T] has a
    synonym and the synonyms of all the tokens of [T] together are fewer
    than 2^500 (the computation then stays in the range of the floats); it
    is 0.0 when no token of [T] has a synonym. *)
Theorem scorer_self_comparison get_synonyms (T : list pystr) (S : pystr) :
  T <> [] -> S <> [] ->
  word_frequency_match T T = Ret 1%float /\
  edit_distance_similarity S S = Ret 1%float /\
  ((exists t, t ∈ T /\ get_synonyms t <> []) ->
   Z.of_nat (length (concat (map get_synonyms T))) < 2 ^ 500 ->
   exists x,
     cosine_similarity_score get_synonyms T T = Ret x /\ near_one x) /\
  ((forall t, t ∈ T -> get_synonyms t = []) ->
   cosine_similarity_score get_synonyms T T = Ret 0%float).
Proof.
  intros HT HS. split; [|split; [|split]].
  - unfold word_frequency_match. rewrite (is_empty_false T HT). simpl orb.
    cbv iota. rewrite matched_count_self.
    apply PyFloatFacts.int_truediv_self. by apply length_pos_Z.
  - rewrite edit_distance_similarity_nonempty by done.
    rewrite lev_self, Z.max_id, PyFloatFacts.int_truediv_zero
      by (by apply length_pos_Z).
    reflexivity.
  - intros Hsyn Hsize.
    destruct (cosine_parts_self_bound get_synonyms T) as (k & Hk & Hpos & Hle).
    specialize (Hpos Hsyn).
    set (N := Z.of_nat (length (concat (map get_synonyms T)))) in *.
    assert (k < 2 ^ 1000) as Hlt.
    { assert (0 <= N) by (unfold N; lia).
      assert (N * N < 2 ^ 500 * 2 ^ 500)
        by (apply Z.mul_lt_mono_nonneg; lia).
      change (2 ^ 1000) with (2 ^ 500 * 2 ^ 500). lia. }
    destruct (PyFloatError.cosine_finish_self k (conj Hpos Hlt))
      as (x & Hx & Hnear).
    exists x. split; [|done].
    unfold cosine_similarity_score. rewrite (is_empty_false T HT).
    simpl orb. cbv iota. by rewrite Hk.
  - by apply cosine_no_synonyms.
Qed.

Lemma scorer_self_comparison_witness :
  word_frequency_match [[97]; [98]] [[97]; [98]] = Ret 1%float /\
  edit_distance_similarity abc abc = Ret 1%float /\
  exists x,
    cosine_similarity_score no_synonyms [[97]; [98]] [[97]; [98]] = Ret x /\
    near_one x.
Proof.
  destruct (scorer_self_comparison no_synonyms [[97]; [98]] abc)
    as (Hfrequency & Hedit & Hcosine & _).
  - discriminate.
  - discriminate.
  - split; [exact Hfrequency|]. split; [exact Hedit|].
    apply Hcosine; [|reflexivity]. exists [97]. split; [left|discriminate].
Defined.

(** * Further properties of the code *)

(** ** edit_distance_similarity: the distance of the table *)

Lemma edits_nonneg a b n : edits a b n -> 0 <= n.
Proof. induction 1; lia. Qed.

Lemma edits_zero a b n : edits a b n -> n = 0 -> a = b.
Proof.
  induction 1 as [|x a b n H IH|x y a b n H _|x a b n H _|y a b n H _];
    intros Hn; [done|by rewrite IH|..];
    apply edits_nonneg in H; lia.
Qed.

Lemma lev_zero a b : lev a b = 0 <-> a = b.
Proof.
  split; [|intros ->; apply lev_self].
  intros H. apply (edits_zero a b (lev a b)); [apply lev_edits|done].
Qed.

Lemma edit_steps_trans a b c n m :
  edit_steps a b n -> edit_steps b c m -> edit_steps a c (n + m).
Proof.
  induction 1 as [a|a a' b n Hs _ IH]; intros Hbc.
  - by replace (0 + m) with m by lia.
  - replace (n + 1 + m) with (n + m + 1) by lia.
    eapply steps_next; [done|]. by apply IH.
Qed.

Lemma lev_triangle a b c : lev a c <= lev a b + lev b c.
Proof.
  apply edit_steps_lev. eapply edit_steps_trans; apply lev_is_levenshtein.
Qed.

Lemma edits_length a b n :
  edits a b n -> Z.abs (Z.of_nat (length a) - Z.of_nat (length b)) <= n.
Proof. induction 1; simpl length; lia. Qed.

(** Without a common character no character is kept: every character of
    the longer string costs an edit. *)
Lemma edits_disjoint a b n :
  edits a b n -> (forall c, c ∈ a -> c ∉ b) ->
  Z.max (Z.of_nat (length a)) (Z.of_nat (length b)) <= n.
Proof.
  induction 1 as [|x a b n H IH|x y a b n H IH|x a b n H IH|y a b n H IH];
    intros Hd; simpl length.
  - lia.
  - exfalso. apply (Hd x); left.
  - assert (forall c, c ∈ a -> c ∉ b) as Hd'.
    { intros c Hc Hb. apply (Hd c); by right. }
    specialize (IH Hd'). lia.
  - assert (forall c, c ∈ a -> c ∉ b) as Hd'.
    { intros c Hc Hb. apply (Hd c); [by right|done]. }
    specialize (IH Hd'). lia.
  - assert (forall c, c ∈ a -> c ∉ b) as Hd'.
    { intros c Hc Hb. apply (Hd c); [done|by right]. }
    specialize (IH Hd'). lia.
Qed.

Lemma lev_disjoint a b :
  (forall c, c ∈ a -> c ∉ b) ->
  lev a b = Z.max (Z.of_nat (length a)) (Z.of_nat (length b)).
Proof.
  intros Hd. apply Z.le_antisymm; [apply lev_upper|].
  apply (edits_disjoint a b); [apply lev_edits|done].
Qed.

Lemma lev_common_prefix p a b : lev (p ++ a) (p ++ b) = lev a b.
Proof.
  induction p as [|x p IH]; [done|]. simpl app. by rewrite lev_cons_same.
Qed.

Lemma lev_common_suffix s a b : lev (a ++ s) (b ++ s) = lev a b.
Proof.
  rewrite <- (lev_reverse (a ++ s)), !reverse_app, lev_common_prefix.
  apply lev_reverse.
Qed.

Lemma edit_step_sym a b : edit_step a b -> edit_step b a.
Proof. destruct 1; constructor. Qed.

Lemma lev_edit_step a a' b : edit_step a a' -> Z.abs (lev a b - lev a' b) <= 1.
Proof.
  intros H.
  pose proof (edit_step_lev_close a a' H b).
  pose proof (edit_step_lev_close a' a (edit_step_sym _ _ H) b). lia.
Qed.

(** X1: the distance that [edit_distance_similarity] reads in the last cell
    of its table is a metric on strings: it is 0 exactly for equal strings,
    it does not depend on the order of the two strings, and it satisfies the
    triangle inequality. *)
Theorem edit_distance_metric :
  (forall a b, edit_distance a b = Ret 0 <-> a = b) /\
  (forall a b, edit_distance a b = edit_distance b a) /\
  (forall a b c, exists x y z,
     edit_distance a b = Ret x /\ edit_distance b c = Ret y /\
     edit_distance a c = Ret z /\ z <= x + y).
Proof.
  split; [|split].
  - intros a b. rewrite edit_distance_lev, <- lev_zero.
    split; [|by intros ->]. by intros [= ->].
  - intros a b. by rewrite !edit_distance_lev, lev_sym.
  - intros a b c. exists (lev a b), (lev b c), (lev a c).
    rewrite !edit_distance_lev. repeat split. apply lev_triangle.
Qed.

(** X2: the distance lies between the difference of the two lengths and the
    length of the longer string, for all strings, the empty ones included;
    the table is filled without an index out of range. *)
Theorem edit_distance_bounds a b :
  exists d, edit_distance a b = Ret d /\
    Z.abs (Z.of_nat (length a) - Z.of_nat (length b)) <= d /\
    d <= Z.max (Z.of_nat (length a)) (Z.of_nat (length b)).
Proof.
  exists (lev a b). rewrite edit_distance_lev. split; [done|]. split.
  - apply edits_length, lev_edits.
  - apply lev_upper.
Qed.

(** X3: a prefix and a suffix that the two strings share do not count: the
    distance is that of the parts between them. *)
Theorem edit_distance_common_affixes p s a b :
  edit_distance (p ++ a ++ s) (p ++ b ++ s) = edit_distance a b.
Proof.
  by rewrite !edit_distance_lev, lev_common_prefix, lev_common_suffix.
Qed.

(** X4: inserting, deleting or replacing one character of the original, at
    any position, moves its distance to any other string by at most one. *)
Theorem edit_distance_single_edit a a' b :
  edit_step a a' ->
  exists d d', edit_distance a b = Ret d /\ edit_distance a' b = Ret d' /\
    Z.abs (d - d') <= 1.
Proof.
  intros H. exists (lev a b), (lev a' b). rewrite !edit_distance_lev.
  repeat split. by apply lev_edit_step.
Qed.

Lemma edit_distance_single_edit_witness :
  exists d d', edit_distance abcde abc = Ret d /\
    edit_distance abcxe abc = Ret d' /\ Z.abs (d - d') <= 1.
Proof.
  apply (edit_distance_single_edit abcde abcxe abc).
  exact (step_substitute [97; 98; 99] 100 120 [101]).
Defined.

(** X5: two non-empty strings without a common character are at distance
    max(len) and score exactly 0.0. *)
Theorem edit_distance_similarity_disjoint a b :
  a <> [] -> b <> [] -> (forall c, c ∈ a -> c ∉ b) ->
  edit_distance a b = Ret (Z.max (Z.of_nat (length a)) (Z.of_nat (length b))) /\
  edit_distance_similarity a b = Ret 0%float.
Proof.
  intros Ha Hb Hd. split; [by rewrite edit_distance_lev, lev_disjoint|].
  rewrite edit_distance_similarity_nonempty by done.
  rewrite lev_disjoint by done.
  rewrite PyFloatFacts.int_truediv_self; [reflexivity|].
  pose proof (length_pos_Z a Ha). lia.
Qed.

Lemma edit_distance_similarity_disjoint_witness :
  edit_distance nihao_shijie abc = Ret 4 /\
  edit_distance_similarity nihao_shijie abc = Ret 0%float.
Proof.
  apply (edit_distance_similarity_disjoint nihao_shijie abc);
    [discriminate|discriminate|].
  intros c Hc Hb. unfold nihao_shijie in Hc. unfold abc in Hb.
  repeat (apply elem_of_cons in Hb as [->|Hb];
          [repeat (apply elem_of_cons in Hc as [Hc|Hc]; [discriminate Hc|]);
           by apply not_elem_of_nil in Hc|]).
  by apply not_elem_of_nil in Hb.
Defined.

(** X6: for non-empty strings, [edit_distance_similarity] returns exactly
    1.0 for equal strings, and only for them as long as the strings have
    fewer than 2^53 characters: a single edit already brings the score
    below 1.0. *)
Theorem edit_distance_similarity_one a b :
  a <> [] -> b <> [] ->
  (a = b -> edit_distance_similarity a b = Ret 1%float) /\
  (Z.of_nat (length a) < 2 ^ 53 -> Z.of_nat (length b) < 2 ^ 53 ->
   edit_distance_similarity a b = Ret 1%float -> a = b).
Proof.
  intros Ha Hb. rewrite edit_distance_similarity_nonempty by done. split.
  - intros <-. rewrite lev_self, Z.max_id, PyFloatFacts.int_truediv_zero
      by (by apply length_pos_Z).
    reflexivity.
  - intros Hla Hlb H. apply lev_zero.
    pose proof (lev_nonneg a b). pose proof (lev_upper a b).
    destruct (Z.eq_dec (lev a b) 0) as [|Hne]; [done|exfalso].
    destruct (PyFloatBounds.int_truediv_ge_ulp (lev a b)
                (Z.max (Z.of_nat (length a)) (Z.of_nat (length b))))
      as (q & Hq & Hge & Hunit); [lia|lia|].
    rewrite Hq in H. simpl in H. injection H as H.
    pose proof (PyFloatBounds.sub_one_lt_one q Hge Hunit) as Hlt.
    rewrite H in Hlt. by vm_compute in Hlt.
Qed.

Lemma edit_distance_similarity_one_witness :
  (abc = abc -> edit_distance_similarity abc abc = Ret 1%float) /\
  (Z.of_nat (length abc) < 2 ^ 53 -> Z.of_nat (length abc) < 2 ^ 53 ->
   edit_distance_similarity abc abc = Ret 1%float -> abc = abc).
Proof.
  apply (edit_distance_similarity_one abc abc); discriminate.
Defined.

(** ** word_frequency_match: the multiset intersection *)

Lemma greedy_match_size candidate : forall R,
  greedy_match R candidate
  = Z.of_nat (size (R ∩ list_to_set_disj candidate)).
Proof.
  induction candidate as [|w c IH]; intros R; simpl.
  - replace (R ∩ ∅) with (∅ : gmultiset pystr) by multiset_solver.
    by rewrite gmultiset_size_empty.
  - destruct (decide (0 < multiplicity w R)%nat) as [Hpos|Hz].
    + rewrite IH.
      replace (R ∩ ({[+ w +]} ⊎ list_to_set_disj c))
        with ({[+ w +]} ⊎ (R ∖ {[+ w +]}) ∩ list_to_set_disj c)
        by multiset_solver.
      rewrite gmultiset_size_disj_union, gmultiset_size_singleton. lia.
    + rewrite IH. f_equal. f_equal. multiset_solver.
Qed.

Lemma matched_count_size o p :
  matched_count o p
  = Z.of_nat (size (list_to_set_disj o ∩ list_to_set_disj p
                    : gmultiset pystr)).
Proof. by rewrite matched_count_greedy, greedy_match_size. Qed.

Lemma is_empty_permutation {A : Type} (l l' : list A) :
  l ≡ₚ l' -> is_empty l = is_empty l'.
Proof.
  intros H. destruct l, l'; try done.
  - by apply Permutation_nil_cons in H.
  - symmetry in H. by apply Permutation_nil_cons in H.
Qed.

Lemma disjoint_intersection (o p : list pystr) :
  (forall w, w ∈ p -> w ∉ o) ->
  list_to_set_disj o ∩ list_to_set_disj p = (∅ : gmultiset pystr).
Proof.
  intros Hd. apply gmultiset_eq. intros w.
  rewrite multiplicity_intersection, multiplicity_empty.
  destruct (decide (w ∈ p)) as [Hp|Hp].
  - assert (multiplicity w (list_to_set_disj o : gmultiset pystr) = 0%nat);
      [|lia].
    apply not_elem_of_multiplicity. rewrite elem_of_list_to_set_disj.
    by apply Hd.
  - assert (multiplicity w (list_to_set_disj p : gmultiset pystr) = 0%nat);
      [|lia].
    apply not_elem_of_multiplicity. by rewrite elem_of_list_to_set_disj.
Qed.

(** X7: the number of matches that the two loops of [word_frequency_match]
    count is the size of the intersection of the two token lists as
    multisets: every word counts min(occurrences in the original,
    occurrences in the candidate) times. The count is therefore the same
    when the two lists are exchanged; the score differs only by its
    denominator. *)
Theorem matched_count_intersection :
  (forall original plagiarized,
     matched_count original plagiarized
     = Z.of_nat (size (list_to_set_disj original
                       ∩ list_to_set_disj plagiarized : gmultiset pystr))) /\
  (forall original plagiarized,
     matched_count original plagiarized = matched_count plagiarized original).
Proof.
  split; [apply matched_count_size|].
  intros o p. rewrite !matched_count_size. f_equal. f_equal. multiset_solver.
Qed.

(** X8: the score of [word_frequency_match] does not depend on the order of
    the words in either list. *)
Theorem word_frequency_match_permutation o o' p p' :
  o ≡ₚ o' -> p ≡ₚ p' ->
  word_frequency_match o p = word_frequency_match o' p'.
Proof.
  intros Ho Hp. unfold word_frequency_match.
  rewrite (is_empty_permutation o o' Ho), (is_empty_permutation p p' Hp).
  rewrite !matched_count_size.
  by rewrite (list_to_set_disj_perm o o' Ho), (list_to_set_disj_perm p p' Hp),
    (Permutation_length Hp).
Qed.

Lemma word_frequency_match_permutation_witness :
  word_frequency_match [zhe; shi; wenben] [shi; abc]
  = word_frequency_match [shi; zhe; wenben] [abc; shi].
Proof.
  apply (word_frequency_match_permutation
           [zhe; shi; wenben] [shi; zhe; wenben] [shi; abc] [abc; shi]);
    apply perm_swap.
Defined.

Lemma greedy_match_all_inv candidate : forall R,
  greedy_match R candidate = Z.of_nat (length candidate) ->
  list_to_set_disj candidate ⊆ R.
Proof.
  induction candidate as [|w c IH]; intros R; [multiset_solver|].
  cbn [greedy_match length]. rewrite Nat2Z.inj_succ, list_to_set_disj_cons.
  destruct (decide (0 < multiplicity w R)%nat) as [Hpos|Hz].
  - intros H.
    assert (greedy_match (R ∖ {[+ w +]}) c = Z.of_nat (length c)) as H'
      by lia.
    specialize (IH _ H'). multiset_solver.
  - intros H. pose proof (greedy_match_bounds c R). lia.
Qed.

Lemma greedy_match_none candidate : forall R,
  greedy_match R candidate = 0 -> forall w, w ∈ candidate -> w ∉ R.
Proof.
  induction candidate as [|w c IH]; intros R; simpl.
  - intros _ w Hw. by apply not_elem_of_nil in Hw.
  - destruct (decide (0 < multiplicity w R)%nat) as [Hpos|Hz].
    + intros H. pose proof (greedy_match_bounds c (R ∖ {[+ w +]})). lia.
    + intros H u Hu. apply elem_of_cons in Hu as [->|Hu]; [|by apply (IH R)].
      intros Hin. apply Hz. by apply elem_of_multiplicity.
Qed.

Lemma list_to_set_disj_submseteq (p : list pystr) : forall o : list pystr,
  list_to_set_disj p ⊆ (list_to_set_disj o : gmultiset pystr) -> p ⊆+ o.
Proof.
  induction p as [|w p IH]; intros o H; [apply submseteq_nil_l|].
  assert (w ∈ o) as Hw.
  { apply elem_of_list_to_set_disj. simpl in H. multiset_solver. }
  apply elem_of_Permutation in Hw as [o' Ho]. rewrite Ho.
  apply submseteq_skip, IH. rewrite (list_to_set_disj_perm _ _ Ho) in H.
  simpl in H. multiset_solver.
Qed.

(** X9: for a non-empty candidate, [word_frequency_match] returns exactly
    1.0 when the candidate is, up to order, a sub-list of the original (every
    word occurs in the original at least as often as in the candidate), and,
    for a candidate of fewer than 2^53 tokens, only then. *)
Theorem word_frequency_match_one o p :
  p <> [] ->
  (p ⊆+ o -> word_frequency_match o p = Ret 1%float) /\
  (Z.of_nat (length p) < 2 ^ 53 ->
   word_frequency_match o p = Ret 1%float -> p ⊆+ o).
Proof.
  intros Hp. split.
  - intros Hsub. unfold word_frequency_match.
    assert (o <> []) as Ho.
    { intros ->. by apply submseteq_nil_r in Hsub. }
    rewrite (is_empty_false o Ho), (is_empty_false p Hp). simpl orb. cbv iota.
    rewrite matched_count_greedy, greedy_match_all.
    + apply PyFloatFacts.int_truediv_self. by apply length_pos_Z.
    + clear -Hsub. induction Hsub; simpl; multiset_solver.
  - intros Hlen. unfold word_frequency_match.
    destruct o as [|w o]; [simpl; intros [= H]; by vm_compute in H|].
    rewrite (is_empty_false p Hp). simpl orb. cbv iota.
    intros H. apply list_to_set_disj_submseteq, greedy_match_all_inv.
    rewrite <- matched_count_greedy.
    pose proof (matched_count_bounds (w :: o) p) as Hb.
    destruct (Z.eq_dec (matched_count (w :: o) p) (Z.of_nat (length p)))
      as [|Hne]; [done|exfalso].
    destruct (PyFloatBounds.int_truediv_lt_one (matched_count (w :: o) p)
                (Z.of_nat (length p)) ltac:(lia) Hlen) as (q & Hq & Hlt).
    rewrite Hq in H. injection H as ->. by vm_compute in Hlt.
Qed.

Lemma word_frequency_match_one_witness :
  ([shi; zhe] ⊆+ [zhe; shi; wenben] ->
   word_frequency_match [zhe; shi; wenben] [shi; zhe] = Ret 1%float) /\
  (Z.of_nat (length [shi; zhe]) < 2 ^ 53 ->
   word_frequency_match [zhe; shi; wenben] [shi; zhe] = Ret 1%float ->
   [shi; zhe] ⊆+ [zhe; shi; wenben]).
Proof.
  apply (word_frequency_match_one [zhe; shi; wenben] [shi; zhe]).
  discriminate.
Defined.

(** X10: for non-empty lists, [word_frequency_match] returns exactly 0.0 when
    no word of the candidate occurs in the original, and, for a candidate of
    fewer than 2^53 tokens, only then. *)
Theorem word_frequency_match_zero o p :
  o <> [] -> p <> [] ->
  ((forall w, w ∈ p -> w ∉ o) -> word_frequency_match o p = Ret 0%float) /\
  (Z.of_nat (length p) < 2 ^ 53 ->
   word_frequency_match o p = Ret 0%float -> forall w, w ∈ p -> w ∉ o).
Proof.
  intros Ho Hp. unfold word_frequency_match.
  rewrite (is_empty_false o Ho), (is_empty_false p Hp). simpl orb. cbv iota.
  split.
  - intros Hd. rewrite matched_count_size, disjoint_intersection by done.
    rewrite gmultiset_size_empty. apply PyFloatFacts.int_truediv_zero.
    by apply length_pos_Z.
  - intros Hlen H w Hw Hin.
    apply (greedy_match_none p (list_to_set_disj o)) with (w := w); [|done|].
    + rewrite <- matched_count_greedy.
      pose proof (matched_count_bounds o p) as Hb.
      destruct (Z.eq_dec (matched_count o p) 0) as [|Hne]; [done|exfalso].
      destruct (PyFloatBounds.int_truediv_ge_ulp (matched_count o p)
                  (Z.of_nat (length p)) ltac:(lia) Hlen) as (q & Hq & Hge & _).
      rewrite Hq in H. injection H as ->. by vm_compute in Hge.
    + by apply elem_of_list_to_set_disj.
Qed.

Lemma word_frequency_match_zero_witness :
  ((forall w, w ∈ [abc] -> w ∉ [zhe; shi]) ->
   word_frequency_match [zhe; shi] [abc] = Ret 0%float) /\
  (Z.of_nat (length [abc]) < 2 ^ 53 ->
   word_frequency_match [zhe; shi] [abc] = Ret 0%float ->
   forall w, w ∈ [abc] -> w ∉ [zhe; shi]).
Proof.
  apply (word_frequency_match_zero [zhe; shi] [abc]); discriminate.
Defined.

(** ** cosine_similarity_score: bags of words, and what it can raise *)

Section CosineOrder.

Variable get_synonyms : pystr -> list pystr.

Local Abbreviation occ := (synonym_occurrences get_synonyms).

Lemma synonym_occurrences_permutation tokens tokens' w :
  tokens ≡ₚ tokens' -> occ tokens w = occ tokens' w.
Proof. induction 1; simpl; lia. Qed.

Lemma build_vocab_permutation tokens tokens' :
  tokens ≡ₚ tokens' ->
  build_vocab get_synonyms tokens = build_vocab get_synonyms tokens'.
Proof.
  intros H. apply set_eq. intros w. rewrite !elem_of_build_vocab.
  by setoid_rewrite H.
Qed.

Lemma cosine_parts_permutation o o' p p' :
  o ≡ₚ o' -> p ≡ₚ p' ->
  cosine_parts get_synonyms o p = cosine_parts get_synonyms o' p'.
Proof.
  intros Ho Hp. unfold cosine_parts.
  rewrite (build_vocab_permutation (o ++ p) (o' ++ p')) by by f_equiv.
  rewrite !cosine_parts_on_sums.
  f_equal; [f_equal|]; f_equal; apply map_ext; intros w;
    by rewrite ?(synonym_occurrences_permutation o o' w Ho),
               ?(synonym_occurrences_permutation p p' w Hp).
Qed.

Lemma synonym_occurrences_zero tokens w :
  (forall t, t ∈ tokens -> w ∉ get_synonyms t) -> occ tokens w = 0.
Proof.
  induction tokens as [|t ts IH]; intros H; simpl; [done|].
  rewrite IH by (intros u Hu; apply H; by right).
  destruct (filter (fun s => s = w) (get_synonyms t)) as [|s l] eqn:E; [done|].
  exfalso. assert (s ∈ filter (fun s => s = w) (get_synonyms t)) as Hs
    by (rewrite E; left).
  apply list_elem_of_filter in Hs as [-> Hin]. apply (H t); [left|done].
Qed.

Lemma cosine_parts_orthogonal o p :
  (forall t u w,
     t ∈ o -> u ∈ p -> w ∈ get_synonyms t -> w ∉ get_synonyms u) ->
  exists n1 n2,
    cosine_parts get_synonyms o p = (0, n1, n2) /\ 0 <= n1 /\ 0 <= n2.
Proof.
  intros Hd. pose proof (cosine_parts_bounds get_synonyms o p) as Hb.
  unfold cosine_parts in *. rewrite cosine_parts_on_sums in *.
  destruct Hb as (_ & H1 & H2 & _).
  assert (forall l, Zsum (map (fun w => occ o w * occ p w) l) = 0) as ->.
  { induction l as [|w l IH]; [done|]. cbn [map]. rewrite Zsum_cons, IH.
    destruct (decide (Exists (fun t => w ∈ get_synonyms t) o)) as [Ho|Ho].
    - apply Exists_exists in Ho as (t & Ht & Hw).
      rewrite (synonym_occurrences_zero p w); [lia|].
      intros u Hu. by apply (Hd t u w).
    - rewrite (synonym_occurrences_zero o w); [lia|].
      intros t Ht Hw. apply Ho, Exists_exists. by exists t. }
  by eexists _, _.
Qed.

End CosineOrder.

(** X11: the score of [cosine_similarity_score] does not depend on the order
    of the tokens in either list. *)
Theorem cosine_similarity_score_permutation get_synonyms o o' p p' :
  o ≡ₚ o' -> p ≡ₚ p' ->
  cosine_similarity_score get_synonyms o p
  = cosine_similarity_score get_synonyms o' p'.
Proof.
  intros Ho Hp. unfold cosine_similarity_score.
  rewrite (is_empty_permutation o o' Ho), (is_empty_permutation p p' Hp).
  by rewrite (cosine_parts_permutation get_synonyms o o' p p' Ho Hp).
Qed.

Lemma cosine_similarity_score_permutation_witness :
  cosine_similarity_score no_synonyms [zhe; shi; wenben] [shi; abc]
  = cosine_similarity_score no_synonyms [shi; zhe; wenben] [abc; shi].
Proof.
  apply (cosine_similarity_score_permutation no_synonyms
           [zhe; shi; wenben] [shi; zhe; wenben] [shi; abc] [abc; shi]);
    apply perm_swap.
Defined.

(** The square root of a squared norm: it overflows only from [2 ^ 1023] on,
    and is at least one unless the norm is zero. *)
Lemma sqrt_int_norm n :
  0 <= n ->
  (PyFloat.sqrt_int n = Raise OverflowError /\ 2 ^ 1023 <= n) \/
  exists y, PyFloat.sqrt_int n = Ret y /\
    (PrimFloat.eqb y 0%float = false -> ge_one (Prim2SF y)).
Proof.
  intros Hn. unfold PyFloat.sqrt_int.
  destruct (PyFloatFacts.of_int_nonneg n Hn) as [E|(x & E & Hx)].
  - left. rewrite E. split; [done|].
    destruct (Z_lt_le_dec n (2 ^ 1023)) as [Hlt|]; [|done].
    destruct (PyFloatBounds.of_int_returns n (conj Hn Hlt)) as [x Hx].
    congruence.
  - right. rewrite E. cbn [mbind pyres_bind].
    rewrite ltb_spec, Binary64Facts.Prim2SF_zero.
    replace (SFltb (Prim2SF x) (S754_zero false)) with false
      by (by destruct (Prim2SF x) as [[]|[]| |[] m e]).
    eexists. split; [reflexivity|]. intros Hnz.
    apply PyFloatBounds.sqrt_ge_one.
    apply (PyFloatBounds.of_int_ge_one n); [|done].
    destruct (Z.eq_dec n 0) as [->|]; [|lia].
    exfalso. vm_compute in E. injection E as <-. vm_compute in Hnz. done.
Qed.

Lemma cosine_finish_returns dot n1 n2 :
  0 <= dot -> 0 <= n1 -> 0 <= n2 ->
  (exists x, cosine_finish (dot, n1, n2) = Ret x) \/
  (cosine_finish (dot, n1, n2) = Raise OverflowError /\
   (2 ^ 1023 <= n1 \/ 2 ^ 1023 <= n2 \/ 2 ^ 1023 <= dot)).
Proof.
  intros Hd H1 H2. unfold cosine_finish.
  destruct (sqrt_int_norm n1 H1) as [[-> ?]|(x & -> & Hx)];
    [right; split; [done|by left]|].
  cbn [mbind pyres_bind].
  destruct (sqrt_int_norm n2 H2) as [[-> ?]|(y & -> & Hy)];
    [right; split; [done|by right; left]|].
  cbn [mbind pyres_bind].
  destruct (PrimFloat.eqb x 0) eqn:Ex; [left; by eexists|].
  destruct (PrimFloat.eqb y 0) eqn:Ey; [left; by eexists|].
  cbn [orb].
  destruct (PyFloatFacts.of_int_nonneg dot Hd) as [E|(d & E & _)]; rewrite E.
  - right. split; [done|]. right; right.
    destruct (Z_lt_le_dec dot (2 ^ 1023)) as [Hlt|]; [|done].
    destruct (PyFloatBounds.of_int_returns dot (conj Hd Hlt)) as [d Hd'].
    congruence.
  - left. cbn [mbind pyres_bind]. unfold PyFloat.truediv.
    rewrite (PyFloatBounds.ge_one_nonzero (PrimFloat.mul x y)); [by eexists|].
    apply PyFloatBounds.mul_ge_one; auto.
Qed.

Lemma cosine_finish_orthogonal n1 n2 :
  0 <= n1 -> 0 <= n2 ->
  cosine_finish (0, n1, n2) = Ret 0%float \/
  cosine_finish (0, n1, n2) = Raise OverflowError.
Proof.
  intros H1 H2. unfold cosine_finish.
  destruct (sqrt_int_norm n1 H1) as [[-> ?]|(x & -> & Hx)]; [by right|].
  cbn [mbind pyres_bind].
  destruct (sqrt_int_norm n2 H2) as [[-> ?]|(y & -> & Hy)]; [by right|].
  cbn [mbind pyres_bind].
  destruct (PrimFloat.eqb x 0) eqn:Ex; [by left|].
  destruct (PrimFloat.eqb y 0) eqn:Ey; [by left|].
  cbn [orb]. left.
  change (PyFloat.of_int 0) with (Ret 0%float). cbn [mbind pyres_bind].
  unfold PyFloat.truediv.
  assert (ge_one (Prim2SF (PrimFloat.mul x y))) as Hxy
    by (apply PyFloatBounds.mul_ge_one; auto).
  by rewrite (PyFloatBounds.ge_one_nonzero _ Hxy),
    (PyFloatBounds.div_zero_ge_one _ Hxy).
Qed.

(** X12: [cosine_similarity_score] raises neither [ZeroDivisionError] nor
    the [ValueError] of [math.sqrt]: the guard on the two norms is enough,
    since the product of two norms that are not zero is at least one. It
    returns a float, or raises [OverflowError] when a squared norm is too
    large for a float, which takes a squared norm of 2^1023 or more. *)
Theorem cosine_similarity_score_errors get_synonyms original plagiarized :
  (exists x,
     cosine_similarity_score get_synonyms original plagiarized = Ret x) \/
  (cosine_similarity_score get_synonyms original plagiarized
   = Raise OverflowError /\
   exists dot n1 n2,
     cosine_parts get_synonyms original plagiarized = (dot, n1, n2) /\
     (2 ^ 1023 <= n1 \/ 2 ^ 1023 <= n2)).
Proof.
  unfold cosine_similarity_score.
  destruct (is_empty original || is_empty plagiarized); [left; by eexists|].
  pose proof (cosine_parts_bounds get_synonyms original plagiarized) as Hb.
  destruct (cosine_parts get_synonyms original plagiarized) as [[dot n1] n2].
  destruct Hb as (Hd & H1 & H2 & Hcs).
  destruct (cosine_finish_returns dot n1 n2 Hd H1 H2) as [?|[E Hbig]];
    [by left|right].
  split; [done|]. exists dot, n1, n2. split; [done|].
  destruct Hbig as [?|[?|Hdot]]; [by left|by right|].
  destruct (Z_lt_le_dec n1 (2 ^ 1023)) as [Hn1|]; [|by left].
  destruct (Z_lt_le_dec n2 (2 ^ 1023)) as [Hn2|]; [|by right].
  exfalso. assert (0 < 2 ^ 1023) by (by apply Z.pow_pos_nonneg).
  revert Hdot Hn1 Hn2 H. generalize (2 ^ 1023). intros B ? ? ? ?. nia.
Qed.



(** ** read_file: what is returned, and what is refused *)

Lemma lstrip_spec s :
  exists ws, s = ws ++ lstrip s /\ Forall is_whitespace ws /\
    forall c, head (lstrip s) = Some c -> ~ is_whitespace c.
Proof.
  induction s as [|c s (ws & IH1 & IH2 & IH3)]; simpl.
  - exists []. by repeat split.
  - destruct (decide (c ∈ unicode_whitespace)) as [Hc|Hc].
    + exists (c :: ws). split; [simpl; by f_equal|].
      split; [by constructor|done].
    + exists []. split; [done|]. split; [done|]. simpl. by intros ? [= <-].
Qed.

(** [strip] removes whitespace at both ends, and nothing else. *)
Lemma strip_spec s :
  exists l r, s = l ++ strip s ++ r /\
    Forall is_whitespace l /\ Forall is_whitespace r /\
    (forall c, head (strip s) = Some c -> ~ is_whitespace c) /\
    (forall c, last (strip s) = Some c -> ~ is_whitespace c).
Proof.
  unfold strip.
  destruct (lstrip_spec s) as (l & Hl1 & Hl2 & Hl3).
  destruct (lstrip_spec (reverse (lstrip s))) as (r & Hr1 & Hr2 & Hr3).
  exists l, (reverse r). split; [|split; [done|split; [|split]]].
  - rewrite <- reverse_app, <- Hr1, reverse_involutive. done.
  - by apply Forall_reverse.
  - intros c Hc. apply Hl3.
    rewrite <- (reverse_involutive (lstrip s)), Hr1, reverse_app.
    destruct (reverse (lstrip (reverse (lstrip s)))) as [|x t]; [done|].
    simpl in *. done.
  - intros c. rewrite last_reverse. apply Hr3.
Qed.

Lemma strip_nil s : strip s = [] <-> Forall is_whitespace s.
Proof.
  destruct (strip_spec s) as (l & r & Hs & Hl & Hr & Hh & _). split.
  - intros E. rewrite E in Hs. rewrite Hs. simpl. by apply Forall_app.
  - intros Hall. destruct (strip s) as [|c t]; [done|]. exfalso.
    apply (Hh c); [done|]. rewrite Forall_forall in Hall. apply Hall.
    rewrite Hs. apply elem_of_app. right. left.
Qed.

Lemma strip_idemp s : strip (strip s) = strip s.
Proof.
  destruct (strip_spec s) as (_ & _ & _ & _ & _ & Hh & Ht).
  assert (forall u, (forall c, head u = Some c -> ~ is_whitespace c) ->
                    lstrip u = u) as Hfix.
  { intros [|c u] H; [done|]. simpl. rewrite decide_False; [done|].
    by apply H. }
  unfold strip at 1. rewrite (Hfix (strip s) Hh).
  rewrite Hfix; [apply reverse_involutive|].
  intros c. rewrite head_reverse. apply Ht.
Qed.

(** After [strip], the three [replace] of the blank test leave the first
    character. *)
Lemma remove_blank_nonempty s c :
  head s = Some c -> ~ is_whitespace c ->
  is_empty (remove_char 32 (remove_char 10 (remove_char 13 s))) = false.
Proof.
  intros Hs Hc. destruct s as [|x s]; [done|]. injection Hs as ->.
  assert (c <> 13 /\ c <> 10 /\ c <> 32) as (H13 & H10 & H32).
  { repeat split; intros ->; apply Hc;
      unfold is_whitespace, unicode_whitespace; set_solver. }
  unfold remove_char. rewrite filter_cons, decide_True by done.
  rewrite filter_cons, decide_True by done.
  by rewrite filter_cons, decide_True by done.
Qed.

Lemma check_content_blank text :
  Forall is_whitespace text -> check_content text = Raise ValueError.
Proof.
  intros H. unfold check_content. apply strip_nil in H. by rewrite H.
Qed.

Lemma check_content_text text :
  ~ Forall is_whitespace text -> check_content text = Ret (strip text).
Proof.
  intros H. unfold check_content.
  destruct (strip_spec text) as (_ & _ & _ & _ & _ & Hh & _).
  destruct (strip text) as [|c t] eqn:E.
  - exfalso. by apply H, strip_nil.
  - by rewrite (remove_blank_nonempty (c :: t) c eq_refl (Hh c eq_refl)).
Qed.

Lemma check_content_ret text s :
  check_content text = Ret s -> s = strip text /\ ~ Forall is_whitespace text.
Proof.
  intros H. destruct (decide (Forall is_whitespace text)) as [Hall|Hall].
  - by rewrite check_content_blank in H.
  - rewrite check_content_text in H by done. by injection H as <-.
Qed.

Section ReadFileMore.

Variable decode : encoding -> list Z -> pyres pystr.

Lemma try_encodings_ret encs data s :
  try_encodings decode encs data = Ret s ->
  exists enc text, enc ∈ encs /\ decode enc data = Ret text /\
    check_content text = Ret s.
Proof.
  induction encs as [|e encs IH]; simpl; [done|].
  destruct (decode e data) as [text|x] eqn:E.
  - intros H. exists e, text. split; [left|done].
  - destruct x; try done. intros H.
    destruct (IH H) as (enc & text & ? & ? & ?).
    exists enc, text. split; [by right|done].
Qed.

Lemma try_encodings_abort data earlier enc later e :
  (forall e', e' ∈ earlier -> decode e' data = Raise UnicodeDecodeError) ->
  decode enc data = Raise e -> e <> UnicodeDecodeError ->
  try_encodings decode (earlier ++ enc :: later) data = Raise e.
Proof.
  intros Hfail He Hne. induction earlier as [|x earlier IH]; simpl.
  - rewrite He. by destruct e.
  - rewrite (Hfail x) by left. apply IH. intros e' He'. apply Hfail.
    by right.
Qed.

End ReadFileMore.

(** X14: a content that [read_file] returns is never empty, starts and ends
    with a character that is not whitespace (stripping it again changes
    nothing), and is the stripped text of one of the six decodings. *)
Theorem read_file_content_stripped decode data s :
  read_file decode data = Ret s ->
  s <> [] /\ strip s = s /\
  (forall c, head s = Some c -> c ∉ unicode_whitespace) /\
  (forall c, last s = Some c -> c ∉ unicode_whitespace) /\
  exists enc text,
    enc ∈ encodings /\ decode enc data = Ret text /\ s = strip text.
Proof.
  unfold read_file.
  destruct (try_encodings decode encodings data) as [s'|] eqn:E; [|done].
  intros [= ->].
  apply try_encodings_ret in E as (enc & text & Henc & Hdec & Hc).
  apply check_content_ret in Hc as [-> Hnb].
  destruct (strip_spec text) as (_ & _ & _ & _ & _ & Hh & Ht).
  split; [|split; [|split; [|split]]].
  - intros E. by apply Hnb, strip_nil.
  - apply strip_idemp.
  - exact Hh.
  - exact Ht.
  - by exists enc, text.
Qed.

Lemma read_file_content_stripped_witness :
  [97] <> [] /\ strip [97] = [97] /\
  (forall c, head [97] = Some c -> c ∉ unicode_whitespace) /\
  (forall c, last [97] = Some c -> c ∉ unicode_whitespace) /\
  exists enc text,
    enc ∈ encodings /\
    text_mode_read sample_tables enc [32; 97; 13; 10] = Ret text /\
    [97] = strip text.
Proof.
  apply (read_file_content_stripped (text_mode_read sample_tables)
           [32; 97; 13; 10] [97]).
  reflexivity.
Defined.

(** X15: the text of the first decoding that succeeds is refused exactly
    when all its characters are whitespace, of any of the kinds that [strip]
    removes (tabs and ideographic spaces included, beside the three
    characters that the blank test names); any other text is returned
    stripped. *)
Theorem read_file_blank decode data earlier enc later text :
  encodings = earlier ++ enc :: later ->
  (forall e, e ∈ earlier -> decode e data = Raise UnicodeDecodeError) ->
  decode enc data = Ret text ->
  read_file decode data
  = if decide (Forall (fun c => c ∈ unicode_whitespace) text)
    then Raise (WrappedException ValueError)
    else Ret (strip text).
Proof.
  intros Hs Hfail Hok. unfold read_file.
  rewrite Hs, (try_encodings_first_success decode data _ _ _ text Hfail Hok).
  destruct (decide _) as [H|H].
  - by rewrite check_content_blank.
  - by rewrite check_content_text.
Qed.

Lemma read_file_blank_witness :
  read_file (text_mode_read sample_tables) [9; 0xe3; 0x80; 0x80; 10]
  = Raise (WrappedException ValueError).
Proof.
  apply (read_file_blank (text_mode_read sample_tables)
           [9; 0xe3; 0x80; 0x80; 10]
           [] utf_8 [utf_8_sig; gbk; gb2312; iso_8859_1; latin_1]
           [9; 0x3000; 10]).
  - reflexivity.
  - intros e He. by apply not_elem_of_nil in He.
  - reflexivity.
Defined.

(** X16: an exception of a decoding other than [UnicodeDecodeError] ends the
    loop: the encodings after it are not tried, and [read_file] raises the
    wrapping [Exception]. *)
Theorem read_file_other_error decode data earlier enc later e :
  encodings = earlier ++ enc :: later ->
  (forall e', e' ∈ earlier -> decode e' data = Raise UnicodeDecodeError) ->
  decode enc data = Raise e -> e <> UnicodeDecodeError ->
  read_file decode data = Raise (WrappedException e).
Proof.
  intros Hs Hfail He Hne. unfold read_file.
  by rewrite Hs, (try_encodings_abort decode data earlier enc later e).
Qed.

Lemma read_file_other_error_witness :
  read_file (open_file sample_tables [97]) [97; 0; 98]
  = Raise (WrappedException ValueError).
Proof.
  apply (read_file_other_error (open_file sample_tables [97]) [97; 0; 98]
           [] utf_8 [utf_8_sig; gbk; gb2312; iso_8859_1; latin_1] ValueError).
  - reflexivity.
  - intros e He. by apply not_elem_of_nil in He.
  - reflexivity.
  - discriminate.
Defined.

(** ** preprocess_text: the tokens *)

Lemma chinese_not_whitespace c :
  is_chinese_char [c] = true -> c ∉ unicode_whitespace.
Proof.
  simpl. intros H Hw. apply andb_true_iff in H as [H1 H2].
  apply Z.leb_le in H1, H2. unfold unicode_whitespace in Hw.
  repeat (apply elem_of_cons in Hw as [->|Hw]; [lia|]).
  by apply not_elem_of_nil in Hw.
Qed.

Lemma concat_filter_nonblank (l : list pystr) :
  (forall t, t ∈ l -> strip t = [] -> t = []) ->
  concat (filter (fun t => strip t <> []) l) = concat l.
Proof.
  induction l as [|t l IH]; intros H; [done|].
  assert (forall u, u ∈ l -> strip u = [] -> u = []) as H'.
  { intros u Hu. apply H. by right. }
  rewrite filter_cons. destruct (decide (strip t <> [])) as [Hne|He]; simpl.
  - by rewrite IH.
  - rewrite IH by done.
    assert (strip t = []) as Hs.
    { destruct (decide (strip t = [])) as [E|E]; [done|]. by destruct He. }
    by rewrite (H t (list_elem_of_here _ _) Hs).
Qed.

Lemma elem_of_concat_token (l : list pystr) t c :
  t ∈ l -> c ∈ t -> c ∈ concat l.
Proof.
  intros Ht Hc. induction l as [|u l IH]; [by apply not_elem_of_nil in Ht|].
  simpl. apply elem_of_app. apply elem_of_cons in Ht as [->|Ht]; [by left|].
  right. by apply IH.
Qed.

Section PreprocessFacts.

Variable isalnum : Z -> bool.
Variable lower : Z -> pystr.
Variable jieba_cut : pystr -> list pystr.

Local Abbreviation kept := (kept_characters isalnum lower).
Local Abbreviation split_loop := (foldl (split_step isalnum lower) ([], [])).
Local Abbreviation segment_loop := (foldl (segment_step jieba_cut) ([], [])).

Lemma edit_string_filter text :
  edit_string text
  = filter (fun c => (c ∉ unicode_whitespace) /\ (c ∉ punctuation)) text.
Proof.
  unfold edit_string, remove_whitespace, translate_delete.
  apply list_filter_filter.
Qed.

Lemma preprocess_text_snd text :
  snd (preprocess_text isalnum lower jieba_cut text) = edit_string text.
Proof. by destruct text. Qed.

Lemma preprocess_text_fst text :
  fst (preprocess_text isalnum lower jieba_cut text)
  = filter (fun token => strip token <> [])
           (segment_chinese jieba_cut (split_scripts isalnum lower text)).
Proof. by destruct text. Qed.

Lemma flush_concat (tokens temp : list pystr) :
  concat (if is_empty temp then tokens else tokens ++ [concat temp])
  = concat tokens ++ concat temp.
Proof.
  destruct temp as [|t temp]; cbn [is_empty]; [by rewrite app_nil_r|].
  rewrite concat_app. cbn [concat]. by rewrite app_nil_r.
Qed.

Lemma split_loop_concat text :
  concat (split_loop text).1 ++ concat (split_loop text).2
  = concat (map kept text).
Proof.
  induction text as [|c text IH] using rev_ind; [done|].
  rewrite foldl_snoc, map_app, concat_app, <- IH. cbn [map concat].
  destruct (split_loop text) as [tokens temp].
  unfold split_step, kept_characters.
  destruct (isalnum c && negb (is_chinese_char [c])) eqn:E1; cbn [fst snd].
  - rewrite concat_app. cbn [concat]. by rewrite <- !app_assoc.
  - destruct (is_chinese_char [c]) eqn:E2; cbn [fst snd concat].
    + rewrite concat_app, flush_concat. cbn [concat]. by rewrite !app_nil_r.
    + by rewrite flush_concat, !app_nil_r.
Qed.

Lemma split_scripts_concat text :
  concat (split_scripts isalnum lower text) = concat (map kept text).
Proof.
  rewrite <- split_loop_concat. unfold split_scripts.
  destruct (split_loop text) as [tokens temp]. apply flush_concat.
Qed.

Lemma flush_segments (finished temp : list pystr) :
  (forall s, concat (jieba_cut s) = s) ->
  concat (if is_empty temp then finished
          else finished ++ jieba_cut (concat temp))
  = concat finished ++ concat temp.
Proof.
  intros Hcut. destruct temp as [|t temp]; cbn [is_empty];
    [by rewrite app_nil_r|].
  by rewrite concat_app, Hcut.
Qed.

Lemma segment_loop_concat tokens :
  (forall s, concat (jieba_cut s) = s) ->
  concat (segment_loop tokens).1 ++ concat (segment_loop tokens).2
  = concat tokens.
Proof.
  intros Hcut. induction tokens as [|t tokens IH] using rev_ind; [done|].
  rewrite foldl_snoc, concat_app, <- IH. cbn [concat].
  destruct (segment_loop tokens) as [finished temp]. unfold segment_step.
  destruct (existsb _ t); cbn [fst snd concat].
  - rewrite concat_app. cbn [concat]. by rewrite <- !app_assoc.
  - rewrite concat_app, flush_segments by done. cbn [concat].
    by rewrite !app_nil_r.
Qed.

Lemma segment_chinese_concat tokens :
  (forall s, concat (jieba_cut s) = s) ->
  concat (segment_chinese jieba_cut tokens) = concat tokens.
Proof.
  intros Hcut. rewrite <- (segment_loop_concat tokens Hcut).
  unfold segment_chinese. destruct (segment_loop tokens) as [finished temp].
  by apply flush_segments.
Qed.

Lemma kept_not_whitespace text c :
  (forall c x, isalnum c = true -> x ∈ lower c -> x ∉ unicode_whitespace) ->
  c ∈ concat (map kept text) -> c ∉ unicode_whitespace.
Proof.
  intros Hlow. induction text as [|d text IH]; cbn [map concat].
  - intros H. by apply not_elem_of_nil in H.
  - intros H. apply elem_of_app in H as [H|H]; [|by apply IH].
    unfold kept_characters in H.
    destruct (isalnum d) eqn:Ea, (is_chinese_char [d]) eqn:Ec;
      cbn [andb negb] in H.
    + apply list_elem_of_singleton in H as ->. by apply chinese_not_whitespace.
    + by apply (Hlow d).
    + apply list_elem_of_singleton in H as ->. by apply chinese_not_whitespace.
    + by apply not_elem_of_nil in H.
Qed.

(** *** Texts without Chinese characters *)

Lemma latin_app t u : latin t -> latin u -> latin (t ++ u).
Proof. unfold latin. rewrite existsb_app. by intros -> ->. Qed.

Lemma latin_concat (l : list pystr) : Forall latin l -> latin (concat l).
Proof. induction 1; [done|]. simpl. by apply latin_app. Qed.

Lemma flush_latin (tokens temp : list pystr) :
  Forall latin tokens -> Forall latin temp ->
  Forall latin (if is_empty temp then tokens else tokens ++ [concat temp]).
Proof.
  intros H1 H2. destruct temp as [|t temp]; cbn [is_empty]; [done|].
  apply Forall_app. split; [done|]. constructor; [|done]. by apply latin_concat.
Qed.

Lemma split_loop_latin text :
  (forall c, isalnum c = true -> is_chinese_char [c] = false ->
             latin (lower c)) ->
  latin text ->
  Forall latin (split_loop text).1 /\ Forall latin (split_loop text).2.
Proof.
  intros Hlow. induction text as [|c text IH] using rev_ind; [by split|].
  intros Ht. unfold latin in Ht. rewrite existsb_app in Ht.
  apply orb_false_iff in Ht as [Ht Hc]. cbn [existsb] in Hc.
  rewrite orb_false_r in Hc.
  destruct (IH Ht) as [IH1 IH2]. rewrite foldl_snoc.
  destruct (split_loop text) as [tokens temp]. unfold split_step.
  cbn [fst snd] in IH1, IH2. rewrite Hc. cbn [negb]. rewrite andb_true_r.
  destruct (isalnum c) eqn:Ea; cbn [fst snd].
  - split; [done|]. apply Forall_app. split; [done|]. constructor; [|done].
    by apply Hlow.
  - split; [|done]. by apply flush_latin.
Qed.

Lemma split_scripts_latin text :
  (forall c, isalnum c = true -> is_chinese_char [c] = false ->
             latin (lower c)) ->
  latin text -> Forall latin (split_scripts isalnum lower text).
Proof.
  intros Hlow Ht. destruct (split_loop_latin text Hlow Ht) as [H1 H2].
  unfold split_scripts. destruct (split_loop text) as [tokens temp].
  by apply flush_latin.
Qed.

Lemma segment_loop_latin tokens :
  Forall latin tokens -> segment_loop tokens = (tokens, []).
Proof.
  induction tokens as [|t tokens IH] using rev_ind; [done|].
  intros H. apply Forall_app in H as [H1 H2]. rewrite foldl_snoc, IH by done.
  rewrite Forall_singleton in H2. unfold segment_step. unfold latin in H2.
  by rewrite H2.
Qed.

Lemma segment_chinese_latin tokens :
  Forall latin tokens -> segment_chinese jieba_cut tokens = tokens.
Proof. intros H. unfold segment_chinese. by rewrite segment_loop_latin. Qed.

(** *** Texts without letters and digits *)

Lemma split_loop_chinese text :
  (forall c, c ∈ text -> isalnum c && negb (is_chinese_char [c]) = false) ->
  split_loop text
  = (map (fun c => [c]) (filter (fun c => is_chinese_char [c] = true) text),
     []).
Proof.
  induction text as [|c text IH] using rev_ind; [done|].
  intros H.
  rewrite foldl_snoc, IH by (intros d Hd; apply H, elem_of_app; by left).
  unfold split_step. rewrite (H c) by (apply elem_of_app; right; left).
  simpl is_empty. cbv iota.
  rewrite filter_app, map_app, filter_cons, filter_nil.
  destruct (is_chinese_char [c]) eqn:E.
  - by rewrite decide_True.
  - rewrite decide_False by done. simpl. by rewrite app_nil_r.
Qed.

Lemma segment_loop_chinese (s : pystr) :
  Forall (fun c => is_chinese_char [c] = true) s ->
  segment_loop (map (fun c => [c]) s) = ([], map (fun c => [c]) s).
Proof.
  induction s as [|c s IH] using rev_ind; [done|].
  intros H. apply Forall_app in H as [H1 H2]. rewrite map_app. cbn [map].
  rewrite foldl_snoc, IH by done.
  rewrite Forall_singleton in H2. unfold segment_step. cbn [existsb].
  by rewrite H2.
Qed.

Lemma concat_singletons (s : pystr) : concat (map (fun c => [c]) s) = s.
Proof. induction s as [|c s IH]; [done|]. simpl. by rewrite IH. Qed.

End PreprocessFacts.

(** *** The services of the examples *)

Lemma sample_cut_concat s : concat (sample_cut s) = s.
Proof. apply concat_singletons. Qed.

Lemma sample_isalnum_range c :
  sample_isalnum c = true ->
  48 <= c <= 57 \/ 65 <= c <= 90 \/ 97 <= c <= 122 \/ 0x4e00 <= c <= 0x9fff.
Proof.
  unfold sample_isalnum, is_chinese_char.
  rewrite !orb_true_iff, !andb_true_iff, !Z.leb_le. lia.
Qed.

Lemma sample_lower_not_whitespace c x :
  sample_isalnum c = true -> x ∈ sample_lower c -> x ∉ unicode_whitespace.
Proof.
  intros Hc Hx Hw. apply sample_isalnum_range in Hc.
  unfold sample_lower in Hx. apply list_elem_of_singleton in Hx.
  assert (48 <= x <= 57 \/ 97 <= x <= 122 \/ 0x4e00 <= x <= 0x9fff) as Hr.
  { destruct ((65 <=? c) && (c <=? 90)) eqn:E.
    - apply andb_true_iff in E as [E1 E2]. apply Z.leb_le in E1, E2. lia.
    - apply andb_false_iff in E as [E|E]; apply Z.leb_gt in E; lia. }
  clear Hc Hx. unfold unicode_whitespace in Hw.
  repeat (apply elem_of_cons in Hw as [->|Hw]; [lia|]).
  by apply not_elem_of_nil in Hw.
Qed.

Lemma sample_lower_latin c :
  sample_isalnum c = true -> is_chinese_char [c] = false ->
  Forall (fun x => is_chinese_char [x] = false) (sample_lower c).
Proof.
  intros _ Hc. unfold sample_lower. apply Forall_singleton.
  destruct ((65 <=? c) && (c <=? 90)) eqn:E; [|done].
  apply andb_true_iff in E as [E1 E2]. apply Z.leb_le in E1, E2.
  unfold is_chinese_char. apply andb_false_iff. left. apply Z.leb_gt. lia.
Qed.

Lemma chinese_not_punctuation c :
  is_chinese_char [c] = true -> c ∉ punctuation.
Proof.
  simpl. intros H Hp. apply andb_true_iff in H as [H1 H2].
  apply Z.leb_le in H1, H2.
  unfold punctuation, string_punctuation, cjk_punctuation in Hp.
  simpl app in Hp.
  repeat (apply elem_of_cons in Hp as [->|Hp]; [lia|]).
  by apply not_elem_of_nil in Hp.
Qed.

(** X17: [is_chinese_char] holds of the one-character strings in
    U+4E00..U+9FFF only, and none of these characters is in the punctuation
    set or is whitespace: the normalized string keeps every Chinese
    character of the text, in order. *)
Theorem chinese_characters_kept isalnum lower jieba_cut text :
  (forall s, is_chinese_char s = true <->
             exists c, s = [c] /\ 0x4e00 <= c <= 0x9fff) /\
  (forall c, is_chinese_char [c] = true ->
             (c ∉ punctuation) /\ (c ∉ unicode_whitespace)) /\
  filter (fun c => is_chinese_char [c] = true)
         (snd (preprocess_text isalnum lower jieba_cut text))
  = filter (fun c => is_chinese_char [c] = true) text.
Proof.
  split; [|split].
  - intros s. split.
    + destruct s as [|c [|d s]]; [done| |done]. simpl. intros H.
      apply andb_true_iff in H as [H1 H2]. apply Z.leb_le in H1, H2.
      by exists c.
    + intros (c & -> & H1 & H2). simpl. apply andb_true_iff.
      split; by apply Z.leb_le.
  - intros c Hc. split;
      [by apply chinese_not_punctuation|by apply chinese_not_whitespace].
  - rewrite preprocess_text_snd, edit_string_filter, list_filter_filter.
    apply list_filter_iff. intros c. split; [tauto|]. intros Hc.
    split; [done|]. split;
      [by apply chinese_not_whitespace|by apply chinese_not_punctuation].
Qed.

(** X18: the normalized string is a fixed point of the normalization:
    preprocessing it again returns it unchanged. *)
Theorem normalized_string_idempotent isalnum lower jieba_cut text :
  snd (preprocess_text isalnum lower jieba_cut
         (snd (preprocess_text isalnum lower jieba_cut text)))
  = snd (preprocess_text isalnum lower jieba_cut text).
Proof.
  rewrite !preprocess_text_snd, !edit_string_filter, list_filter_filter.
  apply list_filter_iff. tauto.
Qed.

(** X19: the tokens, joined, are the letters, digits and Chinese characters
    of the text in their order, the letters in lowercase: the two loops and
    the final filter drop the other characters and nothing else, and they
    neither repeat nor reorder a character. This holds for a segmenter that
    cuts its input into consecutive pieces, and a [lower] that yields no
    whitespace. *)
Theorem tokens_keep_text isalnum lower jieba_cut text :
  (forall s, concat (jieba_cut s) = s) ->
  (forall c x, isalnum c = true -> x ∈ lower c -> x ∉ unicode_whitespace) ->
  concat (fst (preprocess_text isalnum lower jieba_cut text))
  = concat (map (kept_characters isalnum lower) text).
Proof.
  intros Hcut Hlow. rewrite preprocess_text_fst.
  rewrite concat_filter_nonblank.
  - by rewrite segment_chinese_concat, split_scripts_concat.
  - intros t Ht Hs. apply strip_nil in Hs. destruct t as [|c t]; [done|].
    exfalso. apply Forall_cons in Hs as [Hc _].
    apply (kept_not_whitespace isalnum lower text c Hlow); [|done].
    rewrite <- split_scripts_concat, <- (segment_chinese_concat jieba_cut)
      by done.
    apply (elem_of_concat_token _ (c :: t)); [done|left].
Qed.

Lemma tokens_keep_text_witness :
  concat (fst (preprocess_text sample_isalnum sample_lower sample_cut hi_nihao))
  = concat (map (kept_characters sample_isalnum sample_lower) hi_nihao).
Proof.
  apply (tokens_keep_text sample_isalnum sample_lower sample_cut hi_nihao).
  - exact sample_cut_concat.
  - exact sample_lower_not_whitespace.
Defined.

(** *** The runs of letters and digits *)

Section WordRuns.

Variable isalnum : Z -> bool.
Variable lower : Z -> pystr.

Lemma word_runs_gap c text runs :
  isalnum c = false -> word_runs isalnum text runs ->
  word_runs isalnum (c :: text) runs.
Proof.
  intros Hc H. destruct H as [gap Hg|gap run rest runs Hg Hne Hr Hh H].
  - apply word_runs_none. by constructor.
  - apply (word_runs_next isalnum (c :: gap)); try done. by constructor.
Qed.

(** Where the first letter or digit of a text is. *)
Lemma first_alnum_unique (g g' : pystr) x x' r r' :
  Forall (fun c => isalnum c = false) g ->
  Forall (fun c => isalnum c = false) g' ->
  isalnum x = true -> isalnum x' = true ->
  g ++ x :: r = g' ++ x' :: r' -> g = g' /\ x :: r = x' :: r'.
Proof.
  intros Hg. revert g'. induction Hg as [|c g Hc Hg IH]; intros g' Hg' Hx Hx' E.
  - destruct Hg' as [|c' g' Hc' Hg']; [done|].
    simpl in E. injection E as -> _. congruence.
  - destruct Hg' as [|c' g' Hc' Hg'].
    + simpl in E. injection E as <- _. congruence.
    + simpl in E. injection E as -> E.
      destruct (IH g' Hg' Hx Hx' E) as [-> ?]. done.
Qed.

(** Where a run that starts a text ends. *)
Lemma run_end_unique (u u' : pystr) r r' :
  Forall (fun c => isalnum c = true) u ->
  Forall (fun c => isalnum c = true) u' ->
  (forall c, head r = Some c -> isalnum c = false) ->
  (forall c, head r' = Some c -> isalnum c = false) ->
  u ++ r = u' ++ r' -> u = u' /\ r = r'.
Proof.
  intros Hu. revert u'. induction Hu as [|c u Hc Hu IH]; intros u' Hu' Hr Hr' E.
  - destruct Hu' as [|c' u' Hc' Hu']; [done|].
    simpl in E. rewrite E in Hr. specialize (Hr c' eq_refl). congruence.
  - destruct Hu' as [|c' u' Hc' Hu'].
    + simpl in E. rewrite <- E in Hr'. specialize (Hr' c eq_refl). congruence.
    + simpl in E. injection E as -> E.
      destruct (IH u' Hu' Hr Hr' E) as [-> ?]. done.
Qed.

Lemma word_runs_inv text runs :
  word_runs isalnum text runs ->
  (runs = [] /\ Forall (fun c => isalnum c = false) text) \/
  exists gap x run rest runs0,
    text = gap ++ (x :: run) ++ rest /\ runs = (x :: run) :: runs0 /\
    Forall (fun c => isalnum c = false) gap /\
    isalnum x = true /\ Forall (fun c => isalnum c = true) (x :: run) /\
    (forall c, head rest = Some c -> isalnum c = false) /\
    word_runs isalnum rest runs0.
Proof.
  intros [gap Hg|gap run rest runs0 Hg Hne Hr Hh H]; [by left|right].
  destruct run as [|x run]; [done|].
  exists gap, x, run, rest, runs0. repeat split; try done.
  by apply Forall_cons in Hr as [? _].
Qed.

Lemma word_runs_unique text runs runs' :
  word_runs isalnum text runs -> word_runs isalnum text runs' -> runs = runs'.
Proof.
  intros H. revert runs'.
  induction H as [gap Hg|gap run rest runs Hg Hne Hr Hh H IH]; intros runs' H'.
  - apply word_runs_inv in H'
      as [[-> _]|(gap' & x & run' & rest' & runs0 & -> & _ & _ & Hx & _)];
      [done|].
    exfalso. rewrite Forall_forall in Hg. rewrite (Hg x) in Hx; [done|].
    rewrite elem_of_app. right. left.
  - destruct run as [|x run]; [done|].
    pose proof Hr as Hx. apply Forall_cons in Hx as [Hx _].
    apply word_runs_inv in H'
      as [[_ Hall]|(gap' & x' & run' & rest' & runs0 & E & -> & Hg' & Hx' &
                    Hr' & Hh' & H')].
    + exfalso. rewrite Forall_forall in Hall. rewrite (Hall x) in Hx; [done|].
      rewrite elem_of_app. right. left.
    + simpl in E.
      destruct (first_alnum_unique gap gap' x x' _ _ Hg Hg' Hx Hx' E)
        as [-> E3].
      destruct (run_end_unique (x :: run) (x' :: run') rest rest'
                  Hr Hr' Hh Hh' E3) as [E4 ->].
      rewrite E4. f_equal. by apply IH.
Qed.

Local Abbreviation split_loop := (foldl (split_step isalnum lower)).
Local Abbreviation word := (fun run : pystr => concat (map lower run)).

Lemma split_loop_runs text : forall tokens cur,
  Forall (fun c => is_chinese_char [c] = false) text ->
  Forall (fun c => isalnum c = true) cur ->
  exists runs,
    word_runs isalnum (cur ++ text) runs /\
    (let '(tokens', temp_english) := split_loop (tokens, map lower cur) text in
     if is_empty temp_english then tokens'
     else tokens' ++ [concat temp_english])
    = tokens ++ map word runs.
Proof.
  induction text as [|c text IH]; intros tokens cur Ht Hcur.
  - cbn [foldl]. destruct cur as [|x cur].
    + exists []. split; [by apply word_runs_none|]. simpl. by rewrite app_nil_r.
    + exists [x :: cur]. split; [|done].
      rewrite <- (app_nil_l ((x :: cur) ++ [])).
      apply word_runs_next; try done. by apply word_runs_none.
  - apply Forall_cons in Ht as [Hc Ht]. cbn [foldl].
    unfold split_step at 2. rewrite Hc. simpl negb. rewrite andb_true_r.
    destruct (isalnum c) eqn:Ec.
    + destruct (IH tokens (cur ++ [c]) Ht) as (runs & Hruns & E).
      { apply Forall_app. by split; [|repeat constructor]. }
      exists runs. rewrite <- app_assoc in Hruns. split; [done|].
      by rewrite map_app in E.
    + destruct cur as [|x cur].
      * destruct (IH tokens [] Ht) as (runs & Hruns & E); [done|].
        exists runs. split; [by apply word_runs_gap|]. done.
      * destruct (IH (tokens ++ [word (x :: cur)]) [] Ht)
          as (runs & Hruns & E); [done|].
        exists ((x :: cur) :: runs). split.
        -- rewrite <- (app_nil_l ((x :: cur) ++ c :: text)).
           apply word_runs_next; try done.
           ++ by intros ? [= <-].
           ++ by apply word_runs_gap.
        -- cbn [is_empty map]. cbv iota. cbn [map] in E.
           rewrite E. by rewrite <- app_assoc.
Qed.

Lemma split_scripts_runs text :
  Forall (fun c => is_chinese_char [c] = false) text ->
  exists runs,
    word_runs isalnum text runs /\
    split_scripts isalnum lower text = map word runs.
Proof.
  intros Ht. destruct (split_loop_runs text [] [] Ht) as (runs & Hr & E);
    [done|].
  by exists runs.
Qed.

End WordRuns.

(** X20: for a text without Chinese characters the segmenter is not
    consulted: the tokens are the maximal runs of letters and digits of the
    text, in their order, each character replaced by its lowercase form, and
    those that are blank left out. The runs are determined by the text. *)
Theorem latin_text_tokens isalnum lower jieba_cut text :
  (forall c, isalnum c = true -> is_chinese_char [c] = false ->
             Forall (fun x => is_chinese_char [x] = false) (lower c)) ->
  Forall (fun c => is_chinese_char [c] = false) text ->
  exists runs,
    word_runs isalnum text runs /\
    (forall runs', word_runs isalnum text runs' -> runs' = runs) /\
    fst (preprocess_text isalnum lower jieba_cut text)
    = filter (fun token => strip token <> [])
             (map (fun run => concat (map lower run)) runs).
Proof.
  assert (forall t, Forall (fun x => is_chinese_char [x] = false) t -> latin t)
    as Hlatin.
  { intros t Ht. unfold latin. apply not_true_iff_false. intros E.
    apply existsb_exists in E as (x & Hx & E). rewrite Forall_forall in Ht.
    rewrite (Ht x) in E; [done|]. by apply list_elem_of_In. }
  intros Hlow Ht.
  destruct (split_scripts_runs isalnum lower text Ht) as (runs & Hruns & E).
  exists runs. split; [done|]. split.
  - intros runs' H'. by apply (word_runs_unique isalnum text).
  - rewrite preprocess_text_fst, segment_chinese_latin; [by rewrite E|].
    apply split_scripts_latin; [|by apply Hlatin].
    intros c Ha Hc. by apply Hlatin, Hlow.
Qed.

Lemma latin_text_tokens_witness :
  exists runs,
    word_runs sample_isalnum hi_you runs /\
    (forall runs', word_runs sample_isalnum hi_you runs' -> runs' = runs) /\
    fst (preprocess_text sample_isalnum sample_lower sample_cut hi_you)
    = filter (fun token => strip token <> [])
             (map (fun run => concat (map sample_lower run)) runs).
Proof.
  apply (latin_text_tokens sample_isalnum sample_lower sample_cut hi_you).
  - exact sample_lower_latin.
  - unfold hi_you. repeat constructor.
Defined.

Example latin_text_example :
  fst (preprocess_text sample_isalnum sample_lower sample_cut hi_you)
  = [[104; 105]; [121; 111; 117]].
Proof. vm_compute. reflexivity. Qed.

(** X21: for a text whose only letters and digits are Chinese characters,
    the segmenter is called once, on all the Chinese characters of the text
    joined: the punctuation and the spaces between them do not separate
    them. A text without any letter, digit or Chinese character has no
    token. *)
Theorem chinese_text_tokens isalnum lower jieba_cut text :
  (forall c, c ∈ text -> isalnum c = true -> is_chinese_char [c] = true) ->
  fst (preprocess_text isalnum lower jieba_cut text)
  = match filter (fun c => is_chinese_char [c] = true) text with
    | [] => []
    | chinese => filter (fun token => strip token <> []) (jieba_cut chinese)
    end.
Proof.
  intros H. rewrite preprocess_text_fst. unfold split_scripts, segment_chinese.
  rewrite split_loop_chinese.
  2:{ intros c Hc. specialize (H c Hc). destruct (isalnum c); [|done].
      by rewrite H. }
  simpl is_empty. cbv iota. rewrite segment_loop_chinese.
  2:{ apply Forall_forall. intros c Hc.
      by apply list_elem_of_filter in Hc as [? _]. }
  destruct (filter _ text) as [|c s] eqn:E; [done|].
  simpl is_empty. cbv iota. by rewrite concat_singletons.
Qed.

Lemma chinese_text_tokens_witness :
  fst (preprocess_text sample_isalnum sample_lower sample_cut
         nihao_comma_shijie)
  = match filter (fun c => is_chinese_char [c] = true) nihao_comma_shijie with
    | [] => []
    | chinese => filter (fun token => strip token <> []) (sample_cut chinese)
    end.
Proof.
  apply (chinese_text_tokens sample_isalnum sample_lower sample_cut
           nihao_comma_shijie).
  intros c Hc Ha. unfold nihao_comma_shijie in Hc.
  repeat (apply elem_of_cons in Hc as [->|Hc];
          [first [reflexivity|vm_compute in Ha; discriminate Ha]|]).
  by apply not_elem_of_nil in Hc.
Defined.

(** ** validate_file_path and main *)

(** Lines 61-70 raise on every input: [ValueError] for an empty part,
    [TypeError] at the product otherwise. *)
Lemma main_similarity_raises ot pt os ps :
  main_similarity ot pt os ps
  = Raise (if is_empty ot || is_empty os || is_empty pt || is_empty ps
           then ValueError else TypeError).
Proof. by destruct ot, os, pt, ps. Qed.

(** X22: [validate_file_path] returns exactly for a non-empty path whose
    expansion exists, is a regular file, is readable and has a size between
    1 byte and 100 MB (104857600 bytes, this bound included); what it
    returns is the expanded path. *)
Theorem validate_file_path_accepts {filesystem} (os : os_module filesystem)
    fs file_path file_type resolved :
  validate_file_path os fs file_path file_type = Returned resolved <->
  file_path <> [] /\
  resolved = expandvars os (expanduser os file_path) /\
  path_exists os fs resolved = true /\
  isfile os fs resolved = true /\
  access os fs resolved R_OK = true /\
  exists size, getsize os fs resolved = Returned size /\
               size <> 0 /\ size <= 104857600.
Proof.
  unfold validate_file_path, mbind, outcome_bind. split.
  - destruct file_path as [|c p]; [done|]. cbn [is_empty].
    set (q := expandvars os (expanduser os (c :: p))).
    destruct (path_exists os fs q) eqn:E1; [|done].
    destruct (isfile os fs q) eqn:E2; [|done].
    destruct (access os fs q R_OK) eqn:E3; [|done]. cbn [negb].
    destruct (getsize os fs q) as [size|e] eqn:E4; [|done].
    destruct (size =? 0) eqn:E5; [done|].
    destruct (_ <? size) eqn:E6; [done|].
    intros [= <-]. apply Z.eqb_neq in E5. apply Z.ltb_ge in E6.
    repeat split; try done. exists size. repeat split; [done|lia..].
  - intros (Hp & -> & E1 & E2 & E3 & size & E4 & E5 & E6).
    destruct file_path as [|c p]; [done|]. cbn [is_empty].
    rewrite E1, E2, E3, E4. cbn [negb].
    replace (size =? 0) with false by (symmetry; apply Z.eqb_neq; lia).
    by replace (_ <? size) with false by (symmetry; apply Z.ltb_ge; lia).
Qed.

Section MainFacts.

Variable filesystem : Type.
Variable os : os_module filesystem.
Variable isalnum : Z -> bool.
Variable lower : Z -> pystr.
Variable jieba_cut : pystr -> list pystr.
Variable round_2 : float -> float.
Variable format_2f : float -> pystr.

Local Abbreviation main_try' :=
  (main_try filesystem os isalnum lower jieba_cut round_2 format_2f).

(** The run from the check of the result file on, in the file system [fs1]
    that the creation of the output directory left. *)
Local Ltac rest_of_run fs1 p1 p2 Hfinal :=
  lazy beta iota zeta;
  destruct (path_exists os fs1 _ && negb (access os fs1 _ W_OK));
    [by exists fs1, PermissionError; split; [|apply Hfinal]|];
  lazy beta iota zeta;
  destruct (read_file (open_read os fs1) p1) as [?t1|?e];
    [|by eexists fs1, _; split; [|apply Hfinal]];
  destruct (read_file (open_read os fs1) p2) as [?t2|?e];
    [|by eexists fs1, _; split; [|apply Hfinal]];
  destruct (preprocess_text isalnum lower jieba_cut t1) as [?ot ?os];
  destruct (preprocess_text isalnum lower jieba_cut t2) as [?pt ?ps];
  rewrite main_similarity_raises;
  by eexists fs1, _; split; [|apply Hfinal].

Lemma main_try_raises argv fs :
  exists fs' e, main_try' argv fs = (fs', Raised e) /\
    (fs' = fs \/
     exists program original_path plagiarized_path result_path,
       argv = [program; original_path; plagiarized_path; result_path] /\
       fs' = fst (makedirs os (dirname os result_path) fs)).
Proof.
  unfold main_try.
  destruct argv as [|a0 [|a1 [|a2 [|a3 [|a4 rest]]]]];
    try (by eexists _, _; split; [reflexivity|left]).
  assert (forall fs1 : filesystem,
            fs1 = fs \/ fs1 = fst (makedirs os (dirname os a3) fs) ->
            fs1 = fs \/
            exists program original_path plagiarized_path result_path,
              [a0; a1; a2; a3]
              = [program; original_path; plagiarized_path; result_path] /\
              fs1 = fst (makedirs os (dirname os result_path) fs)) as Hfinal.
  { intros fs1 [->| ->]; [by left|right]. by exists a0, a1, a2, a3. }
  unfold mbind, io_bind, query, raise, reraise, engine, mret, io_ret.
  destruct (validate_file_path os fs a1 original_label) as [p1|e];
    [|by eexists _, _; split; [reflexivity|left]].
  destruct (validate_file_path os fs a2 plagiarized_label) as [p2|e];
    [|by eexists _, _; split; [reflexivity|left]].
  lazy beta iota zeta.
  destruct (negb (is_empty (dirname os a3))
            && negb (path_exists os fs (dirname os a3))).
  - destruct (makedirs os (dirname os a3) fs) as [fs1 [[]|e]] eqn:E.
    + specialize (Hfinal fs1 (or_intror eq_refl)). clear E.
      rest_of_run fs1 p1 p2 Hfinal.
    + exists fs1, IOError. split; [done|]. apply Hfinal. by right.
  - specialize (Hfinal fs (or_introl eq_refl)).
    rest_of_run fs p1 p2 Hfinal.
Qed.


End MainFacts.
